(** * csim.c: the CacheLab cache simulator, embedded and verified

    A shallow embedding of [lab/7. cache/csim.c] (an LRU set-associative
    cache simulator driven by a memory trace) and proofs of its
    specification.

    Conventions of the embedding (LP64, as the source assumes: [size_t],
    [uint64_t] and [unsigned long long] are 64 bits wide, [int] is 32):
    - C integers are values of [Z].  Unsigned arithmetic wraps modulo
      [2^64] and the wrap-around is written out; signed overflow, shifts
      by a negative amount or by 64 and more, and array accesses out of
      bounds are undefined behaviour in C and yield the outcome [UB].
    - [exit(EXIT_FAILURE)] yields the outcome [Exit].
    - the process-wide globals of the source are the fields of [state];
      every function takes the state and returns the new one.
    - arrays are lists, read with [!!] and written with [<[i:=x]>] after a
      bounds check. *)

From Stdlib Require Import ZArith Lia String Ascii.
From stdpp Require Import base tactics option list.

Open Scope Z_scope.

(** ** Outcomes of a C computation *)

Inductive outcome (A : Type) : Type :=
| Ok (a : A)   (* normal completion with a value *)
| Exit         (* the process terminated through exit(EXIT_FAILURE) *)
| UB.          (* undefined behaviour *)
Arguments Ok {A} a.
Arguments Exit {A}.
Arguments UB {A}.

Global Instance outcome_bind : MBind outcome := λ A B k m,
  match m with
  | Ok a => k a
  | Exit => Exit
  | UB => UB
  end.

(** An array read [a[i]]: out of bounds is undefined. *)
Definition index {A : Type} (a : list A) (i : nat) : outcome A :=
  match a !! i with
  | Some x => Ok x
  | None => UB
  end.

(** ** Machine arithmetic *)

Definition INT_MAX : Z := 2^31 - 1.
Definition INT_MIN : Z := - 2^31.
Definition ULLONG_MAX : Z := 2^64 - 1.

(** [(uint64_t)x], and every unsigned 64-bit result. *)
Definition to_uint64 (x : Z) : Z := x mod 2^64.

(** [x++] on an [unsigned long long]: wraps. *)
Definition incr_ull (x : Z) : Z := to_uint64 (x + 1).

(** [x++] on an [int]: overflow is undefined. *)
Definition incr_int (x : Z) : outcome Z :=
  if x <? INT_MAX then Ok (x + 1) else UB.

(** [a + b] on [int]. *)
Definition int_add (a b : Z) : outcome Z :=
  if (INT_MIN <=? a + b) && (a + b <=? INT_MAX) then Ok (a + b) else UB.

(** [x << n] and [x >> n] on a 64-bit unsigned [x] with an [int] count:
    defined for [0 <= n < 64] only. *)
Definition ull_shl (x n : Z) : outcome Z :=
  if (0 <=? n) && (n <? 64) then Ok (to_uint64 (Z.shiftl x n)) else UB.

Definition ull_shr (x n : Z) : outcome Z :=
  if (0 <=? n) && (n <? 64) then Ok (Z.shiftr x n) else UB.

(** ** Data structures *)

(** [line_t].  The [int valid] field only ever holds 0 or 1 and is a [bool]
    here. *)
Record line_t : Type := {
  valid : bool;
  tag : Z;
  last_used : Z
}.

(** [set_t]: the array of [E] lines. *)
Record set_t : Type := { lines : list line_t }.

(** [cache_t]; its fields [S] and [E] are [cache_S] and [cache_E]. *)
Record cache_t : Type := {
  cache_sets : list set_t;
  cache_S : Z;
  cache_E : Z
}.

(** The globals of the program: [s], [E], [b], [cache], the three counters
    and [use_counter].  The [verbose] flag only selects whether [printf] is
    called and is left out with the output.  [access_log] is a ghost field: it
    is not in the source, and records every completed call of [access_data]
    as the pair of the address passed and the value returned. *)
Record state : Type := {
  glob_s : Z;
  glob_E : Z;
  glob_b : Z;
  cache : cache_t;
  hit_count : Z;
  miss_count : Z;
  eviction_count : Z;
  use_counter : Z;
  access_log : list (Z * Z)
}.

(** ** [access_data] *)

(** Lines 139-142: the set index and the tag of an address. *)
Definition decompose (s b addr : Z) : outcome (Z * Z) :=
  set_mask ← (if 0 <? s
              then m ← ull_shl 1 s; Ok (to_uint64 (m - 1))
              else Ok 0);
  x ← ull_shr addr b;
  let set_index := Z.land x set_mask in
  bs ← int_add b s;
  t ← ull_shr addr bs;
  Ok (set_index, t).

(** The two searching loops [for (i = 0; i < cache.E; i++)] that return at
    the first line satisfying a test: [i] is the loop index and [n] the
    number of iterations left. *)
Fixpoint scan_first (P : line_t → bool) (ls : list line_t) (i n : nat)
  : outcome (option nat) :=
  match n with
  | O => Ok None
  | S n' =>
      l ← index ls i;
      if P l then Ok (Some i) else scan_first P ls (S i) n'
  end.

(** [line->valid && line->tag == tag] *)
Definition is_hit (t : Z) (l : line_t) : bool := valid l && (tag l =? t).

(** [!line->valid] *)
Definition is_free (l : line_t) : bool := negb (valid l).

(** The loop of lines 175-180, with its two variables [min_used] and
    [lru_index]. *)
Fixpoint lru_scan (ls : list line_t) (i n : nat) (min_used : Z) (lru_index : nat)
  : outcome nat :=
  match n with
  | O => Ok lru_index
  | S n' =>
      l ← index ls i;
      if last_used l <? min_used
      then lru_scan ls (S i) n' (last_used l) i
      else lru_scan ls (S i) n' min_used lru_index
  end.

(** The state after a call: line [i] of set [set_index] becomes [l], the
    counters take their new values and the call is logged. *)
Definition commit (st : state) (set_index : nat) (set : set_t) (i : nat) (l : line_t)
    (h m e uc : Z) (addr r : Z) : state :=
  {| glob_s := glob_s st;
     glob_E := glob_E st;
     glob_b := glob_b st;
     cache := {| cache_sets :=
                   <[set_index := {| lines := <[i := l]> (lines set) |}]>
                     (cache_sets (cache st));
                 cache_S := cache_S (cache st);
                 cache_E := cache_E (cache st) |};
     hit_count := h;
     miss_count := m;
     eviction_count := e;
     use_counter := uc;
     access_log := access_log st ++ [(addr, r)] |}.

(** What [access_data] does once the address is decomposed. *)
Definition access_set (st : state) (addr set_index t : Z) : outcome (state * Z) :=
  let uc := incr_ull (use_counter st) in
  let si := Z.to_nat set_index in
  let n := Z.to_nat (cache_E (cache st)) in
  set ← index (cache_sets (cache st)) si;
  hit ← scan_first (is_hit t) (lines set) 0 n;
  match hit with
  | Some i =>
      h ← incr_int (hit_count st);
      l ← index (lines set) i;
      Ok (commit st si set i
            {| valid := valid l; tag := tag l; last_used := uc |}
            h (miss_count st) (eviction_count st) uc addr 0, 0)
  | None =>
      m ← incr_int (miss_count st);
      free ← scan_first is_free (lines set) 0 n;
      match free with
      | Some i =>
          Ok (commit st si set i
                {| valid := true; tag := t; last_used := uc |}
                (hit_count st) m (eviction_count st) uc addr 1, 1)
      | None =>
          e ← incr_int (eviction_count st);
          lru_index ← lru_scan (lines set) 0 n ULLONG_MAX 0;
          l ← index (lines set) lru_index;
          Ok (commit st si set lru_index
                {| valid := valid l; tag := t; last_used := uc |}
                (hit_count st) m e uc addr 2, 2)
      end
  end.

(** [int access_data(uint64_t addr)]: 0 = hit, 1 = miss, 2 = miss and
    eviction. *)
Definition access_data (st : state) (addr : Z) : outcome (state * Z) :=
  '(set_index, t) ← decompose (glob_s st) (glob_b st) addr;
  access_set st addr set_index t.

(** The calls of [access_data] for a list of addresses, one after the
    other. *)
Fixpoint access_seq (st : state) (addrs : list Z) : outcome state :=
  match addrs with
  | [] => Ok st
  | addr :: rest => '(st', _) ← access_data st addr; access_seq st' rest
  end.

(** ** [init_cache] *)

(** [sizeof(set_t)] (one pointer) and [sizeof(line_t)] (an [int], padding
    and two 64-bit fields). *)
Definition sizeof_set_t : Z := 8.
Definition sizeof_line_t : Z := 24.

(** The values the globals have when [main] has read the arguments: the
    counters are 0 and [cache] is zero-initialised (its null [sets] pointer is
    the empty list). *)
Definition initial_globals (s E b : Z) : state :=
  {| glob_s := s; glob_E := E; glob_b := b;
     cache := {| cache_sets := []; cache_S := 0; cache_E := 0 |};
     hit_count := 0; miss_count := 0; eviction_count := 0;
     use_counter := 0; access_log := [] |}.

(** The line written by lines 104-106. *)
Definition empty_line : line_t := {| valid := false; tag := 0; last_used := 0 |}.

(** The loop of lines 103-107 over a block of [bytes] bytes: a write beyond
    the block is undefined. *)
Fixpoint init_lines (bytes : Z) (j n : nat) : outcome (list line_t) :=
  match n with
  | O => Ok []
  | S n' =>
      if sizeof_line_t * (Z.of_nat j + 1) <=? bytes
      then rest ← init_lines bytes (S j) n'; Ok (empty_line :: rest)
      else UB
  end.

Section Construction.

(** [malloc_ok k n]: the [k]-th call of [malloc] of the run, for [n] bytes,
    returns a block (of [n] bytes) rather than [NULL]. *)
Variable malloc_ok : nat → Z → bool.

(** The loop of lines 96-108 over the [sets] block of [bytes] bytes: [i] is
    the loop index, [n] the number of iterations left. *)
Fixpoint init_sets (bytes E : Z) (i n : nat) : outcome (list set_t) :=
  match n with
  | O => Ok []
  | S n' =>
      if sizeof_set_t * (Z.of_nat i + 1) <=? bytes
      then
        let lbytes := to_uint64 (sizeof_line_t * to_uint64 E) in
        if malloc_ok (S i) lbytes
        then
          ls ← init_lines lbytes 0 (Z.to_nat E);
          rest ← init_sets bytes E (S i) n';
          Ok ({| lines := ls |} :: rest)
        else Exit
      else UB
  end.

(** [void init_cache(void)] *)
Definition init_cache (st : state) : outcome state :=
  if 64 <=? glob_s st then Exit
  else
    S ← ull_shl 1 (glob_s st);
    let bytes := to_uint64 (sizeof_set_t * S) in
    if malloc_ok 0 bytes
    then
      sets ← init_sets bytes (glob_E st) 0 (Z.to_nat S);
      Ok {| glob_s := glob_s st; glob_E := glob_E st; glob_b := glob_b st;
            cache := {| cache_sets := sets; cache_S := S; cache_E := glob_E st |};
            hit_count := hit_count st; miss_count := miss_count st;
            eviction_count := eviction_count st;
            use_counter := use_counter st; access_log := access_log st |}
    else Exit.

(** The argument check of [main] (lines 258-262) followed by
    [init_cache]: the construction of the cache.  [have_trace] tells
    whether [-t] was given. *)
Definition main_init (s E b : Z) (have_trace : bool) : outcome state :=
  if (s <? 0) || (E <=? 0) || (b <? 0) || negb have_trace then Exit
  else init_cache (initial_globals s E b).

End Construction.

(** ** [replay_trace] *)

Section Replay.

(** [sscanf(buf, " %c %llx,%d", &op, &addr, &size)]: the value returned
    and the three variables after the call. *)
Variable sscanf_line : string → Z * (ascii * Z * Z).

(** The body of the loop of lines 196-232 for one buffer filled by
    [fgets]. *)
Definition replay_line (st : state) (buf : string) : outcome state :=
  let '(n, (op, addr, size)) := sscanf_line buf in
  if negb (n =? 3) then Ok st
  else if Ascii.eqb op "I" then Ok st
  else if Ascii.eqb op "M" then
    '(st1, r1) ← access_data st (to_uint64 addr);
    '(st2, r2) ← access_data st1 (to_uint64 addr);
    Ok st2
  else if Ascii.eqb op "L" || Ascii.eqb op "S" then
    '(st1, r) ← access_data st (to_uint64 addr);
    Ok st1
  else Ok st.

(** The loop itself, over the buffers that the successive calls of [fgets]
    return. *)
Fixpoint replay_lines (st : state) (bufs : list string) : outcome state :=
  match bufs with
  | [] => Ok st
  | buf :: rest => st' ← replay_line st buf; replay_lines st' rest
  end.

(** [void replay_trace(const char *tracefile)]; a file that cannot be
    opened is [None]. *)
Definition replay_trace (st : state) (file : option (list string)) : outcome state :=
  match file with
  | None => Exit
  | Some bufs => replay_lines st bufs
  end.

(** [main] once [getopt] has stored the arguments: the result is the triple
    passed to [printSummary]. *)
Definition main (malloc_ok : nat → Z → bool) (s E b : Z)
    (tracefile : option (option (list string))) : outcome (Z * Z * Z) :=
  st0 ← main_init malloc_ok s E b (bool_decide (is_Some tracefile));
  st ← replay_trace st0 (tracefile ≫= id);
  Ok (hit_count st, miss_count st, eviction_count st).

End Replay.

(** ** A model of the [sscanf] call

    The replayer above is parametric in what [sscanf] does.  For running
    traces, this is a model of the call for the one format string
    [" %c %llx,%d"], after the C standard's description of [fscanf]: white
    space in the format skips white space in the input, [%c] takes one
    character, [%llx] and [%d] skip white space and take an optional sign and
    the longest run of digits ([%llx] also an optional [0x]), the comma must
    match, and the value returned is the number of conversions done, or [EOF]
    when the input ends before the first.  Values too large for their type
    saturate, as [strtoull] and [strtol] do. *)

Definition is_space (c : ascii) : bool :=
  let n := Z.of_N (N_of_ascii c) in (n =? 32) || ((9 <=? n) && (n <=? 13)).

Fixpoint skip_space (s : string) : string :=
  match s with
  | String c s' => if is_space c then skip_space s' else s
  | EmptyString => s
  end.

Definition dec_digit (c : ascii) : option Z :=
  let n := Z.of_N (N_of_ascii c) in
  if (48 <=? n) && (n <=? 57) then Some (n - 48) else None.

Definition hex_digit (c : ascii) : option Z :=
  let n := Z.of_N (N_of_ascii c) in
  if (48 <=? n) && (n <=? 57) then Some (n - 48)
  else if (97 <=? n) && (n <=? 102) then Some (n - 87)
  else if (65 <=? n) && (n <=? 70) then Some (n - 55)
  else None.

(** The longest run of digits and the rest of the input. *)
Fixpoint scan_digits (base : Z) (digit : ascii → option Z) (s : string) (acc : Z)
  : Z * string :=
  match s with
  | String c s' =>
      match digit c with
      | Some d => scan_digits base digit s' (acc * base + d)
      | None => (acc, s)
      end
  | EmptyString => (acc, s)
  end.

Definition scan_sign (s : string) : bool * string :=
  match s with
  | String "-" s' => (true, s')
  | String "+" s' => (false, s')
  | _ => (false, s)
  end.

Definition starts_with_digit (digit : ascii → option Z) (s : string) : bool :=
  match s with
  | String c _ => bool_decide (is_Some (digit c))
  | EmptyString => false
  end.

Definition skip_0x (s : string) : string :=
  match s with
  | String "0" (String x s') =>
      if (Ascii.eqb x "x" || Ascii.eqb x "X") && starts_with_digit hex_digit s'
      then s' else s
  | _ => s
  end.

(** [%llx] *)
Definition conv_llx (s : string) : option (Z * string) :=
  let '(neg, s1) := scan_sign (skip_space s) in
  let s2 := skip_0x s1 in
  if starts_with_digit hex_digit s2
  then
    let '(v, rest) := scan_digits 16 hex_digit s2 0 in
    let v := Z.min v ULLONG_MAX in
    Some (if neg : bool then to_uint64 (- v) else v, rest)
  else None.

(** [%d] *)
Definition conv_d (s : string) : option (Z * string) :=
  let '(neg, s1) := scan_sign (skip_space s) in
  if starts_with_digit dec_digit s1
  then
    let '(v, rest) := scan_digits 10 dec_digit s1 0 in
    Some (if neg : bool then Z.max (- v) INT_MIN else Z.min v INT_MAX, rest)
  else None.

Definition sscanf_trace (buf : string) : Z * (ascii * Z * Z) :=
  match skip_space buf with
  | EmptyString => (-1, (zero, 0, 0))
  | String op r =>
      match conv_llx (skip_space r) with
      | None => (1, (op, 0, 0))
      | Some (addr, String "," r') =>
          match conv_d r' with
          | Some (size, _) => (3, (op, addr, size))
          | None => (2, (op, addr, 0))
          end
      | Some (addr, _) => (2, (op, addr, 0))
      end
  end.

(** A machine on which every allocation succeeds. *)
Definition malloc_always : nat → Z → bool := λ _ _, true.

(** ** The vocabulary of the specification *)

(** The state of a cache that [init_cache] has just built for the
    parameters [s], [E] and [b]: [2^s] sets of [E] lines, all invalid. *)
Definition fresh_state (s E b : Z) : state :=
  {| glob_s := s; glob_E := E; glob_b := b;
     cache := {| cache_sets :=
                   replicate (Z.to_nat (2^s))
                     {| lines := replicate (Z.to_nat E) empty_line |};
                 cache_S := 2^s;
                 cache_E := E |};
     hit_count := 0; miss_count := 0; eviction_count := 0;
     use_counter := 0; access_log := [] |}.

(** Line [j] of set [si] of the cache of [st]. *)
Definition line_at (st : state) (si j : nat) : option line_t :=
  set ← cache_sets (cache st) !! si; lines set !! j.

(** Every line of the cache is invalid. *)
Definition all_invalid (st : state) : Prop :=
  ∀ si j l, line_at st si j = Some l → valid l = false.

(** Among the first [n] lines of [ls], line [k] has the least [last_used],
    and every line before it has a strictly greater one: [k] is the lowest
    index that attains the minimum. *)
Definition lru_victim (ls : list line_t) (n k : nat) : Prop :=
  (k < n)%nat ∧
  ∃ lk, ls !! k = Some lk ∧
    ∀ j l, (j < n)%nat → ls !! j = Some l →
      last_used lk ≤ last_used l ∧ ((j < k)%nat → last_used lk < last_used l).

(** The outcomes of [access_data] as a step relation: one rule for each of
    its three [return] statements. *)
Inductive access_step (st : state) (addr : Z) : state → Z → Prop :=
| step_hit si t set i l :
    decompose (glob_s st) (glob_b st) addr = Ok (si, t) →
    cache_sets (cache st) !! Z.to_nat si = Some set →
    scan_first (is_hit t) (lines set) 0 (Z.to_nat (cache_E (cache st))) = Ok (Some i) →
    lines set !! i = Some l →
    hit_count st < INT_MAX →
    access_step st addr
      (commit st (Z.to_nat si) set i
         {| valid := valid l; tag := tag l; last_used := incr_ull (use_counter st) |}
         (hit_count st + 1) (miss_count st) (eviction_count st)
         (incr_ull (use_counter st)) addr 0) 0
| step_fill si t set i :
    decompose (glob_s st) (glob_b st) addr = Ok (si, t) →
    cache_sets (cache st) !! Z.to_nat si = Some set →
    scan_first (is_hit t) (lines set) 0 (Z.to_nat (cache_E (cache st))) = Ok None →
    scan_first is_free (lines set) 0 (Z.to_nat (cache_E (cache st))) = Ok (Some i) →
    miss_count st < INT_MAX →
    access_step st addr
      (commit st (Z.to_nat si) set i
         {| valid := true; tag := t; last_used := incr_ull (use_counter st) |}
         (hit_count st) (miss_count st + 1) (eviction_count st)
         (incr_ull (use_counter st)) addr 1) 1
| step_evict si t set k l :
    decompose (glob_s st) (glob_b st) addr = Ok (si, t) →
    cache_sets (cache st) !! Z.to_nat si = Some set →
    scan_first (is_hit t) (lines set) 0 (Z.to_nat (cache_E (cache st))) = Ok None →
    scan_first is_free (lines set) 0 (Z.to_nat (cache_E (cache st))) = Ok None →
    lru_scan (lines set) 0 (Z.to_nat (cache_E (cache st))) ULLONG_MAX 0 = Ok k →
    lines set !! k = Some l →
    miss_count st < INT_MAX →
    eviction_count st < INT_MAX →
    access_step st addr
      (commit st (Z.to_nat si) set k
         {| valid := valid l; tag := t; last_used := incr_ull (use_counter st) |}
         (hit_count st) (miss_count st + 1) (eviction_count st + 1)
         (incr_ull (use_counter st)) addr 2) 2.

Section Reachability.

Variable malloc_ok : nat → Z → bool.

(** A freshly constructed cache: what [main] has after its argument check
    and [init_cache]. *)
Definition fresh (st : state) : Prop :=
  ∃ s E b, main_init malloc_ok s E b true = Ok st.

(** The states that calls of [access_data] reach from a freshly
    constructed cache. *)
Inductive reachable : state → Prop :=
| reachable_fresh st : fresh st → reachable st
| reachable_access st addr st' r :
    reachable st → access_data st addr = Ok (st', r) → reachable st'.

End Reachability.

(** The shape that [init_cache] establishes and [access_data] keeps: [s] is a
    bit width below 64, there are [2^s] sets, and each has exactly
    [E >= 1] lines. *)
Record well_formed (st : state) : Prop := {
  wf_s : 0 ≤ glob_s st < 64;
  wf_b : 0 ≤ glob_b st;
  wf_E : 1 ≤ cache_E (cache st);
  wf_sets : length (cache_sets (cache st)) = Z.to_nat (2 ^ glob_s st);
  wf_lines : ∀ si set, cache_sets (cache st) !! si = Some set →
               length (lines set) = Z.to_nat (cache_E (cache st))
}.

(** The counters of a reachable state. *)
Record counters_ok (st : state) : Prop := {
  cnt_hit : 0 ≤ hit_count st ≤ INT_MAX;
  cnt_miss : 0 ≤ miss_count st ≤ INT_MAX;
  cnt_evict : 0 ≤ eviction_count st ≤ miss_count st;
  cnt_use : use_counter st = hit_count st + miss_count st;
  cnt_log : Z.of_nat (length (access_log st)) = use_counter st
}.

(** The time stamps of a reachable state: those of valid lines lie between 1
    and [use_counter], and differ within a set. *)
Record stamps_ok (st : state) : Prop := {
  stamp_range : ∀ si j l, line_at st si j = Some l → valid l = true →
                  1 ≤ last_used l ≤ use_counter st;
  stamp_distinct : ∀ si j1 j2 l1 l2,
                  line_at st si j1 = Some l1 → line_at st si j2 = Some l2 →
                  valid l1 = true → valid l2 = true → j1 ≠ j2 →
                  last_used l1 ≠ last_used l2
}.

Section TraceVocabulary.

Variable sscanf_line : string → Z * (ascii * Z * Z).

(** The addresses that the specification has a trace line access: a Modify
    twice, a Load or a Store once, anything else not at all. *)
Definition line_accesses (buf : string) : list Z :=
  let '(n, (op, addr, size)) := sscanf_line buf in
  if n =? 3 then
    if Ascii.eqb op "M" then [to_uint64 addr; to_uint64 addr]
    else if Ascii.eqb op "L" || Ascii.eqb op "S" then [to_uint64 addr]
    else []
  else [].

Definition trace_accesses (bufs : list string) : list Z :=
  concat (map line_accesses bufs).

(** The line is one that the replayer ignores: it does not scan as three
    fields, or its operation is [I]. *)
Definition ignored_line (buf : string) : Prop :=
  let '(n, (op, addr, size)) := sscanf_line buf in
  n ≠ 3 ∨ op = "I"%char.

End TraceVocabulary.

(** ** Sample states and traces *)

(** A set of two lines, both filled, and the state of a cache that has this
    one set ([s = 0], [E = 2], [b = 0]). *)
Definition full_set : set_t :=
  {| lines := [ {| valid := true; tag := 7; last_used := 5 |};
                {| valid := true; tag := 9; last_used := 3 |} ] |}.

Definition full_set_state : state :=
  {| glob_s := 0; glob_E := 2; glob_b := 0;
     cache := {| cache_sets := [full_set]; cache_S := 1; cache_E := 2 |};
     hit_count := 1; miss_count := 4; eviction_count := 2;
     use_counter := 5; access_log := [] |}.

(** The same with equal time stamps, which no run produces. *)
Definition tied_set : set_t :=
  {| lines := [ {| valid := true; tag := 7; last_used := 3 |};
                {| valid := true; tag := 9; last_used := 3 |} ] |}.

Definition tied_set_state : state :=
  {| glob_s := 0; glob_E := 2; glob_b := 0;
     cache := {| cache_sets := [tied_set]; cache_S := 1; cache_E := 2 |};
     hit_count := 1; miss_count := 4; eviction_count := 2;
     use_counter := 5; access_log := [] |}.

Definition sample_trace : list string :=
  [" L 10,1"; " M 20,1"; "I 0400d7d4,8"; " S 18,1"; "garbage"; " L 110,1";
   " M 210,1"]%string.

(** ** Further vocabulary: occupancy of the cache *)

(** The number of valid lines of a set, and of the whole cache. *)
Definition count_valid (ls : list line_t) : nat :=
  sum_list_with (λ l, if valid l then 1%nat else 0%nat) ls.

Definition valid_total (st : state) : nat :=
  sum_list_with (λ set, count_valid (lines set)) (cache_sets (cache st)).

(** Within a set no two valid lines carry the same tag. *)
Definition tags_unique (st : state) : Prop :=
  ∀ si j1 j2 l1 l2,
    line_at st si j1 = Some l1 → line_at st si j2 = Some l2 →
    valid l1 = true → valid l2 = true → j1 ≠ j2 → tag l1 ≠ tag l2.

(** The valid lines of a set are its first lines. *)
Definition valid_prefix (st : state) : Prop :=
  ∀ si i j l,
    line_at st si j = Some l → valid l = true → (i < j)%nat →
    ∃ l', line_at st si i = Some l' ∧ valid l' = true.

(** A completed call of [access_data] is on record whose address has the
    set index [si] and the tag [t]. *)
Definition accessed_before (st : state) (si : nat) (t : Z) : Prop :=
  ∃ addr r, (addr, r) ∈ access_log st ∧
    decompose (glob_s st) (glob_b st) addr = Ok (Z.of_nat si, t).

(** Every valid line holds the tag of an address that was accessed. *)
Definition lines_genuine (st : state) : Prop :=
  ∀ si j l, line_at st si j = Some l → valid l = true →
    accessed_before st si (tag l).

(** ** [free_cache] *)

(** [void free_cache(void)]: the null pointer is the empty list of sets, as
    in [initial_globals]; the blocks freed are no longer part of the state. *)
Definition free_cache (st : state) : state :=
  match cache_sets (cache st) with
  | [] => st
  | _ :: _ =>
      {| glob_s := glob_s st; glob_E := glob_E st; glob_b := glob_b st;
         cache := {| cache_sets := [];
                     cache_S := cache_S (cache st);
                     cache_E := cache_E (cache st) |};
         hit_count := hit_count st; miss_count := miss_count st;
         eviction_count := eviction_count st;
         use_counter := use_counter st; access_log := access_log st |}
  end.

(** ** The output of [replay_trace] with [-v] *)

(** The three texts of lines 212-214, 218-220 and 225-227. *)
Definition outcome_text (r : Z) : string :=
  if r =? 0 then " hit" else if r =? 1 then " miss" else " miss eviction".

Definition newline : string := String "010" EmptyString.

(** [if (verbose) printf(text)]: the output is the list of the texts
    printed so far. *)
Definition say (verbose : bool) (out : list string) (text : string) : list string :=
  if verbose then out ++ [text] else out.

Section VerboseReplay.

(** [sscanf] as before, and the text that [printf("%c %llx,%d", op, addr,
    size)] prints. *)
Variable sscanf_line : string → Z * (ascii * Z * Z).
Variable printf_op : ascii → Z → Z → string.

(** The body of the loop of lines 196-232 with its [printf] calls. *)
Definition replay_line_verbose (verbose : bool) (st : state) (out : list string)
    (buf : string) : outcome (state * list string) :=
  let '(n, (op, addr, size)) := sscanf_line buf in
  if negb (n =? 3) then Ok (st, out)
  else if Ascii.eqb op "I" then Ok (st, out)
  else
    let out0 := say verbose out (printf_op op addr size) in
    '(st', out') ←
      (if Ascii.eqb op "M" then
         '(st1, r1) ← access_data st (to_uint64 addr);
         let out1 := say verbose out0 (outcome_text r1) in
         '(st2, r2) ← access_data st1 (to_uint64 addr);
         Ok (st2, say verbose out1 (outcome_text r2))
       else if Ascii.eqb op "L" || Ascii.eqb op "S" then
         '(st1, r) ← access_data st (to_uint64 addr);
         Ok (st1, say verbose out0 (outcome_text r))
       else Ok (st, out0));
    Ok (st', say verbose out' newline).

Fixpoint replay_lines_verbose (verbose : bool) (st : state) (out : list string)
    (bufs : list string) : outcome (state * list string) :=
  match bufs with
  | [] => Ok (st, out)
  | buf :: rest =>
      '(st', out') ← replay_line_verbose verbose st out buf;
      replay_lines_verbose verbose st' out' rest
  end.

(** [replay_trace] with its output; a file that cannot be opened is
    [None]. *)
Definition replay_trace_verbose (verbose : bool) (st : state)
    (file : option (list string)) : outcome (state * list string) :=
  match file with
  | None => Exit
  | Some bufs => replay_lines_verbose verbose st [] bufs
  end.

(** The lines that are printed: those that scan as three fields with an
    operation other than [I]. *)
Definition printed_line (buf : string) : bool :=
  let '(n, (op, addr, size)) := sscanf_line buf in
  (n =? 3) && negb (Ascii.eqb op "I").

End VerboseReplay.

(** ** [main] with its options *)

(** The globals that the option loop of [main] sets. *)
Record options : Type := {
  opt_s : Z;
  opt_E : Z;
  opt_b : Z;
  opt_tracefile : option string;
  opt_verbose : bool
}.

(** Their initial values (lines 58-60 and 68; [tracefile] is [NULL]). *)
Definition no_options : options :=
  {| opt_s := 0; opt_E := 0; opt_b := 0; opt_tracefile := None;
     opt_verbose := false |}.

(** The option characters that the [switch] of [main] accepts. *)
Definition known_option (opt : ascii) : bool :=
  Ascii.eqb opt "s" || Ascii.eqb opt "E" || Ascii.eqb opt "b"
  || Ascii.eqb opt "t" || Ascii.eqb opt "v".

Section MainWithOptions.

(** The C library: [atoi], [strdup] (which returns [NULL], here [None],
    when it cannot allocate), and the files that [fopen] can open, given as the
    buffers [fgets] returns for them. *)
Variable atoi : string → Z.
Variable strdup : string → option string.
Variable fopen : string → option (list string).
Variable sscanf_line : string → Z * (ascii * Z * Z).
Variable printf_op : ascii → Z → Z → string.
Variable malloc_ok : nat → Z → bool.

(** The loop of lines 243-255 over the pairs of the value returned by
    [getopt] and of [optarg], up to the final -1. *)
Fixpoint parse_options (o : options) (args : list (ascii * string))
  : outcome options :=
  match args with
  | [] => Ok o
  | (opt, optarg) :: rest =>
      if Ascii.eqb opt "s" then
        parse_options {| opt_s := atoi optarg; opt_E := opt_E o; opt_b := opt_b o;
                         opt_tracefile := opt_tracefile o;
                         opt_verbose := opt_verbose o |} rest
      else if Ascii.eqb opt "E" then
        parse_options {| opt_s := opt_s o; opt_E := atoi optarg; opt_b := opt_b o;
                         opt_tracefile := opt_tracefile o;
                         opt_verbose := opt_verbose o |} rest
      else if Ascii.eqb opt "b" then
        parse_options {| opt_s := opt_s o; opt_E := opt_E o; opt_b := atoi optarg;
                         opt_tracefile := opt_tracefile o;
                         opt_verbose := opt_verbose o |} rest
      else if Ascii.eqb opt "t" then
        parse_options {| opt_s := opt_s o; opt_E := opt_E o; opt_b := opt_b o;
                         opt_tracefile := strdup optarg;
                         opt_verbose := opt_verbose o |} rest
      else if Ascii.eqb opt "v" then
        parse_options {| opt_s := opt_s o; opt_E := opt_E o; opt_b := opt_b o;
                         opt_tracefile := opt_tracefile o;
                         opt_verbose := true |} rest
      else Exit
  end.

(** The whole of [main]: the result is the triple passed to [printSummary],
    the text printed by [replay_trace], and the state that [free_cache]
    leaves. *)
Definition main_argv (args : list (ascii * string))
  : outcome (Z * Z * Z * list string * state) :=
  o ← parse_options no_options args;
  st0 ← main_init malloc_ok (opt_s o) (opt_E o) (opt_b o)
          (bool_decide (is_Some (opt_tracefile o)));
  '(st, out) ← replay_trace_verbose sscanf_line printf_op (opt_verbose o) st0
                 (opt_tracefile o ≫= fopen);
  Ok (hit_count st, miss_count st, eviction_count st, out, free_cache st).

End MainWithOptions.

(** ** Reading the trace file *)

(** [fgets(buf, size, fp)] on a stream of text: at most [room = size - 1]
    characters, up to and including the first newline; the result is the
    buffer and the rest of the stream. *)
Fixpoint fgets_take (room : nat) (stream : string) : string * string :=
  match room, stream with
  | O, _ => (EmptyString, stream)
  | _, EmptyString => (EmptyString, EmptyString)
  | S room', String c stream' =>
      if Ascii.eqb c "010" then (String c EmptyString, stream')
      else let '(buf, rest) := fgets_take room' stream' in (String c buf, rest)
  end.

(** At the end of the file [fgets] returns [NULL]. *)
Definition fgets (size : nat) (stream : string) : option (string * string) :=
  match stream with
  | EmptyString => None
  | String _ _ => Some (fgets_take (size - 1) stream)
  end.

(** The buffers that [while (fgets(buf, sizeof(buf), fp))] sees, with
    [char buf[256]]; every call takes at least one character, so the length
    of the stream bounds the number of calls. *)
Fixpoint read_buffers (fuel : nat) (stream : string) : list string :=
  match fuel with
  | O => []
  | S fuel' =>
      match fgets 256 stream with
      | None => []
      | Some (buf, rest) => buf :: read_buffers fuel' rest
      end
  end.

Definition file_buffers (content : string) : list string :=
  read_buffers (String.length content) content.

(** The text has no newline. *)
Fixpoint no_newline (text : string) : bool :=
  match text with
  | EmptyString => true
  | String c text' => negb (Ascii.eqb c "010") && no_newline text'
  end.

(** ** A reference model of LRU replacement

    A set is the list of the tags it holds, the most recently used first; there
    are no time stamps, no valid bits and no counters. *)

Fixpoint remove_tag (t : Z) (m : list Z) : list Z :=
  match m with
  | [] => []
  | x :: m' => if x =? t then remove_tag t m' else x :: remove_tag t m'
  end.

(** One reference to the tag [t] in a set of [E] ways: a tag that is there
    moves to the front (0); a new tag is put in front (1), after the last tag
    has been dropped when the set is full (2). *)
Definition lru_touch (E : nat) (m : list Z) (t : Z) : list Z * Z :=
  if existsb (Z.eqb t) m then (t :: remove_tag t m, 0)
  else if (length m <? E)%nat then (t :: m, 1)
  else (t :: removelast m, 2).

Definition model_access (s E b : Z) (ms : list (list Z)) (addr : Z)
  : outcome (list (list Z) * Z) :=
  '(si, t) ← decompose s b addr;
  m ← index ms (Z.to_nat si);
  let '(m', r) := lru_touch (Z.to_nat E) m t in
  Ok (<[Z.to_nat si := m']> ms, r).

(** The outcomes of a sequence of references. *)
Fixpoint model_run (s E b : Z) (ms : list (list Z)) (addrs : list Z)
  : outcome (list Z) :=
  match addrs with
  | [] => Ok []
  | addr :: rest =>
      '(ms', r) ← model_access s E b ms addr;
      rs ← model_run s E b ms' rest;
      Ok (r :: rs)
  end.

Definition model_fresh (s : Z) : list (list Z) := replicate (Z.to_nat (2^s)) [].

(** The number of outcomes [r] in a list of outcomes. *)
Definition count_outcome (r : Z) (rs : list Z) : Z :=
  Z.of_nat (length (filter (λ x, x = r) rs)).

(** The relation between the lines of a set and its model: the pairs of
    time stamp and tag of the valid lines, in decreasing order of the time
    stamps, carry the tags of the model. *)
Definition valid_pairs (ls : list line_t) : list (Z * Z) :=
  omap (λ l, if valid l then Some (last_used l, tag l) else None) ls.

Fixpoint desc_sorted (ps : list (Z * Z)) : Prop :=
  match ps with
  | [] => True
  | p :: ps' => (∀ q, q ∈ ps' → q.1 < p.1) ∧ desc_sorted ps'
  end.

Fixpoint remove_pair (t : Z) (ps : list (Z * Z)) : list (Z * Z) :=
  match ps with
  | [] => []
  | p :: ps' => if p.2 =? t then remove_pair t ps' else p :: remove_pair t ps'
  end.

Definition represents (ls : list line_t) (m : list Z) : Prop :=
  ∃ ps, ps ≡ₚ valid_pairs ls ∧ desc_sorted ps ∧ m = ps.*2.

Definition models (st : state) (ms : list (list Z)) : Prop :=
  Forall2 (λ set m, represents (lines set) m) (cache_sets (cache st)) ms.

(** ** More samples *)

(** The cache of one set of two lines after the accesses of the addresses 7
    and 9. *)
Definition warm_state : state :=
  Eval vm_compute in
    match access_seq (fresh_state 0 2 0) [7; 9] with
    | Ok st => st
    | _ => fresh_state 0 2 0
    end.

(** A machine on which the third and later allocations fail. *)
Definition malloc_twice : nat → Z → bool := λ k _, (k <? 2)%nat.

(** Models of [atoi] and of [printf("%c %llx,%d", op, addr, size)], and a
    file system with the one file [trace]. *)
Definition atoi_model (text : string) : Z :=
  match conv_d text with
  | Some (v, _) => v
  | None => 0
  end.

Definition digit_char (d : Z) : ascii :=
  ascii_of_N (Z.to_N (if d <? 10 then 48 + d else 87 + d)).

Fixpoint print_digits (fuel : nat) (base n : Z) (acc : string) : string :=
  match fuel with
  | O => acc
  | S fuel' =>
      let acc' := String (digit_char (n mod base)) acc in
      if n / base =? 0 then acc' else print_digits fuel' base (n / base) acc'
  end.

Definition print_hex (n : Z) : string := print_digits 64 16 n EmptyString.

Definition print_dec (n : Z) : string :=
  if n <? 0 then String "-" (print_digits 64 10 (- n) EmptyString)
  else print_digits 64 10 n EmptyString.

Definition printf_trace (op : ascii) (addr size : Z) : string :=
  String op (String " " (print_hex addr ++ String "," (print_dec size))).

Definition fopen_sample (name : string) : option (list string) :=
  if String.eqb name "trace" then Some sample_trace else None.

Definition sample_args : list (ascii * string) :=
  [("s"%char, "1"%string); ("E"%char, "2"%string); ("b"%char, "4"%string);
   ("t"%char, "trace"%string); ("v"%char, ""%string)].

(** * Proofs *)

(** ** The outcome monad *)

Lemma bind_Ok {A B : Type} (m : outcome A) (k : A → outcome B) (y : B) :
  m ≫= k = Ok y ↔ ∃ x, m = Ok x ∧ k x = Ok y.
Proof.
  destruct m as [x| |]; simpl; split.
  - eauto.
  - intros (x' & [= <-] & Hk). exact Hk.
  - discriminate.
  - intros (x' & [=] & _).
  - discriminate.
  - intros (x' & [=] & _).
Qed.

Lemma index_Ok {A : Type} (a : list A) (i : nat) (x : A) :
  index a i = Ok x ↔ a !! i = Some x.
Proof.
  unfold index. destruct (a !! i); split; intros [=]; subst; reflexivity.
Qed.

Lemma incr_int_Ok (x y : Z) : incr_int x = Ok y ↔ x < INT_MAX ∧ y = x + 1.
Proof.
  unfold incr_int. destruct (Z.ltb_spec x INT_MAX); split.
  - intros [= <-]. auto.
  - intros [_ ->]. reflexivity.
  - discriminate.
  - lia.
Qed.

(** ** The searching loops *)

Lemma scan_first_Some P ls i n k :
  scan_first P ls i n = Ok (Some k) →
  (i ≤ k < i + n)%nat ∧
  (∃ l, ls !! k = Some l ∧ P l = true) ∧
  (∀ j, (i ≤ j < k)%nat → ∃ l, ls !! j = Some l ∧ P l = false).
Proof.
  revert i. induction n as [|n IH]; intros i H; simpl in H; [discriminate|].
  apply bind_Ok in H as (l & Hl%index_Ok & H).
  destruct (P l) eqn:HP.
  - injection H as <-. split; [lia|]. split; [eauto|]. intros j Hj. lia.
  - apply IH in H as (Hk & Hfound & Hbefore).
    split; [lia|]. split; [exact Hfound|].
    intros j Hj. destruct (decide (j = i)) as [->|Hne]; [eauto|].
    apply Hbefore. lia.
Qed.

Lemma scan_first_None P ls i n :
  scan_first P ls i n = Ok None →
  ∀ j, (i ≤ j < i + n)%nat → ∃ l, ls !! j = Some l ∧ P l = false.
Proof.
  revert i. induction n as [|n IH]; intros i H j Hj; simpl in H; [lia|].
  apply bind_Ok in H as (l & Hl%index_Ok & H).
  destruct (P l) eqn:HP; [discriminate|].
  destruct (decide (j = i)) as [->|Hne]; [eauto|].
  apply (IH _ H). lia.
Qed.

(** The converses: what the loops return is determined by the lines. *)
Lemma scan_first_found P ls i n k l :
  (i ≤ k < i + n)%nat →
  ls !! k = Some l → P l = true →
  (∀ j, (i ≤ j < k)%nat → ∃ l', ls !! j = Some l' ∧ P l' = false) →
  scan_first P ls i n = Ok (Some k).
Proof.
  revert i. induction n as [|n IH]; intros i Hk Hl HP Hbefore; [lia|].
  simpl. destruct (decide (k = i)) as [->|Hne].
  - unfold index. rewrite Hl. simpl. rewrite HP. reflexivity.
  - destruct (Hbefore i) as (l' & Hl' & HP'); [lia|].
    unfold index. rewrite Hl'. simpl. rewrite HP'.
    apply IH; auto; [lia|]. intros j Hj. apply Hbefore. lia.
Qed.

Lemma scan_first_absent P ls i n :
  (∀ j, (i ≤ j < i + n)%nat → ∃ l, ls !! j = Some l ∧ P l = false) →
  scan_first P ls i n = Ok None.
Proof.
  revert i. induction n as [|n IH]; intros i Hall; [reflexivity|].
  simpl. destruct (Hall i) as (l & Hl & HP); [lia|].
  unfold index. rewrite Hl. simpl. rewrite HP.
  apply IH. intros j Hj. apply Hall. lia.
Qed.

(** Within the bounds of the array the loops are defined. *)
Lemma scan_first_defined P ls i n :
  (i + n ≤ length ls)%nat → ∃ r, scan_first P ls i n = Ok r.
Proof.
  revert i. induction n as [|n IH]; intros i Hlen; simpl; [eauto|].
  destruct (lookup_lt_is_Some_2 ls i) as [l Hl]; [lia|].
  unfold index. rewrite Hl. simpl.
  destruct (P l); [eauto|]. apply IH. lia.
Qed.

Lemma lru_scan_spec ls i n m k0 k :
  lru_scan ls i n m k0 = Ok k →
  (k = k0 ∧ ∀ j, (i ≤ j < i + n)%nat → ∃ l, ls !! j = Some l ∧ m ≤ last_used l)
  ∨ ((i ≤ k < i + n)%nat ∧
     ∃ lk, ls !! k = Some lk ∧ last_used lk < m ∧
       ∀ j, (i ≤ j < i + n)%nat →
         ∃ l, ls !! j = Some l ∧ last_used lk ≤ last_used l ∧
              ((j < k)%nat → last_used lk < last_used l)).
Proof.
  revert i m k0. induction n as [|n IH]; intros i m k0 H; simpl in H.
  - injection H as <-. left. split; [reflexivity|]. intros j Hj. lia.
  - apply bind_Ok in H as (l & Hl%index_Ok & H).
    destruct (Z.ltb_spec (last_used l) m) as [Hlt|Hge].
    + right. apply IH in H as [[-> Hall]|(Hk & lk & Hlk & Hm & Hall)].
      * split; [lia|]. exists l. split; [exact Hl|]. split; [exact Hlt|].
        intros j Hj. destruct (decide (j = i)) as [->|Hne].
        -- exists l. split; [exact Hl|]. split; lia.
        -- destruct (Hall j) as (l' & Hl' & Hle); [lia|].
           exists l'. split; [exact Hl'|]. split; lia.
      * split; [lia|]. exists lk. split; [exact Hlk|]. split; [lia|].
        intros j Hj. destruct (decide (j = i)) as [->|Hne].
        -- exists l. split; [exact Hl|]. split; lia.
        -- destruct (Hall j) as (l' & Hl' & Hle & Hlow); [lia|]. eauto.
    + apply IH in H as [[-> Hall]|(Hk & lk & Hlk & Hm & Hall)].
      * left. split; [reflexivity|].
        intros j Hj. destruct (decide (j = i)) as [->|Hne]; [eauto|].
        apply Hall. lia.
      * right. split; [lia|]. exists lk. split; [exact Hlk|]. split; [exact Hm|].
        intros j Hj. destruct (decide (j = i)) as [->|Hne].
        -- exists l. split; [exact Hl|]. split; lia.
        -- destruct (Hall j) as (l' & Hl' & Hle & Hlow); [lia|]. eauto.
Qed.

Lemma lru_scan_defined ls i n m k0 :
  (i + n ≤ length ls)%nat → ∃ k, lru_scan ls i n m k0 = Ok k.
Proof.
  revert i m k0. induction n as [|n IH]; intros i m k0 Hlen; simpl; [eauto|].
  destruct (lookup_lt_is_Some_2 ls i) as [l Hl]; [lia|].
  unfold index. rewrite Hl. simpl.
  destruct (last_used l <? m); apply IH; lia.
Qed.

(** From the initial values of the source, the loop of lines 175-180 finds
    the lowest index of least [last_used], whatever 64-bit values the time
    stamps have. *)
Lemma lru_scan_victim ls n k :
  (1 ≤ n)%nat →
  (∀ j l, (j < n)%nat → ls !! j = Some l → last_used l ≤ ULLONG_MAX) →
  lru_scan ls 0 n ULLONG_MAX 0 = Ok k →
  lru_victim ls n k.
Proof.
  intros Hn Hmax H.
  apply lru_scan_spec in H as [[-> Hall]|(Hk & lk & Hlk & Hm & Hall)].
  - split; [lia|]. destruct (Hall 0%nat) as (l0 & Hl0 & Hge0); [lia|].
    exists l0. split; [exact Hl0|]. intros j l Hj Hl.
    destruct (Hall j) as (l' & Hl' & Hge); [lia|].
    assert (l' = l) as -> by congruence.
    pose proof (Hmax _ _ Hj Hl). pose proof (Hmax 0%nat l0 ltac:(lia) Hl0).
    split; lia.
  - split; [lia|]. exists lk. split; [exact Hlk|]. intros j l Hj Hl.
    destruct (Hall j) as (l' & Hl' & Hle & Hlow); [lia|].
    assert (l' = l) as -> by congruence. auto.
Qed.

(** ** [access_data] and its step relation *)

Lemma access_data_step st addr st' r :
  access_data st addr = Ok (st', r) ↔ access_step st addr st' r.
Proof.
  split.
  - unfold access_data. intros H.
    apply bind_Ok in H as ([si t] & Hdec & H).
    unfold access_set in H.
    apply bind_Ok in H as (set & Hset%index_Ok & H).
    apply bind_Ok in H as ([i|] & Hhit & H).
    + apply bind_Ok in H as (h & [Hh ->]%incr_int_Ok & H).
      apply bind_Ok in H as (l & Hl%index_Ok & H).
      injection H as <- <-. eapply step_hit; eauto.
    + apply bind_Ok in H as (m & [Hm ->]%incr_int_Ok & H).
      apply bind_Ok in H as ([i|] & Hfree & H).
      * injection H as <- <-. eapply step_fill; eauto.
      * apply bind_Ok in H as (e & [He ->]%incr_int_Ok & H).
        apply bind_Ok in H as (k & Hk & H).
        apply bind_Ok in H as (l & Hl%index_Ok & H).
        injection H as <- <-. eapply step_evict; eauto.
  - intros H. unfold access_data.
    destruct H as [si t set i l Hdec Hset Hhit Hl Hh
                  |si t set i Hdec Hset Hhit Hfree Hm
                  |si t set k l Hdec Hset Hhit Hfree Hk Hl Hm He];
      rewrite Hdec; simpl; unfold access_set, index; rewrite Hset; simpl;
      rewrite Hhit; simpl; unfold incr_int.
    + destruct (Z.ltb_spec (hit_count st) INT_MAX); [|lia]. simpl.
      rewrite Hl. reflexivity.
    + destruct (Z.ltb_spec (miss_count st) INT_MAX); [|lia]. simpl.
      rewrite Hfree. reflexivity.
    + destruct (Z.ltb_spec (miss_count st) INT_MAX); [|lia]. simpl.
      rewrite Hfree. simpl.
      destruct (Z.ltb_spec (eviction_count st) INT_MAX); [|lia]. simpl.
      rewrite Hk. simpl. rewrite Hl. reflexivity.
Qed.

(** ** Address decomposition *)

Lemma to_uint64_small x : 0 ≤ x < 2^64 → to_uint64 x = x.
Proof. intros H. unfold to_uint64. apply Z.mod_small. exact H. Qed.

Lemma pow2_lt_64 s : 0 ≤ s < 64 → 0 < 2^s < 2^64.
Proof.
  intros H. split; [apply Z.pow_pos_nonneg; lia|].
  apply Z.pow_lt_mono_r; lia.
Qed.

Lemma decompose_defined s b addr :
  0 ≤ s → 0 ≤ b → b + s < 64 →
  decompose s b addr = Ok (Z.land (Z.shiftr addr b) (2^s - 1), Z.shiftr addr (b + s)).
Proof.
  intros Hs Hb Hbs. unfold decompose, ull_shl, ull_shr, int_add.
  pose proof (pow2_lt_64 s ltac:(lia)) as Hpow.
  assert (Hmask : (if 0 <? s
                   then (if (0 <=? s) && (s <? 64)
                         then Ok (to_uint64 (Z.shiftl 1 s)) else UB)
                        ≫= (λ m, Ok (to_uint64 (m - 1)))
                   else Ok 0) = Ok (2^s - 1)).
  { destruct (Z.ltb_spec 0 s) as [Hpos|Hzero].
    - destruct (Z.leb_spec 0 s); [|lia]. destruct (Z.ltb_spec s 64); [|lia].
      simpl. rewrite Z.shiftl_mul_pow2 by lia. rewrite Z.mul_1_l.
      rewrite (to_uint64_small (2^s)) by lia.
      rewrite to_uint64_small by lia. reflexivity.
    - assert (s = 0) as -> by lia. reflexivity. }
  rewrite Hmask. simpl.
  destruct (Z.leb_spec 0 b); [|lia]. destruct (Z.ltb_spec b 64); [|lia]. simpl.
  unfold INT_MIN, INT_MAX.
  destruct (Z.leb_spec (- 2^31) (b + s)); [|lia].
  destruct (Z.leb_spec (b + s) (2^31 - 1)); [|lia]. simpl.
  destruct (Z.leb_spec 0 (b + s)); [|lia]. destruct (Z.ltb_spec (b + s) 64); [|lia].
  reflexivity.
Qed.

(** A shift count out of range leaves the decomposition undefined. *)
Lemma decompose_shift_range s b addr si t :
  decompose s b addr = Ok (si, t) → 0 ≤ b < 64 ∧ 0 ≤ b + s < 64 ∧ s < 64.
Proof.
  unfold decompose, ull_shl, ull_shr, int_add. intros H.
  apply bind_Ok in H as (mask & Hmask & H).
  apply bind_Ok in H as (x & Hx & H).
  apply bind_Ok in H as (bs & Hbs & H).
  apply bind_Ok in H as (t' & Ht & H).
  destruct (Z.leb_spec 0 b); [|discriminate].
  destruct (Z.ltb_spec b 64); [|discriminate].
  destruct ((INT_MIN <=? b + s) && (b + s <=? INT_MAX)); [|discriminate].
  injection Hbs as <-.
  destruct (Z.leb_spec 0 (b + s)); [|discriminate].
  destruct (Z.ltb_spec (b + s) 64); [|discriminate].
  lia.
Qed.

(** The set index is an index of the [2^s] sets. *)
Lemma land_mask_range x s : 0 ≤ s → 0 ≤ Z.land x (2^s - 1) < 2^s.
Proof.
  intros Hs. replace (2^s - 1) with (Z.ones s) by (rewrite Z.ones_equiv; lia).
  rewrite Z.land_ones by lia. apply Z.mod_pos_bound. apply Z.pow_pos_nonneg; lia.
Qed.

Lemma decompose_index_range s b addr si t :
  0 ≤ s → decompose s b addr = Ok (si, t) → 0 ≤ si < 2^s.
Proof.
  intros Hs H. pose proof (decompose_shift_range _ _ _ _ _ H) as (Hb & Hbs & _).
  rewrite decompose_defined in H by lia. injection H as <- <-.
  apply land_mask_range. exact Hs.
Qed.

(** ** The effect of a call on the lines *)

Lemma line_at_insert st st' si k set l' :
  cache_sets (cache st) !! si = Some set →
  cache_sets (cache st') =
    <[si := {| lines := <[k := l']> (lines set) |}]> (cache_sets (cache st)) →
  (∀ j, line_at st' si j = <[k := l']> (lines set) !! j) ∧
  (∀ si' j, si' ≠ si ∨ j ≠ k → line_at st' si' j = line_at st si' j).
Proof.
  intros Hset Hsets. pose proof (lookup_lt_Some _ _ _ Hset) as Hlt.
  split.
  - intros j. unfold line_at. rewrite Hsets.
    rewrite list_lookup_insert_eq by exact Hlt. reflexivity.
  - intros si' j Hne. unfold line_at. rewrite Hsets.
    destruct (decide (si' = si)) as [->|Hsi].
    + rewrite list_lookup_insert_eq by exact Hlt. rewrite Hset. simpl.
      apply list_lookup_insert_ne. destruct Hne; congruence.
    + rewrite list_lookup_insert_ne by congruence. reflexivity.
Qed.

(** What one call changes: a single line [k] of the set [si] that the
    address selects, and the counters.  The line written is described for each
    returned value. *)
Lemma access_step_frame st addr st' r :
  access_step st addr st' r →
  ∃ si t set k l l',
    decompose (glob_s st) (glob_b st) addr = Ok (si, t) ∧
    cache_sets (cache st) !! Z.to_nat si = Some set ∧
    lines set !! k = Some l ∧
    cache st' =
      {| cache_sets := <[Z.to_nat si := {| lines := <[k := l']> (lines set) |}]>
                         (cache_sets (cache st));
         cache_S := cache_S (cache st);
         cache_E := cache_E (cache st) |} ∧
    (glob_s st' = glob_s st ∧ glob_E st' = glob_E st ∧ glob_b st' = glob_b st) ∧
    use_counter st' = incr_ull (use_counter st) ∧
    access_log st' = access_log st ++ [(addr, r)] ∧
    last_used l' = incr_ull (use_counter st) ∧
    ((r = 0 ∧ valid l = true ∧ tag l = t ∧ valid l' = true ∧ tag l' = t ∧
      (k < Z.to_nat (cache_E (cache st)))%nat ∧
      hit_count st' = hit_count st + 1 ∧ miss_count st' = miss_count st ∧
      eviction_count st' = eviction_count st)
     ∨ (r = 1 ∧ valid l = false ∧ valid l' = true ∧ tag l' = t ∧
        (k < Z.to_nat (cache_E (cache st)))%nat ∧
        hit_count st' = hit_count st ∧ miss_count st' = miss_count st + 1 ∧
        eviction_count st' = eviction_count st)
     ∨ (r = 2 ∧ valid l' = valid l ∧ tag l' = t ∧
        (1 ≤ cache_E (cache st) →
           valid l = true ∧ (k < Z.to_nat (cache_E (cache st)))%nat) ∧
        hit_count st' = hit_count st ∧ miss_count st' = miss_count st + 1 ∧
        eviction_count st' = eviction_count st + 1)).
Proof.
  intros [si t set i l Hdec Hset Hhit Hl Hh
         |si t set i Hdec Hset Hhit Hfree Hm
         |si t set k l Hdec Hset Hhit Hfree Hk Hl Hm He].
  - apply scan_first_Some in Hhit as (Hi & (l0 & Hl0 & HP) & _).
    assert (l0 = l) as -> by congruence.
    unfold is_hit in HP. apply andb_prop in HP as [Hv Ht%Z.eqb_eq].
    exists si, t, set, i, l. eexists. repeat split; try eassumption; try reflexivity.
    left. simpl. repeat split; auto. lia.
  - apply scan_first_Some in Hfree as (Hi & (l & Hl & HP) & _).
    unfold is_free in HP. apply negb_true_iff in HP.
    exists si, t, set, i, l. eexists. repeat split; try eassumption; try reflexivity.
    right; left. simpl. repeat split; auto. lia.
  - exists si, t, set, k, l. eexists. repeat split; try eassumption; try reflexivity.
    right; right. simpl. repeat split; auto.
    + assert (k < Z.to_nat (cache_E (cache st)))%nat as Hlt.
      { apply lru_scan_spec in Hk as [[-> _]|[Hk _]]; lia. }
      destruct (scan_first_None _ _ _ _ Hfree k) as (l0 & Hl0 & HP); [lia|].
      assert (l0 = l) as -> by congruence.
      unfold is_free in HP. apply negb_false_iff in HP. exact HP.
    + apply lru_scan_spec in Hk as [[-> _]|[Hk _]]; lia.
Qed.

(** ** Construction *)

Lemma init_lines_Ok bytes j n ls :
  init_lines bytes j n = Ok ls → ls = replicate n empty_line.
Proof.
  revert j ls. induction n as [|n IH]; intros j ls H; simpl in H.
  - injection H as <-. reflexivity.
  - destruct (sizeof_line_t * (Z.of_nat j + 1) <=? bytes); [|discriminate].
    apply bind_Ok in H as (rest & Hrest & H). injection H as <-.
    apply IH in Hrest as ->. reflexivity.
Qed.

Lemma init_lines_defined bytes j n :
  sizeof_line_t * (Z.of_nat j + Z.of_nat n) ≤ bytes →
  init_lines bytes j n = Ok (replicate n empty_line).
Proof.
  revert j. induction n as [|n IH]; intros j Hroom; simpl; [reflexivity|].
  unfold sizeof_line_t in *.
  destruct (Z.leb_spec (24 * (Z.of_nat j + 1)) bytes); [|lia].
  rewrite IH by lia. reflexivity.
Qed.

Section ConstructionProofs.

Variable malloc_ok : nat → Z → bool.

Lemma init_sets_Ok bytes E i n sets :
  init_sets malloc_ok bytes E i n = Ok sets →
  sets = replicate n {| lines := replicate (Z.to_nat E) empty_line |}.
Proof.
  revert i sets. induction n as [|n IH]; intros i sets H; simpl in H.
  - injection H as <-. reflexivity.
  - destruct (sizeof_set_t * (Z.of_nat i + 1) <=? bytes); [|discriminate].
    destruct (malloc_ok _ _); [|discriminate].
    apply bind_Ok in H as (ls & Hls & H).
    apply bind_Ok in H as (rest & Hrest & H). injection H as <-.
    apply init_lines_Ok in Hls as ->. apply IH in Hrest as ->. reflexivity.
Qed.

Lemma init_sets_defined bytes E i n :
  (∀ k x, malloc_ok k x = true) →
  sizeof_set_t * (Z.of_nat i + Z.of_nat n) ≤ bytes →
  0 ≤ E ≤ INT_MAX →
  init_sets malloc_ok bytes E i n =
    Ok (replicate n {| lines := replicate (Z.to_nat E) empty_line |}).
Proof.
  intros Hmalloc. revert i. induction n as [|n IH]; intros i Hroom HE; simpl;
    [reflexivity|].
  unfold sizeof_set_t in *.
  destruct (Z.leb_spec (8 * (Z.of_nat i + 1)) bytes); [|lia].
  rewrite Hmalloc. unfold INT_MAX in HE.
  rewrite (to_uint64_small E) by lia.
  rewrite init_lines_defined.
  - simpl. rewrite IH by (unfold INT_MAX; lia). reflexivity.
  - unfold sizeof_line_t. rewrite to_uint64_small by lia. lia.
Qed.

Lemma init_cache_Ok st st' :
  init_cache malloc_ok st = Ok st' →
  0 ≤ glob_s st < 64 ∧
  st' = {| glob_s := glob_s st; glob_E := glob_E st; glob_b := glob_b st;
           cache := {| cache_sets :=
                         replicate (Z.to_nat (2 ^ glob_s st))
                           {| lines := replicate (Z.to_nat (glob_E st)) empty_line |};
                       cache_S := 2 ^ glob_s st;
                       cache_E := glob_E st |};
           hit_count := hit_count st; miss_count := miss_count st;
           eviction_count := eviction_count st;
           use_counter := use_counter st; access_log := access_log st |}.
Proof.
  unfold init_cache, ull_shl. intros H.
  destruct (Z.leb_spec 64 (glob_s st)); [discriminate|].
  destruct (Z.leb_spec 0 (glob_s st)); simpl in H; [|discriminate].
  destruct (Z.ltb_spec (glob_s st) 64); simpl in H; [|lia].
  destruct (malloc_ok 0 _); [|discriminate].
  apply bind_Ok in H as (sets & Hsets & H). injection H as <-.
  apply init_sets_Ok in Hsets as ->.
  rewrite Z.shiftl_mul_pow2, Z.mul_1_l by lia.
  pose proof (pow2_lt_64 (glob_s st) ltac:(lia)).
  rewrite to_uint64_small by lia. split; [lia|reflexivity].
Qed.

Lemma main_init_Ok s E b have_trace st :
  main_init malloc_ok s E b have_trace = Ok st →
  0 ≤ s < 64 ∧ 0 < E ∧ 0 ≤ b ∧ have_trace = true ∧ st = fresh_state s E b.
Proof.
  unfold main_init. intros H.
  destruct (Z.ltb_spec s 0); [discriminate|].
  destruct (Z.leb_spec E 0); [discriminate|].
  destruct (Z.ltb_spec b 0); [discriminate|].
  destruct have_trace; [|discriminate]. simpl in H.
  apply init_cache_Ok in H as [Hs ->]. simpl in *. auto.
Qed.

Lemma main_init_Exit s E b have_trace :
  64 ≤ s ∨ E ≤ 0 → main_init malloc_ok s E b have_trace = Exit.
Proof.
  intros Hbad. unfold main_init.
  destruct (Z.ltb_spec s 0); [reflexivity|].
  destruct (Z.leb_spec E 0); [reflexivity|].
  destruct (b <? 0); [reflexivity|].
  destruct have_trace; [|reflexivity]. simpl.
  unfold init_cache. simpl.
  destruct (Z.leb_spec 64 s); [reflexivity|lia].
Qed.

(** With memory to spare the construction succeeds, up to the [s] whose
    array of sets still fits the address space. *)
Lemma main_init_defined s E b :
  (∀ k x, malloc_ok k x = true) →
  0 ≤ s ≤ 60 → 0 < E ≤ INT_MAX → 0 ≤ b →
  main_init malloc_ok s E b true = Ok (fresh_state s E b).
Proof.
  intros Hmalloc Hs HE Hb. unfold main_init.
  destruct (Z.ltb_spec s 0); [lia|].
  destruct (Z.leb_spec E 0); [lia|].
  destruct (Z.ltb_spec b 0); [lia|]. simpl.
  unfold init_cache, ull_shl. simpl.
  destruct (Z.leb_spec 64 s); [lia|].
  destruct (Z.leb_spec 0 s); [|lia]. destruct (Z.ltb_spec s 64); [|lia]. simpl.
  rewrite Hmalloc.
  rewrite Z.shiftl_mul_pow2, Z.mul_1_l by lia.
  pose proof (pow2_lt_64 s ltac:(lia)) as Hpow.
  assert (2^s ≤ 2^60) as Hle by (apply Z.pow_le_mono_r; lia).
  rewrite (to_uint64_small (2^s)) by lia.
  unfold sizeof_set_t. rewrite to_uint64_small by lia.
  rewrite init_sets_defined; [reflexivity|exact Hmalloc| |lia].
  unfold sizeof_set_t. lia.
Qed.

(** Past that, and below the guard of [init_cache], the size of the array of
    sets wraps to 0: the first store of the loop falls outside the block. *)
Lemma main_init_size_wraps s E b :
  61 ≤ s < 64 → 0 < E → 0 ≤ b →
  main_init malloc_ok s E b true = if malloc_ok 0%nat 0 then UB else Exit.
Proof.
  intros Hs HE Hb. unfold main_init.
  destruct (Z.ltb_spec s 0); [lia|].
  destruct (Z.leb_spec E 0); [lia|].
  destruct (Z.ltb_spec b 0); [lia|]. simpl.
  unfold init_cache, ull_shl. simpl.
  destruct (Z.leb_spec 64 s); [lia|].
  destruct (Z.leb_spec 0 s); [|lia]. destruct (Z.ltb_spec s 64); [|lia]. simpl.
  rewrite Z.shiftl_mul_pow2, Z.mul_1_l by lia.
  pose proof (pow2_lt_64 s ltac:(lia)) as Hpow.
  rewrite (to_uint64_small (2^s)) by lia.
  assert (Hwrap : to_uint64 (sizeof_set_t * 2^s) = 0).
  { unfold to_uint64, sizeof_set_t.
    replace s with ((s - 61) + 61) by lia.
    rewrite Z.pow_add_r by lia.
    replace (8 * (2^(s - 61) * 2^61)) with (2^(s - 61) * 2^64) by lia.
    apply Z.mod_mul. lia. }
  rewrite Hwrap. destruct (malloc_ok 0%nat 0); [|reflexivity].
  destruct (Z.to_nat (2^s)) as [|n] eqn:Hn; [lia|]. reflexivity.
Qed.

End ConstructionProofs.

(** ** The fresh state *)

Lemma line_at_fresh s E b si j l :
  line_at (fresh_state s E b) si j = Some l → l = empty_line.
Proof.
  unfold line_at, fresh_state. simpl. intros H.
  destruct (replicate _ _ !! si) as [set|] eqn:Hset; simpl in H; [|discriminate].
  apply lookup_replicate in Hset as [-> _]. simpl in H.
  apply lookup_replicate in H as [-> _]. reflexivity.
Qed.

Lemma fresh_all_invalid s E b : all_invalid (fresh_state s E b).
Proof. intros si j l H. apply line_at_fresh in H as ->. reflexivity. Qed.

Lemma fresh_well_formed s E b :
  0 ≤ s < 64 → 0 < E → 0 ≤ b → well_formed (fresh_state s E b).
Proof.
  intros Hs HE Hb. split; simpl; try lia.
  - apply length_replicate.
  - intros si set Hset. apply lookup_replicate in Hset as [-> _].
    simpl. apply length_replicate.
Qed.

Lemma fresh_counters_ok s E b : counters_ok (fresh_state s E b).
Proof. split; simpl; unfold INT_MAX; lia. Qed.

Lemma fresh_stamps_ok s E b : stamps_ok (fresh_state s E b).
Proof.
  split.
  - intros si j l H Hv. apply line_at_fresh in H as ->. discriminate.
  - intros si j1 j2 l1 l2 H1 _ Hv. apply line_at_fresh in H1 as ->. discriminate.
Qed.

(** ** Invariants of [access_data] *)

Lemma access_step_well_formed st addr st' r :
  access_step st addr st' r → well_formed st → well_formed st'.
Proof.
  intros Hstep [Hs Hb HE Hsets Hlines].
  apply access_step_frame in Hstep
    as (si & t & set & k & l & l' & _ & Hset & _ & Hc & (Hs' & _ & Hb') & _).
  split; rewrite ?Hs', ?Hb', ?Hc; simpl; auto.
  - rewrite length_insert. exact Hsets.
  - intros si' set' Hset'.
    destruct (decide (si' = Z.to_nat si)) as [->|Hne].
    + rewrite list_lookup_insert_eq in Hset' by (eapply lookup_lt_Some; eauto).
      injection Hset' as <-. simpl. rewrite length_insert. eauto.
    + rewrite list_lookup_insert_ne in Hset' by congruence. eauto.
Qed.

Lemma incr_ull_small x : 0 ≤ x < ULLONG_MAX → incr_ull x = x + 1.
Proof.
  unfold incr_ull, ULLONG_MAX. intros H. apply to_uint64_small. lia.
Qed.

Lemma counters_no_wrap st :
  counters_ok st → incr_ull (use_counter st) = use_counter st + 1.
Proof.
  intros [Hh Hm _ Hu _]. apply incr_ull_small.
  unfold INT_MAX, ULLONG_MAX in *. lia.
Qed.

Lemma access_step_counters_ok st addr st' r :
  access_step st addr st' r → counters_ok st → counters_ok st'.
Proof.
  intros Hstep Hcnt. pose proof (counters_no_wrap _ Hcnt) as Hwrap.
  destruct Hcnt as [Hh Hm He Hu Hlog].
  destruct Hstep; split; simpl; rewrite ?length_app, ?Hwrap; simpl; lia.
Qed.

Lemma access_step_stamps_ok st addr st' r :
  access_step st addr st' r → counters_ok st → stamps_ok st → stamps_ok st'.
Proof.
  intros Hstep Hcnt [Hrange Hdist].
  pose proof (counters_no_wrap _ Hcnt) as Hwrap.
  assert (0 ≤ use_counter st) as Hpos by (destruct Hcnt; lia).
  apply access_step_frame in Hstep
    as (si & t & set & k & l & l' & _ & Hset & Hl & Hc & _ & Hu & _ & Hlu & _).
  assert (Hsets : cache_sets (cache st') =
            <[Z.to_nat si := {| lines := <[k := l']> (lines set) |}]>
              (cache_sets (cache st))) by (rewrite Hc; reflexivity).
  destruct (line_at_insert _ _ _ _ _ _ Hset Hsets) as [Hsame Hother].
  assert (Hnew : ∀ j x, line_at st' (Z.to_nat si) j = Some x →
            (j = k ∧ x = l') ∨ (j ≠ k ∧ line_at st (Z.to_nat si) j = Some x)).
  { intros j x Hx. destruct (decide (j = k)) as [->|Hne].
    - left. split; [reflexivity|]. rewrite Hsame in Hx.
      rewrite list_lookup_insert_eq in Hx by (eapply lookup_lt_Some; eauto).
      congruence.
    - right. split; [exact Hne|]. rewrite <- Hother by auto. exact Hx. }
  rewrite Hwrap in *.
  split.
  - intros si' j x Hx Hv. rewrite Hu.
    destruct (decide (si' = Z.to_nat si)) as [->|Hne].
    + destruct (Hnew _ _ Hx) as [[-> ->]|[_ Hold]]; [lia|].
      specialize (Hrange _ _ _ Hold Hv). lia.
    + rewrite Hother in Hx by auto. specialize (Hrange _ _ _ Hx Hv). lia.
  - intros si' j1 j2 x1 x2 H1 H2 Hv1 Hv2 Hj.
    destruct (decide (si' = Z.to_nat si)) as [->|Hne].
    + destruct (Hnew _ _ H1) as [[-> ->]|[Hj1 Hold1]];
        destruct (Hnew _ _ H2) as [[-> ->]|[Hj2 Hold2]].
      * congruence.
      * specialize (Hrange _ _ _ Hold2 Hv2). lia.
      * specialize (Hrange _ _ _ Hold1 Hv1). lia.
      * eapply Hdist; eauto.
    + rewrite Hother in H1, H2 by auto. eapply Hdist; eauto.
Qed.

Section ReachabilityProofs.

Variable malloc_ok : nat → Z → bool.

Lemma fresh_is_fresh_state st :
  fresh malloc_ok st →
  ∃ s E b, 0 ≤ s < 64 ∧ 0 < E ∧ 0 ≤ b ∧ st = fresh_state s E b.
Proof.
  intros (s & E & b & H). apply main_init_Ok in H as (Hs & HE & Hb & _ & ->).
  eauto 10.
Qed.

Lemma reachable_invariant st :
  reachable malloc_ok st → well_formed st ∧ counters_ok st ∧ stamps_ok st.
Proof.
  induction 1 as [st Hfresh|st addr st' r _ (Hwf & Hcnt & Hst) Hstep].
  - apply fresh_is_fresh_state in Hfresh as (s & E & b & Hs & HE & Hb & ->).
    split; [|split]; auto using fresh_well_formed, fresh_counters_ok, fresh_stamps_ok.
  - apply access_data_step in Hstep. split; [|split].
    + eapply access_step_well_formed; eauto.
    + eapply access_step_counters_ok; eauto.
    + eapply access_step_stamps_ok; eauto.
Qed.

End ReachabilityProofs.

(** ** Definedness of [access_data] *)

Lemma access_data_defined st addr :
  well_formed st →
  glob_b st + glob_s st < 64 →
  hit_count st < INT_MAX → miss_count st < INT_MAX → eviction_count st < INT_MAX →
  ∃ st' r, access_data st addr = Ok (st', r).
Proof.
  intros [Hs Hb HE Hsets Hlines] Hbs Hh Hm He.
  pose proof (decompose_defined (glob_s st) (glob_b st) addr ltac:(lia) Hb Hbs) as Hdec.
  pose proof (land_mask_range (Z.shiftr addr (glob_b st)) (glob_s st) ltac:(lia)) as Hsi.
  set (si := Z.land _ _) in *. set (t := Z.shiftr addr (_ + _)) in *.
  destruct (lookup_lt_is_Some_2 (cache_sets (cache st)) (Z.to_nat si)) as [set Hset];
    [rewrite Hsets; lia|].
  pose proof (Hlines _ _ Hset) as Hlen.
  destruct (scan_first_defined (is_hit t) (lines set) 0 (Z.to_nat (cache_E (cache st))))
    as [[i|] Hhit]; [lia| |].
  - pose proof (scan_first_Some _ _ _ _ _ Hhit) as (_ & (l & Hl & _) & _).
    eexists _, _. apply access_data_step. eapply step_hit; eauto.
  - destruct (scan_first_defined is_free (lines set) 0 (Z.to_nat (cache_E (cache st))))
      as [[i|] Hfree]; [lia| |].
    + eexists _, _. apply access_data_step. eapply step_fill; eauto.
    + destruct (lru_scan_defined (lines set) 0 (Z.to_nat (cache_E (cache st)))
                  ULLONG_MAX 0) as [k Hk]; [lia|].
      assert (k < length (lines set))%nat as Hlt.
      { rewrite Hlen. apply lru_scan_spec in Hk as [[-> _]|[Hk _]]; lia. }
      destruct (lookup_lt_is_Some_2 _ _ Hlt) as [l Hl].
      eexists _, _. apply access_data_step. eapply step_evict; eauto.
Qed.

(** ** Sequences of calls *)

Lemma access_seq_app st addrs1 addrs2 :
  access_seq st (addrs1 ++ addrs2) =
  access_seq st addrs1 ≫= λ st', access_seq st' addrs2.
Proof.
  revert st. induction addrs1 as [|a addrs1 IH]; intros st; simpl; [reflexivity|].
  destruct (access_data st a) as [[st' r]| |]; simpl; auto.
Qed.

Lemma access_data_counts st addr st' r :
  access_data st addr = Ok (st', r) →
  access_log st' = access_log st ++ [(addr, r)] ∧
  ((hit_count st' = hit_count st + 1 ∧ miss_count st' = miss_count st)
   ∨ (hit_count st' = hit_count st ∧ miss_count st' = miss_count st + 1)).
Proof.
  intros H%access_data_step. destruct H; simpl; auto.
Qed.

Lemma access_seq_counts st addrs st' :
  access_seq st addrs = Ok st' →
  map fst (access_log st') = map fst (access_log st) ++ addrs ∧
  hit_count st' + miss_count st' =
    hit_count st + miss_count st + Z.of_nat (length addrs).
Proof.
  revert st. induction addrs as [|a addrs IH]; intros st H; simpl in H.
  - injection H as <-. rewrite app_nil_r. simpl. split; [reflexivity|lia].
  - apply bind_Ok in H as ([st1 r] & H1 & H).
    apply IH in H as [Hlog Hsum].
    apply access_data_counts in H1 as [Hlog1 Hcnt].
    rewrite Hlog, Hlog1, map_app, <- app_assoc. simpl. split; [reflexivity|lia].
Qed.

Lemma access_seq_defined st addrs :
  well_formed st → counters_ok st →
  glob_b st + glob_s st < 64 →
  use_counter st + Z.of_nat (length addrs) ≤ INT_MAX →
  ∃ st', access_seq st addrs = Ok st'.
Proof.
  revert st. induction addrs as [|a addrs IH]; intros st Hwf Hcnt Hbs Hroom;
    simpl; [eauto|].
  simpl in Hroom.
  destruct (access_data_defined st a Hwf Hbs) as (st1 & r & H1);
    [destruct Hcnt; lia..|].
  rewrite H1. simpl.
  pose proof H1 as Hstep%access_data_step.
  apply IH.
  - eapply access_step_well_formed; eauto.
  - eapply access_step_counters_ok; eauto.
  - apply access_step_frame in Hstep
      as (_ & _ & _ & _ & _ & _ & _ & _ & _ & _ & (-> & _ & ->) & _). exact Hbs.
  - apply access_step_frame in Hstep
      as (_ & _ & _ & _ & _ & _ & _ & _ & _ & _ & _ & -> & _).
    rewrite counters_no_wrap by exact Hcnt. lia.
Qed.

Section ReplayProofs.

Variable sscanf_line : string → Z * (ascii * Z * Z).

(** The replayer makes the calls that [line_accesses] lists, in order. *)
Lemma replay_line_accesses st buf :
  replay_line sscanf_line st buf = access_seq st (line_accesses sscanf_line buf).
Proof.
  unfold replay_line, line_accesses.
  destruct (sscanf_line buf) as [n [[op addr] size]].
  destruct (n =? 3); simpl; [|reflexivity].
  destruct (Ascii.eqb op "I") eqn:HI.
  { apply Ascii.eqb_eq in HI as ->. reflexivity. }
  destruct (Ascii.eqb op "M"); simpl.
  { destruct (access_data st _) as [[st1 r1]| |]; simpl; [|reflexivity..].
    destruct (access_data st1 _) as [[st2 r2]| |]; reflexivity. }
  destruct (Ascii.eqb op "L" || Ascii.eqb op "S"); simpl; [|reflexivity].
  destruct (access_data st _) as [[st1 r1]| |]; reflexivity.
Qed.

Lemma replay_lines_accesses st bufs :
  replay_lines sscanf_line st bufs = access_seq st (trace_accesses sscanf_line bufs).
Proof.
  revert st. induction bufs as [|buf bufs IH]; intros st; [reflexivity|].
  unfold trace_accesses. simpl. rewrite access_seq_app, replay_line_accesses.
  destruct (access_seq st _); simpl; auto.
Qed.

Lemma replay_line_ignored st buf :
  ignored_line sscanf_line buf → replay_line sscanf_line st buf = Ok st.
Proof.
  unfold ignored_line, replay_line.
  destruct (sscanf_line buf) as [n [[op addr] size]]. intros [Hn| ->].
  - destruct (Z.eqb_spec n 3); [contradiction|]. reflexivity.
  - destruct (n =? 3); reflexivity.
Qed.

End ReplayProofs.

(** ** A miss is followed by a hit *)

Lemma access_data_on_hit st addr si t set i :
  decompose (glob_s st) (glob_b st) addr = Ok (si, t) →
  cache_sets (cache st) !! Z.to_nat si = Some set →
  scan_first (is_hit t) (lines set) 0 (Z.to_nat (cache_E (cache st))) = Ok (Some i) →
  (hit_count st < INT_MAX → ∃ st', access_data st addr = Ok (st', 0)) ∧
  (∀ st' r, access_data st addr = Ok (st', r) → r = 0).
Proof.
  intros Hdec Hset Hhit. split.
  - intros Hh. pose proof (scan_first_Some _ _ _ _ _ Hhit) as (_ & (l & Hl & _) & _).
    eexists. apply access_data_step. eapply step_hit; eauto.
  - intros st' r H%access_data_step.
    destruct H as [| si' t' set' i' Hdec' Hset' Hhit' _ _
                   | si' t' set' k' l' Hdec' Hset' Hhit' _ _ _ _ _];
      [reflexivity|..];
      rewrite Hdec in Hdec'; injection Hdec' as <- <-;
      rewrite Hset in Hset'; injection Hset' as <-; congruence.
Qed.

(** After a miss the line just written is the first one that matches the
    tag. *)
Lemma miss_leaves_hit st addr st1 r1 :
  1 ≤ cache_E (cache st) →
  access_step st addr st1 r1 → r1 ≠ 0 →
  ∃ si t set1 i,
    decompose (glob_s st1) (glob_b st1) addr = Ok (si, t) ∧
    cache_sets (cache st1) !! Z.to_nat si = Some set1 ∧
    scan_first (is_hit t) (lines set1) 0 (Z.to_nat (cache_E (cache st1))) = Ok (Some i).
Proof.
  intros HE Hstep Hr.
  assert (Hwritten : ∀ (ls : list line_t) t n i l l',
            scan_first (is_hit t) ls 0 n = Ok None →
            (i < n)%nat → ls !! i = Some l → valid l' = true → tag l' = t →
            scan_first (is_hit t) (<[i := l']> ls) 0 n = Ok (Some i)).
  { intros ls t n i l l' Hnone Hi Hl Hv Ht.
    apply (scan_first_found _ _ _ _ _ l'); [lia| | |].
    - apply list_lookup_insert_eq. eapply lookup_lt_Some; eauto.
    - unfold is_hit. rewrite Hv, Ht, Z.eqb_refl. reflexivity.
    - intros j Hj. rewrite list_lookup_insert_ne by lia.
      apply (scan_first_None _ _ _ _ Hnone). lia. }
  destruct Hstep as [si t set i l Hdec Hset Hhit Hl Hh
                    |si t set i Hdec Hset Hhit Hfree Hm
                    |si t set k l Hdec Hset Hhit Hfree Hk Hl Hm He];
    [congruence|..]; simpl; exists si, t; eexists; eexists;
    (split; [exact Hdec|]);
    (split; [apply list_lookup_insert_eq; eapply lookup_lt_Some; eauto|]); simpl.
  - apply scan_first_Some in Hfree as (Hi & (l & Hl & _) & _).
    eapply Hwritten; eauto. lia.
  - eapply Hwritten; eauto.
    + apply lru_scan_spec in Hk as [[-> _]|[Hk _]]; lia.
    + simpl.
      assert (k < Z.to_nat (cache_E (cache st)))%nat as Hlt
        by (apply lru_scan_spec in Hk as [[-> _]|[Hk _]]; lia).
      destruct (scan_first_None _ _ _ _ Hfree k) as (l0 & Hl0 & HP); [lia|].
      assert (l0 = l) as -> by congruence.
      unfold is_free in HP. apply negb_false_iff in HP. exact HP.
Qed.

(** * The specification *)

(** C1 (counter conservation).  Replaying a trace from a freshly
    constructed cache calls [access_data] on exactly the addresses that
    [trace_accesses] lists (twice for a Modify, once for a Load or a Store,
    never for an Instruction or a malformed line), and afterwards
    [hit_count + miss_count] is the number of those calls.  The replay has a
    result whenever the shifts of the decomposition are defined and the number
    of calls fits an [int].  Every single call of [access_data] logs one call
    and increments exactly one of [hit_count] and [miss_count], by one. *)
Theorem counter_conservation
    (sscanf_line : string → Z * (ascii * Z * Z)) (malloc_ok : nat → Z → bool)
    (st0 : state) (bufs : list string) :
  fresh malloc_ok st0 →
  (∀ st, replay_trace sscanf_line st0 (Some bufs) = Ok st →
     map fst (access_log st) = trace_accesses sscanf_line bufs ∧
     hit_count st + miss_count st =
       Z.of_nat (length (trace_accesses sscanf_line bufs))) ∧
  (glob_b st0 + glob_s st0 < 64 →
   Z.of_nat (length (trace_accesses sscanf_line bufs)) ≤ INT_MAX →
   ∃ st, replay_trace sscanf_line st0 (Some bufs) = Ok st) ∧
  (∀ st addr st' r, access_data st addr = Ok (st', r) →
     access_log st' = access_log st ++ [(addr, r)] ∧
     ((hit_count st' = hit_count st + 1 ∧ miss_count st' = miss_count st)
      ∨ (hit_count st' = hit_count st ∧ miss_count st' = miss_count st + 1))).
Proof.
  intros Hfresh.
  apply fresh_is_fresh_state in Hfresh as (s & E & b & Hs & HE & Hb & ->).
  split; [|split].
  - intros st H. simpl in H. rewrite replay_lines_accesses in H.
    apply access_seq_counts in H as [Hlog Hsum]. simpl in *. split; [exact Hlog|lia].
  - intros Hbs Hn. simpl. rewrite replay_lines_accesses.
    apply access_seq_defined; auto using fresh_well_formed, fresh_counters_ok.
  - apply access_data_counts.
Qed.

(** C3 (Modify hit-after-miss).  For a line scanned as a Modify, the
    replayer makes two calls of [access_data] with the same address, the second
    on the state the first one leaves.  With [E >= 1] and from any state, when
    the first call returns a miss (1 or 2) the second returns a hit: it cannot
    return anything else, and it does return 0 unless [hit_count] is at
    [INT_MAX]; the replayer's result is then the state after that hit. *)
Theorem modify_hit_after_miss
    (sscanf_line : string → Z * (ascii * Z * Z))
    (st : state) (buf : string) (addr size : Z) :
  sscanf_line buf = (3, ("M"%char, addr, size)) →
  1 ≤ cache_E (cache st) →
  replay_line sscanf_line st buf =
    ('(st1, _) ← access_data st (to_uint64 addr);
     '(st2, _) ← access_data st1 (to_uint64 addr);
     Ok st2) ∧
  ∀ st1 r1,
    access_data st (to_uint64 addr) = Ok (st1, r1) → r1 ≠ 0 →
    (∀ st2 r2, access_data st1 (to_uint64 addr) = Ok (st2, r2) → r2 = 0) ∧
    (hit_count st1 < INT_MAX →
     ∃ st2, access_data st1 (to_uint64 addr) = Ok (st2, 0) ∧
            replay_line sscanf_line st buf = Ok st2 ∧
            access_log st2 =
              access_log st ++ [(to_uint64 addr, r1); (to_uint64 addr, 0)]).
Proof.
  intros Hscan HE.
  assert (Hline : replay_line sscanf_line st buf =
            ('(st1, _) ← access_data st (to_uint64 addr);
             '(st2, _) ← access_data st1 (to_uint64 addr);
             Ok st2)).
  { unfold replay_line. rewrite Hscan. reflexivity. }
  split; [exact Hline|].
  intros st1 r1 H1 Hr1.
  pose proof H1 as Hstep%access_data_step.
  destruct (miss_leaves_hit _ _ _ _ HE Hstep Hr1) as (si & t & set1 & i & Hdec & Hset & Hhit).
  destruct (access_data_on_hit _ _ _ _ _ _ Hdec Hset Hhit) as [Hdef Honly].
  split; [exact Honly|].
  intros Hh. destruct (Hdef Hh) as [st2 H2]. exists st2.
  split; [exact H2|]. split.
  - rewrite Hline, H1. simpl. rewrite H2. reflexivity.
  - apply access_data_counts in H1 as [Hlog1 _].
    apply access_data_counts in H2 as [Hlog2 _].
    rewrite Hlog2, Hlog1, <- app_assoc. reflexivity.
Qed.

(** C7 (permissive trace handling).  For a line that does not scan as the
    three fields of the pattern, and for a line whose operation is [I], the
    replayer calls [access_data] not at all and returns the state it was
    given: the three counters, [use_counter], every cache line and the log of
    calls are unchanged; the replay goes on with the next line. *)
Theorem ignored_lines_change_nothing
    (sscanf_line : string → Z * (ascii * Z * Z))
    (st : state) (buf : string) (rest : list string) :
  ignored_line sscanf_line buf →
  replay_line sscanf_line st buf = Ok st ∧
  line_accesses sscanf_line buf = [] ∧
  replay_lines sscanf_line st (buf :: rest) = replay_lines sscanf_line st rest.
Proof.
  intros Hign. pose proof (replay_line_ignored sscanf_line st buf Hign) as Hline.
  split; [exact Hline|]. split.
  - unfold ignored_line, line_accesses in *.
    destruct (sscanf_line buf) as [n [[op addr] size]]. destruct Hign as [Hn| ->].
    + destruct (Z.eqb_spec n 3); [contradiction|]. reflexivity.
    + destruct (n =? 3); reflexivity.
  - simpl. rewrite Hline. reflexivity.
Qed.

(** C2 (LRU eviction, lowest index on ties).  Take a call of [access_data]
    whose address selects a set whose [E >= 1] lines are all valid, with 64-bit
    time stamps, and none of which carries the tag of the address.  Whenever
    the call returns, it returns 2 and has overwritten, with the tag and the
    new time stamp, the line whose [last_used] is least among the [E] lines of
    the set, the one of lowest index if several share that value; and the call
    does return unless [miss_count] or [eviction_count] is at [INT_MAX]. *)
Theorem lru_eviction_lowest_index (st : state) (addr si t : Z) (set : set_t) :
  decompose (glob_s st) (glob_b st) addr = Ok (si, t) →
  cache_sets (cache st) !! Z.to_nat si = Some set →
  1 ≤ cache_E (cache st) →
  (∀ j, (j < Z.to_nat (cache_E (cache st)))%nat →
     ∃ l, lines set !! j = Some l ∧ valid l = true ∧ tag l ≠ t ∧
          last_used l ≤ ULLONG_MAX) →
  (∀ st' r, access_data st addr = Ok (st', r) →
     r = 2 ∧
     ∃ k, lru_victim (lines set) (Z.to_nat (cache_E (cache st))) k ∧
          cache_sets (cache st') =
            <[Z.to_nat si :=
                {| lines := <[k := {| valid := true; tag := t;
                                      last_used := incr_ull (use_counter st) |}]>
                              (lines set) |}]> (cache_sets (cache st))) ∧
  (miss_count st < INT_MAX → eviction_count st < INT_MAX →
   ∃ st', access_data st addr = Ok (st', 2)).
Proof.
  intros Hdec Hset HE Hall.
  set (n := Z.to_nat (cache_E (cache st))) in *.
  assert (Hhit : scan_first (is_hit t) (lines set) 0 n = Ok None).
  { apply scan_first_absent. intros j Hj.
    destruct (Hall j) as (l & Hl & Hv & Ht & _); [lia|].
    exists l. split; [exact Hl|]. unfold is_hit. rewrite Hv. simpl.
    apply Z.eqb_neq. exact Ht. }
  assert (Hfree : scan_first is_free (lines set) 0 n = Ok None).
  { apply scan_first_absent. intros j Hj.
    destruct (Hall j) as (l & Hl & Hv & _); [lia|].
    exists l. split; [exact Hl|]. unfold is_free. rewrite Hv. reflexivity. }
  assert (Hlen : (n ≤ length (lines set))%nat).
  { destruct (Hall (n - 1)%nat) as (l & Hl & _); [lia|].
    apply lookup_lt_Some in Hl. lia. }
  assert (Hmax : ∀ j l, (j < n)%nat → lines set !! j = Some l →
            last_used l ≤ ULLONG_MAX).
  { intros j l Hj Hl. destruct (Hall j Hj) as (l' & Hl' & _ & _ & Hle). congruence. }
  assert (Hn : (1 ≤ n)%nat) by lia.
  subst n. split.
  - intros st' r H%access_data_step.
    destruct H as [si' t' set' i' l' Hdec' Hset' Hhit' _ _
                  |si' t' set' i' Hdec' Hset' _ Hfree' _
                  |si' t' set' k l Hdec' Hset' _ _ Hk Hl _ _];
      rewrite Hdec in Hdec'; injection Hdec' as <- <-;
      rewrite Hset in Hset'; injection Hset' as <-; try congruence.
    split; [reflexivity|]. exists k.
    pose proof (lru_scan_victim _ _ _ Hn Hmax Hk) as Hvictim.
    split; [exact Hvictim|]. simpl.
    destruct Hvictim as [Hlt _]. destruct (Hall k Hlt) as (l' & Hl' & Hv & _).
    assert (l' = l) as -> by congruence. rewrite Hv. reflexivity.
  - intros Hm He.
    destruct (lru_scan_defined (lines set) 0 (Z.to_nat (cache_E (cache st)))
                ULLONG_MAX 0) as [k Hk]; [lia|].
    pose proof (lru_scan_victim _ _ _ Hn Hmax Hk) as (Hlt & lk & Hlk & _).
    eexists. apply access_data_step. eapply step_evict; eauto.
Qed.

(** C4 (eviction is a subcase of miss).  In every state reached from a
    freshly constructed cache, [eviction_count <= miss_count].  From any state,
    a call of [access_data] that returns 2 has incremented both
    [eviction_count] and [miss_count], and every one of the [E] lines of the
    set of the address was valid before the call; a call that returns 0 or 1
    leaves [eviction_count] as it was. *)
Theorem eviction_within_miss (malloc_ok : nat → Z → bool) :
  (∀ st, reachable malloc_ok st → eviction_count st ≤ miss_count st) ∧
  (∀ st addr st',
     access_data st addr = Ok (st', 2) →
     eviction_count st' = eviction_count st + 1 ∧
     miss_count st' = miss_count st + 1 ∧
     ∃ si t set,
       decompose (glob_s st) (glob_b st) addr = Ok (si, t) ∧
       cache_sets (cache st) !! Z.to_nat si = Some set ∧
       ∀ j, (j < Z.to_nat (cache_E (cache st)))%nat →
         ∃ l, lines set !! j = Some l ∧ valid l = true) ∧
  (∀ st addr st' r,
     access_data st addr = Ok (st', r) → r ≠ 2 →
     eviction_count st' = eviction_count st).
Proof.
  split; [|split].
  - intros st Hreach. apply reachable_invariant in Hreach as (_ & [_ _ He _ _] & _).
    lia.
  - intros st addr st' H%access_data_step.
    inversion H as [| |si t set k l Hdec Hset Hhit Hfree Hk Hl Hm He Hst'].
    simpl. split; [reflexivity|]. split; [reflexivity|].
    exists si, t, set. split; [exact Hdec|]. split; [exact Hset|].
    intros j Hj. destruct (scan_first_None _ _ _ _ Hfree j) as (lj & Hlj & HP); [lia|].
    exists lj. split; [exact Hlj|].
    unfold is_free in HP. apply negb_false_iff in HP. exact HP.
  - intros st addr st' r H%access_data_step Hr.
    destruct H; simpl; congruence.
Qed.

(** C5, as amended.  For parameters [s >= 0] and [b >= 0] with [b + s < 64]
    and every address, the decomposition is defined: the set index is
    [(addr >> b) & ((1 << s) - 1)], which is 0 when [s = 0] and always below
    [2^s], and the tag is [addr >> (b + s)].  [access_data] uses these two
    values and the decomposition reads nothing of the cache: two states with
    the same [s] and [b] decompose an address alike. *)
Theorem address_decomposition (s b addr : Z) :
  0 ≤ s → 0 ≤ b → b + s < 64 →
  decompose s b addr =
    Ok (Z.land (Z.shiftr addr b) (2^s - 1), Z.shiftr addr (b + s)) ∧
  (s = 0 → Z.land (Z.shiftr addr b) (2^s - 1) = 0) ∧
  0 ≤ Z.land (Z.shiftr addr b) (2^s - 1) < 2^s ∧
  ∀ st, glob_s st = s → glob_b st = b →
    access_data st addr =
      access_set st addr (Z.land (Z.shiftr addr b) (2^s - 1)) (Z.shiftr addr (b + s)).
Proof.
  intros Hs Hb Hbs. pose proof (decompose_defined s b addr Hs Hb Hbs) as Hdec.
  split; [exact Hdec|]. split; [|split].
  - intros ->. simpl. apply Z.land_0_r.
  - apply land_mask_range. exact Hs.
  - intros st <- <-. unfold access_data. rewrite Hdec. reflexivity.
Qed.

(** C5 as stated fails on part of the parameters it quantifies over.
    With [s = 64] the program never decomposes an address: [init_cache]
    exits, and the expression [1ULL << s] of [access_data] would be undefined.
    With [s = 4] and [b = 60], which pass every check of [main] and
    [init_cache], the tag is a 64-bit value shifted by 64, which C leaves
    undefined: the call computes no set index and no tag. *)
Lemma address_decomposition_undefined :
  ¬ (∀ s b addr, 0 ≤ s → 0 ≤ b → 0 ≤ addr < 2^64 →
       decompose s b addr =
         Ok (Z.land (Z.shiftr addr b) (2^s - 1), Z.shiftr addr (b + s))) ∧
  (decompose 4 60 (2^63) = UB ∧
   ∃ st, main_init malloc_always 4 1 60 true = Ok st ∧
         access_data st (2^63) = UB) ∧
  (decompose 64 0 1 = UB ∧ main_init malloc_always 64 1 0 true = Exit).
Proof.
  split; [|split; [split|split]].
  - intros H. specialize (H 4 60 (2^63) ltac:(lia) ltac:(lia) ltac:(lia)).
    discriminate H.
  - reflexivity.
  - eexists. split; reflexivity.
  - reflexivity.
  - reflexivity.
Qed.

(** Construction, where the code does what C6 says.  The construction of
    the cache, that is the
    argument check of [main] followed by [init_cache], exits with a failure
    whenever [s >= 64], where [2^s] overflows [size_t], and whenever
    [E <= 0].  Whenever it produces a cache, [0 <= s < 64] and [E > 0] hold and
    the cache has [2^s] sets of [E] lines each, all of them invalid.  It does
    produce a cache when every allocation succeeds, for [s] up to 60 and [E] an
    [int]. *)
Theorem construction_semantics
    (malloc_ok : nat → Z → bool) (s E b : Z) (have_trace : bool) :
  (64 ≤ s ∨ E ≤ 0 → main_init malloc_ok s E b have_trace = Exit) ∧
  (∀ st, main_init malloc_ok s E b have_trace = Ok st →
     0 ≤ s < 64 ∧ 0 < E ∧
     st = fresh_state s E b ∧
     cache_S (cache st) = 2^s ∧ cache_E (cache st) = E ∧
     length (cache_sets (cache st)) = Z.to_nat (2^s) ∧
     (∀ si set, cache_sets (cache st) !! si = Some set →
        length (lines set) = Z.to_nat E) ∧
     all_invalid st) ∧
  ((∀ k x, malloc_ok k x = true) →
   0 ≤ s ≤ 60 → 0 < E ≤ INT_MAX → 0 ≤ b →
   main_init malloc_ok s E b true = Ok (fresh_state s E b)).
Proof.
  split; [|split].
  - apply main_init_Exit.
  - intros st H. apply main_init_Ok in H as (Hs & HE & Hb & _ & ->).
    pose proof (fresh_well_formed s E b Hs HE Hb) as [_ _ _ Hsets Hlines].
    repeat split; try lia; auto using fresh_all_invalid.
  - apply main_init_defined.
Qed.

(** C6 (construction), where the code departs from it: the arguments
    [-s 61 -E 1 -b 0].  An array of [2^61] sets of 8 bytes each does not fit
    the address space, so the construction should fail as it does for
    [s = 64].  But the arguments pass the check of [main] and the guard of
    [init_cache], which only looks at [1ULL << s]; the size
    [sizeof(set_t) * S] then wraps to 0, and where [malloc(0)] returns a
    block the first store [cache.sets[0].lines = ...] falls outside it.  The
    construction neither produces a cache nor exits, and [main] with it; it
    exits only where [malloc(0)] returns [NULL]. *)
Theorem construction_size_unchecked :
  (61 <? 0) || (1 <=? 0) || (0 <? 0) || negb true = false ∧
  (64 <=? glob_s (initial_globals 61 1 0)) = false ∧
  ull_shl 1 61 = Ok (2^61) ∧
  to_uint64 (sizeof_set_t * 2^61) = 0 ∧
  main_init malloc_always 61 1 0 true = UB ∧
  main sscanf_trace malloc_always 61 1 0 (Some (Some sample_trace)) = UB ∧
  main_init (λ _ n, 0 <? n) 61 1 0 true = Exit ∧
  main_init malloc_always 64 1 0 true = Exit.
Proof.
  assert (HUB : main_init malloc_always 61 1 0 true = UB)
    by (apply (main_init_size_wraps malloc_always 61 1 0); lia).
  split; [reflexivity|]. split; [reflexivity|]. split; [reflexivity|].
  split; [reflexivity|]. split; [exact HUB|].
  split; [unfold main; simpl bool_decide; rewrite HUB; reflexivity|].
  split.
  - apply (main_init_size_wraps (λ _ n, 0 <? n) 61 1 0); lia.
  - apply main_init_Exit. left. lia.
Qed.

(** C8 (validity is monotone).  Right after construction every line of
    every set is invalid.  From any state, a call of [access_data] leaves
    every line that was valid before it valid.  A call that returns 2, from a
    state reached from a fresh cache, overwrites a line that was valid and
    stays valid: only its tag and its time stamp are replaced. *)
Theorem valid_is_monotone (malloc_ok : nat → Z → bool) :
  (∀ st0, fresh malloc_ok st0 → all_invalid st0) ∧
  (∀ st addr st' r,
     access_data st addr = Ok (st', r) →
     ∀ si j l, line_at st si j = Some l → valid l = true →
       ∃ l', line_at st' si j = Some l' ∧ valid l' = true) ∧
  (∀ st addr st',
     reachable malloc_ok st →
     access_data st addr = Ok (st', 2) →
     ∃ si k l l',
       line_at st si k = Some l ∧ line_at st' si k = Some l' ∧
       valid l = true ∧ valid l' = true ∧
       last_used l' = incr_ull (use_counter st) ∧
       ∀ si' j, si' ≠ si ∨ j ≠ k → line_at st' si' j = line_at st si' j).
Proof.
  split; [|split].
  - intros st0 Hfresh.
    apply fresh_is_fresh_state in Hfresh as (s & E & b & _ & _ & _ & ->).
    apply fresh_all_invalid.
  - intros st addr st' r H%access_data_step si j l Hl Hv.
    apply access_step_frame in H
      as (si0 & t & set & k & l0 & l' & _ & Hset & Hl0 & Hc & _ & _ & _ & _ & Hcases).
    assert (Hsets : cache_sets (cache st') =
              <[Z.to_nat si0 := {| lines := <[k := l']> (lines set) |}]>
                (cache_sets (cache st))) by (rewrite Hc; reflexivity).
    destruct (line_at_insert _ _ _ _ _ _ Hset Hsets) as [Hsame Hother].
    destruct (decide (si = Z.to_nat si0 ∧ j = k)) as [[-> ->]|Hne].
    + exists l'. split.
      * rewrite Hsame. apply list_lookup_insert_eq. eapply lookup_lt_Some; eauto.
      * unfold line_at in Hl. rewrite Hset in Hl. simpl in Hl.
        assert (l0 = l) as -> by congruence.
        destruct Hcases as [(_ & _ & _ & Hv' & _)|[(_ & _ & Hv' & _)|(_ & Hv' & _)]];
          congruence.
    + exists l. split; [|exact Hv]. rewrite Hother; [exact Hl|].
      destruct (decide (si = Z.to_nat si0)); [right|left]; intuition congruence.
  - intros st addr st' Hreach H%access_data_step.
    apply reachable_invariant in Hreach as ([_ _ HE _ _] & _ & _).
    apply access_step_frame in H
      as (si0 & t & set & k & l & l' & _ & Hset & Hl & Hc & _ & _ & _ & Hlu & Hcases).
    assert (Hsets : cache_sets (cache st') =
              <[Z.to_nat si0 := {| lines := <[k := l']> (lines set) |}]>
                (cache_sets (cache st))) by (rewrite Hc; reflexivity).
    destruct (line_at_insert _ _ _ _ _ _ Hset Hsets) as [Hsame Hother].
    destruct Hcases as [(? & _)|[(? & _)|(_ & Hv' & _ & Hwf & _)]]; [lia..|].
    destruct (Hwf HE) as [Hv _].
    exists (Z.to_nat si0), k, l, l'. repeat split; auto.
    + unfold line_at. rewrite Hset. exact Hl.
    + rewrite Hsame. apply list_lookup_insert_eq. eapply lookup_lt_Some; eauto.
    + congruence.
Qed.

(** C9 (frame).  A call of [access_data] that returns writes one line [k] of
    the set [si] that the address selects: on a hit its [last_used], on a miss
    its [valid], [tag] and [last_used] (with [valid] already set when the line
    is evicted).  Every line of every other set and every other line of that
    set is unchanged; the parameters [s], [E], [b] and the fields [S] and [E]
    of the cache are unchanged; the number of sets and the number of lines of
    each set are unchanged, the arrays being updated in place; the counters
    and the log change as the returned value tells. *)
Theorem access_frame (st : state) (addr : Z) (st' : state) (r : Z) :
  access_data st addr = Ok (st', r) →
  ∃ si t set k l l',
    decompose (glob_s st) (glob_b st) addr = Ok (si, t) ∧
    cache_sets (cache st) !! Z.to_nat si = Some set ∧
    lines set !! k = Some l ∧
    cache st' =
      {| cache_sets := <[Z.to_nat si := {| lines := <[k := l']> (lines set) |}]>
                         (cache_sets (cache st));
         cache_S := cache_S (cache st);
         cache_E := cache_E (cache st) |} ∧
    (r = 0 ∧ l' = {| valid := valid l; tag := tag l;
                      last_used := incr_ull (use_counter st) |}
     ∨ r = 1 ∧ l' = {| valid := true; tag := t;
                        last_used := incr_ull (use_counter st) |}
     ∨ r = 2 ∧ l' = {| valid := valid l; tag := t;
                        last_used := incr_ull (use_counter st) |}) ∧
    (∀ si' j, si' ≠ Z.to_nat si ∨ j ≠ k → line_at st' si' j = line_at st si' j) ∧
    length (cache_sets (cache st')) = length (cache_sets (cache st)) ∧
    (∀ si' set1 set2,
       cache_sets (cache st) !! si' = Some set1 →
       cache_sets (cache st') !! si' = Some set2 →
       length (lines set2) = length (lines set1)) ∧
    (glob_s st' = glob_s st ∧ glob_E st' = glob_E st ∧ glob_b st' = glob_b st) ∧
    use_counter st' = incr_ull (use_counter st) ∧
    access_log st' = access_log st ++ [(addr, r)] ∧
    hit_count st' = hit_count st + (if r =? 0 then 1 else 0) ∧
    miss_count st' = miss_count st + (if r =? 0 then 0 else 1) ∧
    eviction_count st' = eviction_count st + (if r =? 2 then 1 else 0).
Proof.
  intros H%access_data_step.
  assert (Hgen : ∀ si set k l' h m e uc,
            cache_sets (cache st) !! si = Some set →
            let st1 := commit st si set k l' h m e uc addr r in
            (∀ si' j, si' ≠ si ∨ j ≠ k → line_at st1 si' j = line_at st si' j) ∧
            length (cache_sets (cache st1)) = length (cache_sets (cache st)) ∧
            (∀ si' set1 set2,
               cache_sets (cache st) !! si' = Some set1 →
               cache_sets (cache st1) !! si' = Some set2 →
               length (lines set2) = length (lines set1))).
  { intros si set k l' h m e uc Hset st1.
    assert (Hsets : cache_sets (cache st1) =
              <[si := {| lines := <[k := l']> (lines set) |}]>
                (cache_sets (cache st))) by reflexivity.
    destruct (line_at_insert _ _ _ _ _ _ Hset Hsets) as [_ Hother].
    split; [exact Hother|]. split.
    - rewrite Hsets. apply length_insert.
    - intros si' set1 set2 H1 H2. rewrite Hsets in H2.
      destruct (decide (si' = si)) as [->|Hne].
      + rewrite list_lookup_insert_eq in H2 by (eapply lookup_lt_Some; eauto).
        injection H2 as <-. simpl. rewrite length_insert. congruence.
      + rewrite list_lookup_insert_ne in H2 by congruence. congruence. }
  destruct H as [si t set i l Hdec Hset Hhit Hl Hh
                |si t set i Hdec Hset Hhit Hfree Hm
                |si t set k l Hdec Hset Hhit Hfree Hk Hl Hm He].
  - destruct (Hgen _ _ i {| valid := valid l; tag := tag l;
                             last_used := incr_ull (use_counter st) |}
                (hit_count st + 1) (miss_count st) (eviction_count st)
                (incr_ull (use_counter st)) Hset) as (Hother & Hlen & Hlens).
    exists si, t, set, i, l. eexists.
    split; [exact Hdec|]. split; [exact Hset|]. split; [exact Hl|].
    split; [reflexivity|]. split; [left; split; reflexivity|].
    split; [exact Hother|]. split; [exact Hlen|]. split; [exact Hlens|].
    simpl. repeat split; lia.
  - pose proof (scan_first_Some _ _ _ _ _ Hfree) as (_ & (l & Hl & _) & _).
    destruct (Hgen _ _ i {| valid := true; tag := t;
                             last_used := incr_ull (use_counter st) |}
                (hit_count st) (miss_count st + 1) (eviction_count st)
                (incr_ull (use_counter st)) Hset) as (Hother & Hlen & Hlens).
    exists si, t, set, i, l. eexists.
    split; [exact Hdec|]. split; [exact Hset|]. split; [exact Hl|].
    split; [reflexivity|]. split; [right; left; split; reflexivity|].
    split; [exact Hother|]. split; [exact Hlen|]. split; [exact Hlens|].
    simpl. repeat split; lia.
  - destruct (Hgen _ _ k {| valid := valid l; tag := t;
                             last_used := incr_ull (use_counter st) |}
                (hit_count st) (miss_count st + 1) (eviction_count st + 1)
                (incr_ull (use_counter st)) Hset) as (Hother & Hlen & Hlens).
    exists si, t, set, k, l. eexists.
    split; [exact Hdec|]. split; [exact Hset|]. split; [exact Hl|].
    split; [reflexivity|]. split; [right; right; split; reflexivity|].
    split; [exact Hother|]. split; [exact Hlen|]. split; [exact Hlens|].
    simpl. repeat split; lia.
Qed.

(** C10 (time stamps).  In every state reached from a freshly constructed
    cache: a call of [access_data] that returns increases [use_counter] by
    exactly one, without wrapping; the [last_used] of every valid line is at
    least 1 and at most [use_counter]; within a set the valid lines have
    pairwise distinct [last_used].  Hence a call that evicts overwrites the one
    line whose [last_used] is strictly below that of every other line of the
    set: no two lines tie for the minimum. *)
Theorem time_stamps_distinct (malloc_ok : nat → Z → bool) (st : state) :
  reachable malloc_ok st →
  (∀ addr st' r, access_data st addr = Ok (st', r) →
     use_counter st' = use_counter st + 1) ∧
  (∀ si j l, line_at st si j = Some l → valid l = true →
     1 ≤ last_used l ≤ use_counter st) ∧
  (∀ si j1 j2 l1 l2,
     line_at st si j1 = Some l1 → line_at st si j2 = Some l2 →
     valid l1 = true → valid l2 = true → j1 ≠ j2 →
     last_used l1 ≠ last_used l2) ∧
  (∀ addr st', access_data st addr = Ok (st', 2) →
     ∃ si t set k lk,
       decompose (glob_s st) (glob_b st) addr = Ok (si, t) ∧
       cache_sets (cache st) !! Z.to_nat si = Some set ∧
       lines set !! k = Some lk ∧
       cache_sets (cache st') =
         <[Z.to_nat si :=
             {| lines := <[k := {| valid := true; tag := t;
                                   last_used := use_counter st + 1 |}]>
                           (lines set) |}]> (cache_sets (cache st)) ∧
       ∀ j l, j ≠ k → lines set !! j = Some l → last_used lk < last_used l).
Proof.
  intros Hreach.
  apply reachable_invariant in Hreach as (Hwf & Hcnt & [Hrange Hdist]).
  pose proof (counters_no_wrap _ Hcnt) as Hwrap.
  split; [|split; [exact Hrange|split; [exact Hdist|]]].
  - intros addr st' r H%access_data_step.
    destruct H; simpl; exact Hwrap.
  - intros addr st' H%access_data_step.
    inversion H as [| |si t set k l Hdec Hset Hhit Hfree Hk Hl Hm He Hst'].
    destruct Hwf as [_ _ HE _ Hlines]. pose proof (Hlines _ _ Hset) as Hlen.
    assert (Hvalid : ∀ j x, lines set !! j = Some x →
              (j < Z.to_nat (cache_E (cache st)))%nat ∧ valid x = true).
    { intros j x Hx. pose proof (lookup_lt_Some _ _ _ Hx) as Hj.
      split; [lia|].
      destruct (scan_first_None _ _ _ _ Hfree j) as (x' & Hx' & HP); [lia|].
      assert (x' = x) as -> by congruence.
      unfold is_free in HP. apply negb_false_iff in HP. exact HP. }
    assert (Hat : ∀ j x, lines set !! j = Some x →
              line_at st (Z.to_nat si) j = Some x).
    { intros j x Hx. unfold line_at. rewrite Hset. exact Hx. }
    assert (Hmax : ∀ j x, (j < Z.to_nat (cache_E (cache st)))%nat →
              lines set !! j = Some x → last_used x ≤ ULLONG_MAX).
    { intros j x _ Hx. destruct (Hvalid _ _ Hx) as [_ Hv].
      pose proof (Hrange _ _ _ (Hat _ _ Hx) Hv).
      destruct Hcnt. unfold ULLONG_MAX, INT_MAX in *. lia. }
    assert (Hn : (1 ≤ Z.to_nat (cache_E (cache st)))%nat) by lia.
    pose proof (lru_scan_victim _ _ _ Hn Hmax Hk) as (Hlt & lk & Hlk & Hleast).
    assert (lk = l) as -> by congruence.
    exists si, t, set, k, l.
    split; [exact Hdec|]. split; [exact Hset|]. split; [exact Hl|]. split.
    + simpl. destruct (Hvalid _ _ Hl) as [_ ->]. rewrite Hwrap. reflexivity.
    + intros j x Hj Hx. destruct (Hvalid _ _ Hx) as [Hjn Hv].
      destruct (Hvalid _ _ Hl) as [_ Hvl].
      destruct (Hleast _ _ Hjn Hx) as [Hle _].
      pose proof (Hdist _ _ _ _ _ (Hat _ _ Hx) (Hat _ _ Hl) Hv Hvl Hj). lia.
Qed.

(** * The specification on sample inputs *)

Lemma counter_conservation_witness :
  fresh malloc_always (fresh_state 1 2 4) ∧
  ∃ st, replay_trace sscanf_trace (fresh_state 1 2 4) (Some sample_trace) = Ok st ∧
        map fst (access_log st) = [16; 32; 32; 24; 272; 528; 528] ∧
        hit_count st + miss_count st = 7.
Proof.
  assert (Hfresh : fresh malloc_always (fresh_state 1 2 4))
    by (exists 1, 2, 4; reflexivity).
  split; [exact Hfresh|].
  destruct (counter_conservation sscanf_trace malloc_always _ sample_trace Hfresh)
    as (Hcons & Hdef & _).
  destruct Hdef as [st Hst]; [simpl; lia|vm_compute; discriminate|].
  exists st. split; [exact Hst|]. exact (Hcons st Hst).
Defined.

Lemma lru_eviction_lowest_index_witness :
  (∀ st' r, access_data tied_set_state 1 = Ok (st', r) →
     r = 2 ∧
     ∃ k, lru_victim (lines tied_set) 2 k ∧
          cache_sets (cache st') =
            <[0%nat := {| lines := <[k := {| valid := true; tag := 1;
                                             last_used := 6 |}]>
                                     (lines tied_set) |}]> [tied_set]) ∧
  (∃ st', access_data tied_set_state 1 = Ok (st', 2)).
Proof.
  destruct (lru_eviction_lowest_index tied_set_state 1 0 1 tied_set) as [Honly Hdef].
  - reflexivity.
  - reflexivity.
  - simpl. lia.
  - intros j Hj. destruct j as [|[|j]]; simpl in *;
      [eexists; repeat split; [discriminate|vm_compute; discriminate]..|lia].
  - split; [exact Honly|]. apply Hdef; vm_compute; reflexivity.
Defined.

Lemma modify_hit_after_miss_witness :
  sscanf_trace "M 0,1" = (3, ("M"%char, 0, 1)) ∧
  1 ≤ cache_E (cache (fresh_state 0 1 0)) ∧
  ∀ st1 r1,
    access_data (fresh_state 0 1 0) (to_uint64 0) = Ok (st1, r1) → r1 ≠ 0 →
    ∀ st2 r2, access_data st1 (to_uint64 0) = Ok (st2, r2) → r2 = 0.
Proof.
  assert (Hscan : sscanf_trace "M 0,1" = (3, ("M"%char, 0, 1))) by reflexivity.
  assert (HE : 1 ≤ cache_E (cache (fresh_state 0 1 0))) by (simpl; lia).
  split; [exact Hscan|]. split; [exact HE|].
  intros st1 r1 H1 Hr1.
  exact (proj1 (proj2 (modify_hit_after_miss sscanf_trace _ _ _ _ Hscan HE)
                  st1 r1 H1 Hr1)).
Defined.

Lemma address_decomposition_witness :
  0 ≤ 1 ∧ 0 ≤ 4 ∧ 4 + 1 < 64 ∧ decompose 1 4 272 = Ok (1, 8).
Proof.
  assert (Hs : 0 ≤ 1) by lia. assert (Hb : 0 ≤ 4) by lia.
  assert (Hbs : 4 + 1 < 64) by lia.
  split; [exact Hs|]. split; [exact Hb|]. split; [exact Hbs|].
  exact (proj1 (address_decomposition 1 4 272 Hs Hb Hbs)).
Defined.

Lemma construction_semantics_witness :
  main_init malloc_always 64 1 0 true = Exit ∧
  main_init malloc_always 2 0 0 true = Exit ∧
  main_init malloc_always 2 3 4 true = Ok (fresh_state 2 3 4).
Proof.
  split; [|split].
  - apply (proj1 (construction_semantics malloc_always 64 1 0 true)). left. lia.
  - apply (proj1 (construction_semantics malloc_always 2 0 0 true)). right. lia.
  - apply (proj2 (proj2 (construction_semantics malloc_always 2 3 4 true)));
      [reflexivity|lia|unfold INT_MAX; lia|lia].
Defined.

Lemma ignored_lines_change_nothing_witness :
  ignored_line sscanf_trace "I 0400d7d4,8" ∧
  replay_line sscanf_trace full_set_state "I 0400d7d4,8" = Ok full_set_state ∧
  ignored_line sscanf_trace "L 10" ∧
  replay_line sscanf_trace full_set_state "L 10" = Ok full_set_state.
Proof.
  assert (H1 : ignored_line sscanf_trace "I 0400d7d4,8") by (right; reflexivity).
  assert (H2 : ignored_line sscanf_trace "L 10") by (left; discriminate).
  split; [exact H1|]. split; [|split; [exact H2|]].
  - exact (proj1 (ignored_lines_change_nothing sscanf_trace full_set_state _ [] H1)).
  - exact (proj1 (ignored_lines_change_nothing sscanf_trace full_set_state _ [] H2)).
Defined.

Lemma valid_is_monotone_witness :
  all_invalid (fresh_state 1 2 4) ∧
  ∀ st' r, access_data full_set_state 7 = Ok (st', r) →
    ∃ l', line_at st' 0 1 = Some l' ∧ valid l' = true.
Proof.
  split.
  - apply (proj1 (valid_is_monotone malloc_always)). exists 1, 2, 4. reflexivity.
  - intros st' r H.
    apply (proj1 (proj2 (valid_is_monotone malloc_always)) _ _ _ _ H 0%nat 1%nat
             {| valid := true; tag := 9; last_used := 3 |}); reflexivity.
Defined.

Lemma access_frame_witness :
  ∃ st', access_data full_set_state 1 = Ok (st', 2) ∧
         line_at st' 0 0 = line_at full_set_state 0 0 ∧
         length (cache_sets (cache st')) = 1%nat ∧
         use_counter st' = 6.
Proof.
  eexists. split; [reflexivity|].
  destruct (access_frame full_set_state 1 _ 2 eq_refl)
    as (si & t & set & k & l & l' & _ & _ & _ & _ & _ & _ & Hlen & _ & _ & Hu & _).
  split; [reflexivity|]. split; [exact Hlen|exact Hu].
Defined.

(** ** Runs of the simulator *)

(** The five scenarios of the specification: the triples passed to
    [printSummary]. *)
Example scenario_load_twice :
  main sscanf_trace malloc_always 0 1 0 (Some (Some ["L 0,1"; "L 0,1"]%string))
  = Ok (1, 1, 0).
Proof. reflexivity. Qed.

Example scenario_conflict :
  main sscanf_trace malloc_always 0 1 0 (Some (Some ["L 0,1"; "L 1,1"]%string))
  = Ok (0, 2, 1).
Proof. reflexivity. Qed.

Example scenario_modify :
  main sscanf_trace malloc_always 0 1 0 (Some (Some ["M 0,1"]%string))
  = Ok (1, 1, 0).
Proof. reflexivity. Qed.

Example scenario_instruction :
  main sscanf_trace malloc_always 0 1 0 (Some (Some ["I 0,1"]%string))
  = Ok (0, 0, 0).
Proof. reflexivity. Qed.

Example scenario_two_sets :
  main sscanf_trace malloc_always 1 1 0
    (Some (Some ["L 0,1"; "L 2,1"; "L 0,1"]%string))
  = Ok (0, 3, 2).
Proof. reflexivity. Qed.

Example scenario_sample_trace :
  main sscanf_trace malloc_always 1 2 4 (Some (Some sample_trace)) = Ok (3, 4, 1).
Proof. reflexivity. Qed.

(** Without [-t], or with a trace that cannot be opened, [main] exits. *)
Example main_without_trace :
  main sscanf_trace malloc_always 1 2 4 None = Exit ∧
  main sscanf_trace malloc_always 1 2 4 (Some None) = Exit.
Proof. split; reflexivity. Qed.

(** The eviction takes the older of two lines, and the first of two lines of
    the same age. *)
Example evicts_least_recently_used :
  ∃ st', access_data full_set_state 1 = Ok (st', 2) ∧
         lines <$> cache_sets (cache st') =
           [[ {| valid := true; tag := 7; last_used := 5 |};
              {| valid := true; tag := 1; last_used := 6 |} ]].
Proof. eexists. split; reflexivity. Qed.

Example evicts_lowest_index_on_tie :
  ∃ st', access_data tied_set_state 1 = Ok (st', 2) ∧
         lines <$> cache_sets (cache st') =
           [[ {| valid := true; tag := 1; last_used := 6 |};
              {| valid := true; tag := 9; last_used := 3 |} ]].
Proof. eexists. split; reflexivity. Qed.

(** What the model of [sscanf] returns on some lines. *)
Example sscanf_trace_samples :
  sscanf_trace " L 10,1" = (3, ("L"%char, 16, 1)) ∧
  sscanf_trace "I 0400d7d4,8" = (3, ("I"%char, 67164116, 8)) ∧
  sscanf_trace " M 7ff000398, 4" = (3, ("M"%char, 34342962072, 4)) ∧
  fst (sscanf_trace " S 18 ,1") = 2 ∧
  fst (sscanf_trace " L zz,1") = 1 ∧
  fst (sscanf_trace "") = -1.
Proof. repeat split; reflexivity. Qed.

(** ** A limit of [init_cache] *)

(** X23 (the size of the array of sets).  For [s] from 61 to 63 the guard
    of [init_cache] lets the construction proceed, but the size
    [sizeof(set_t) * S] wraps to 0 in [size_t]: the run either exits because
    [malloc(0)] returns [NULL], or writes beyond the empty block it got; it
    never produces a cache. *)
Lemma init_cache_size_wraps (malloc_ok : nat → Z → bool) (s E b : Z) :
  61 ≤ s < 64 → 0 < E → 0 ≤ b →
  main_init malloc_ok s E b true = if malloc_ok 0%nat 0 then UB else Exit.
Proof. apply main_init_size_wraps. Qed.

(** * Further properties *)

(** ** One call in detail *)

(** Besides the frame, what the loops have established when the call
    returns: no line matched on a miss, the line filled is the first free one,
    the set was full on an eviction and the victim is the result of the last
    loop. *)
Lemma access_step_detail st addr st' r :
  access_step st addr st' r →
  ∃ si t set k l l',
    decompose (glob_s st) (glob_b st) addr = Ok (si, t) ∧
    cache_sets (cache st) !! Z.to_nat si = Some set ∧
    lines set !! k = Some l ∧
    cache_sets (cache st') =
      <[Z.to_nat si := {| lines := <[k := l']> (lines set) |}]>
        (cache_sets (cache st)) ∧
    tag l' = t ∧
    last_used l' = incr_ull (use_counter st) ∧
    ((r = 0 ∧ valid l = true ∧ tag l = t ∧ valid l' = true ∧
      (k < Z.to_nat (cache_E (cache st)))%nat)
     ∨ (r = 1 ∧ valid l = false ∧ valid l' = true ∧
        (k < Z.to_nat (cache_E (cache st)))%nat ∧
        (∀ j, (j < Z.to_nat (cache_E (cache st)))%nat →
           ∃ x, lines set !! j = Some x ∧ is_hit t x = false) ∧
        (∀ j, (j < k)%nat → ∃ x, lines set !! j = Some x ∧ valid x = true))
     ∨ (r = 2 ∧ valid l' = valid l ∧
        (∀ j, (j < Z.to_nat (cache_E (cache st)))%nat →
           ∃ x, lines set !! j = Some x ∧ is_hit t x = false ∧ valid x = true) ∧
        lru_scan (lines set) 0 (Z.to_nat (cache_E (cache st))) ULLONG_MAX 0 = Ok k)).
Proof.
  intros [si t set i l Hdec Hset Hhit Hl Hh
         |si t set i Hdec Hset Hhit Hfree Hm
         |si t set k l Hdec Hset Hhit Hfree Hk Hl Hm He].
  - apply scan_first_Some in Hhit as (Hi & (l0 & Hl0 & HP) & _).
    assert (l0 = l) as -> by congruence.
    unfold is_hit in HP. apply andb_prop in HP as [Hv Ht%Z.eqb_eq].
    exists si, t, set, i, l. eexists.
    repeat (split; [first [eassumption|reflexivity]|]).
    left. simpl. repeat split; auto. lia.
  - pose proof (scan_first_Some _ _ _ _ _ Hfree) as (Hi & (l & Hl & HP) & Hbefore).
    unfold is_free in HP. apply negb_true_iff in HP.
    exists si, t, set, i, l. eexists.
    repeat (split; [first [eassumption|reflexivity]|]).
    right; left. simpl. repeat split; auto; [lia| |].
    + intros j Hj. apply (scan_first_None _ _ _ _ Hhit). lia.
    + intros j Hj. destruct (Hbefore j) as (x & Hx & HPx); [lia|].
      exists x. split; [exact Hx|].
      unfold is_free in HPx. apply negb_false_iff in HPx. exact HPx.
  - exists si, t, set, k, l. eexists.
    repeat (split; [first [eassumption|reflexivity]|]).
    right; right. simpl. repeat split; auto.
    intros j Hj.
    destruct (scan_first_None _ _ _ _ Hhit j) as (x & Hx & HPx); [lia|].
    destruct (scan_first_None _ _ _ _ Hfree j) as (x' & Hx' & HPx'); [lia|].
    assert (x' = x) as -> by congruence.
    exists x. repeat split; auto.
    unfold is_free in HPx'. apply negb_false_iff in HPx'. exact HPx'.
Qed.

(** The lines of the cache after the write of line [k] of set [si]. *)
Lemma line_at_after st st' si k set l' :
  cache_sets (cache st) !! si = Some set →
  (k < length (lines set))%nat →
  cache_sets (cache st') =
    <[si := {| lines := <[k := l']> (lines set) |}]> (cache_sets (cache st)) →
  line_at st' si k = Some l' ∧
  (∀ si' j, si' ≠ si ∨ j ≠ k → line_at st' si' j = line_at st si' j).
Proof.
  intros Hset Hk Hsets.
  destruct (line_at_insert _ _ _ _ _ _ Hset Hsets) as [Hsame Hother].
  split; [|exact Hother].
  rewrite Hsame. apply list_lookup_insert_eq. exact Hk.
Qed.

Lemma line_at_after_cases st st' si k set l' si' j x :
  cache_sets (cache st) !! si = Some set →
  (k < length (lines set))%nat →
  cache_sets (cache st') =
    <[si := {| lines := <[k := l']> (lines set) |}]> (cache_sets (cache st)) →
  line_at st' si' j = Some x →
  (si' = si ∧ j = k ∧ x = l') ∨ ((si' ≠ si ∨ j ≠ k) ∧ line_at st si' j = Some x).
Proof.
  intros Hset Hk Hsets Hx.
  destruct (line_at_after _ _ _ _ _ _ Hset Hk Hsets) as [Hnew Hother].
  destruct (decide (si' = si)) as [->|Hsi].
  - destruct (decide (j = k)) as [->|Hj].
    + left. repeat split; congruence.
    + right. split; [auto|]. rewrite <- Hother by auto. exact Hx.
  - right. split; [auto|]. rewrite <- Hother by auto. exact Hx.
Qed.

Lemma line_at_lines st si set j :
  cache_sets (cache st) !! si = Some set → line_at st si j = lines set !! j.
Proof. intros Hset. unfold line_at. rewrite Hset. reflexivity. Qed.

(** In a well-formed state the index of a line is below [E]. *)
Lemma well_formed_line_index st si set j x :
  well_formed st → cache_sets (cache st) !! si = Some set →
  lines set !! j = Some x → (j < Z.to_nat (cache_E (cache st)))%nat.
Proof.
  intros [_ _ _ _ Hlines] Hset Hx. rewrite <- (Hlines _ _ Hset).
  eapply lookup_lt_Some; eauto.
Qed.

(** ** Invariants of the occupancy *)

Lemma access_step_tags_unique st addr st' r :
  access_step st addr st' r → well_formed st → tags_unique st → tags_unique st'.
Proof.
  intros Hstep Hwf Huniq.
  apply access_step_detail in Hstep
    as (si & t & set & k & l & l' & _ & Hset & Hl & Hsets & Htag & _ & Hcases).
  pose proof (lookup_lt_Some _ _ _ Hl) as Hk.
  assert (Hfresh_tag : ∀ j x, j ≠ k → line_at st (Z.to_nat si) j = Some x →
            valid x = true → tag x ≠ t).
  { intros j x Hj Hx Hv. rewrite (line_at_lines _ _ _ _ Hset) in Hx.
    pose proof (well_formed_line_index _ _ _ _ _ Hwf Hset Hx) as Hjn.
    destruct Hcases as [(_ & Hvl & Htl & _)
                       |[(_ & _ & _ & _ & Hnone & _)|(_ & _ & Hnone & _)]].
    - rewrite <- Htl.
      apply (Huniq (Z.to_nat si) j k x l); auto;
        rewrite (line_at_lines _ _ _ _ Hset); assumption.
    - destruct (Hnone j Hjn) as (x' & Hx' & HP).
      assert (x' = x) as -> by congruence.
      unfold is_hit in HP. rewrite Hv in HP. simpl in HP.
      apply Z.eqb_neq. exact HP.
    - destruct (Hnone j Hjn) as (x' & Hx' & HP & _).
      assert (x' = x) as -> by congruence.
      unfold is_hit in HP. rewrite Hv in HP. simpl in HP.
      apply Z.eqb_neq. exact HP. }
  intros si' j1 j2 x1 x2 H1 H2 Hv1 Hv2 Hj.
  destruct (line_at_after_cases _ _ _ _ _ _ _ _ _ Hset Hk Hsets H1)
    as [(-> & -> & ->)|[Hne1 Hold1]];
    destruct (line_at_after_cases _ _ _ _ _ _ _ _ _ Hset Hk Hsets H2)
    as [(Hs2 & -> & ->)|[Hne2 Hold2]].
  - congruence.
  - rewrite Htag. intros Heq. destruct Hne2 as [Hne2|Hne2]; [congruence|].
    apply (Hfresh_tag j2 x2); auto.
  - subst si'. rewrite Htag. intros Heq. destruct Hne1 as [Hne1|Hne1]; [congruence|].
    apply (Hfresh_tag j1 x1); auto.
  - eapply Huniq; eauto.
Qed.

Lemma access_step_valid_prefix st addr st' r :
  access_step st addr st' r → well_formed st → valid_prefix st → valid_prefix st'.
Proof.
  intros Hstep Hwf Hpre.
  apply access_step_detail in Hstep
    as (si & t & set & k & l & l' & _ & Hset & Hl & Hsets & _ & _ & Hcases).
  pose proof (lookup_lt_Some _ _ _ Hl) as Hk.
  destruct (line_at_after _ _ _ _ _ _ Hset Hk Hsets) as [Hnew Hother].
  assert (Hl' : valid l = true → valid l' = true).
  { destruct Hcases as [(_ & _ & _ & Hv & _)|[(_ & _ & Hv & _)|(_ & Hv & _)]];
      congruence. }
  (* a valid line of the old state is still there and valid *)
  assert (Hkeep : ∀ si' i x, line_at st si' i = Some x → valid x = true →
            ∃ x', line_at st' si' i = Some x' ∧ valid x' = true).
  { intros si' i x Hx Hv.
    destruct (decide (si' = Z.to_nat si ∧ i = k)) as [[-> ->]|Hne].
    - exists l'. split; [exact Hnew|]. apply Hl'.
      rewrite (line_at_lines _ _ _ _ Hset) in Hx. congruence.
    - exists x. split; [|exact Hv]. rewrite Hother; [exact Hx|].
      destruct (decide (si' = Z.to_nat si)); [right|left]; intuition congruence. }
  intros si' i j x Hx Hv Hij.
  destruct (line_at_after_cases _ _ _ _ _ _ _ _ _ Hset Hk Hsets Hx)
    as [(-> & -> & ->)|[Hne Hold]].
  - (* the line written: the lines before it were valid *)
    assert (∃ y, line_at st (Z.to_nat si) i = Some y ∧ valid y = true)
      as (y & Hy & Hvy).
    { rewrite (line_at_lines _ _ _ _ Hset).
      destruct Hcases as [(_ & Hvl & _)
                         |[(_ & _ & _ & _ & _ & Hbefore)|(_ & _ & Hall & _)]].
      - rewrite <- (line_at_lines st _ _ _ Hset).
        apply (Hpre _ i k l); auto. rewrite (line_at_lines _ _ _ _ Hset). exact Hl.
      - apply Hbefore. exact Hij.
      - destruct (Hall i) as (y & Hy & _ & Hvy); [|eauto].
        pose proof (well_formed_line_index _ _ _ _ _ Hwf Hset Hl). lia. }
    eapply Hkeep; eauto.
  - destruct (Hpre _ i j x Hold Hv Hij) as (y & Hy & Hvy).
    eapply Hkeep; eauto.
Qed.

Lemma access_step_lines_genuine st addr st' r :
  access_step st addr st' r → well_formed st → lines_genuine st → lines_genuine st'.
Proof.
  intros Hstep Hwf Hgen.
  pose proof (access_step_frame _ _ _ _ Hstep)
    as (_ & _ & _ & _ & _ & _ & _ & _ & _ & _ & (Hs & _ & Hb) & _ & Hlog & _).
  apply access_step_detail in Hstep
    as (si & t & set & k & l & l' & Hdec & Hset & Hl & Hsets & Htag & _ & _).
  pose proof (lookup_lt_Some _ _ _ Hl) as Hk.
  assert (Hs0 : 0 ≤ glob_s st) by (destruct Hwf; lia).
  pose proof (decompose_index_range _ _ _ _ _ Hs0 Hdec) as Hsi.
  intros si' j x Hx Hv. unfold accessed_before. rewrite Hs, Hb, Hlog.
  destruct (line_at_after_cases _ _ _ _ _ _ _ _ _ Hset Hk Hsets Hx)
    as [(-> & -> & ->)|[_ Hold]].
  - exists addr, r. split.
    + apply elem_of_app. right. apply list_elem_of_singleton. reflexivity.
    + rewrite Htag, Z2Nat.id by lia. exact Hdec.
  - destruct (Hgen _ _ _ Hold Hv) as (a & r0 & Hin & Ha).
    exists a, r0. split; [|exact Ha]. apply elem_of_app. left. exact Hin.
Qed.

(** Counting valid lines under the write of one line. *)
Lemma sum_list_with_insert {A : Type} (f : A → nat) (xs : list A) (k : nat) (x y : A) :
  xs !! k = Some x →
  (sum_list_with f (<[k := y]> xs) + f x = sum_list_with f xs + f y)%nat.
Proof.
  revert k. induction xs as [|z xs IH]; intros k Hx; [discriminate|].
  destruct k as [|k]; simpl in *.
  - injection Hx as ->. lia.
  - specialize (IH k Hx). lia.
Qed.

Lemma sum_list_with_bound {A : Type} (f : A → nat) (xs : list A) (c : nat) :
  (∀ x, x ∈ xs → f x ≤ c)%nat → (sum_list_with f xs ≤ length xs * c)%nat.
Proof.
  induction xs as [|z xs IH]; intros Hc; simpl; [lia|].
  assert (f z ≤ c)%nat by (apply Hc; apply elem_of_cons; left; reflexivity).
  assert (sum_list_with f xs ≤ length xs * c)%nat
    by (apply IH; intros x Hx; apply Hc; apply elem_of_cons; right; exact Hx).
  lia.
Qed.

Lemma count_valid_le_length ls : (count_valid ls ≤ length ls)%nat.
Proof.
  unfold count_valid. induction ls as [|l ls IH]; simpl; [lia|].
  destruct (valid l); lia.
Qed.

Lemma access_step_valid_total st addr st' r :
  access_step st addr st' r → 1 ≤ cache_E (cache st) →
  valid_total st' = (valid_total st + (if (r =? 1)%Z then 1 else 0))%nat.
Proof.
  intros Hstep HE.
  pose proof (access_step_frame _ _ _ _ Hstep)
    as (si & t & set & k & l & l' & _ & Hset & Hl & Hc & _ & _ & _ & _ & Hcases).
  unfold valid_total. rewrite Hc. simpl.
  pose proof (sum_list_with_insert (λ set, count_valid (lines set)) _ _ _
                {| lines := <[k := l']> (lines set) |} Hset) as Hsets.
  pose proof (sum_list_with_insert (λ l, if valid l then 1%nat else 0%nat) _ _ _ l' Hl)
    as Hlines.
  simpl in Hsets. unfold count_valid in *.
  destruct Hcases as [(-> & Hv & _ & Hv' & _)
                     |[(-> & Hv & Hv' & _)|(-> & Hv' & _ & Hfull & _)]];
    simpl.
  - rewrite Hv, Hv' in Hlines. lia.
  - rewrite Hv, Hv' in Hlines. lia.
  - destruct (Hfull HE) as [Hv _]. rewrite Hv' , Hv in Hlines. lia.
Qed.

Lemma fresh_valid_total s E b : valid_total (fresh_state s E b) = 0%nat.
Proof.
  unfold valid_total. simpl.
  assert (Hset : count_valid (replicate (Z.to_nat E) empty_line) = 0%nat).
  { unfold count_valid. induction (Z.to_nat E) as [|n IH]; simpl; auto. }
  induction (Z.to_nat (2 ^ s)) as [|n IH]; simpl; [reflexivity|].
  rewrite Hset, IH. reflexivity.
Qed.

Section OccupancyProofs.

Variable malloc_ok : nat → Z → bool.

Lemma reachable_occupancy st :
  reachable malloc_ok st →
  tags_unique st ∧ valid_prefix st ∧ lines_genuine st ∧
  Z.of_nat (valid_total st) = miss_count st - eviction_count st.
Proof.
  induction 1 as [st Hfresh|st addr st' r Hreach (Huniq & Hpre & Hgen & Htotal) Hstep].
  - apply fresh_is_fresh_state in Hfresh as (s & E & b & Hs & HE & Hb & ->).
    repeat split.
    + intros si j1 j2 l1 l2 H1 _ Hv. apply line_at_fresh in H1 as ->. discriminate.
    + intros si i j l H1 Hv. apply line_at_fresh in H1 as ->. discriminate.
    + intros si j l H1 Hv. apply line_at_fresh in H1 as ->. discriminate.
    + rewrite fresh_valid_total. reflexivity.
  - apply reachable_invariant in Hreach as (Hwf & _ & _).
    apply access_data_step in Hstep. repeat split.
    + eapply access_step_tags_unique; eauto.
    + eapply access_step_valid_prefix; eauto.
    + eapply access_step_lines_genuine; eauto.
    + rewrite (access_step_valid_total _ _ _ _ Hstep) by (destruct Hwf; lia).
      destruct Hstep; simpl; lia.
Qed.

End OccupancyProofs.

(** X1 (tags are unique within a set).  In every state reached from a
    freshly constructed cache, two different valid lines of one set never
    carry the same tag: the first line that the hit loop finds is the only one
    that matches. *)
Theorem resident_tags_distinct (malloc_ok : nat → Z → bool) (st : state) :
  reachable malloc_ok st →
  ∀ si j1 j2 l1 l2,
    line_at st si j1 = Some l1 → line_at st si j2 = Some l2 →
    valid l1 = true → valid l2 = true → j1 ≠ j2 → tag l1 ≠ tag l2.
Proof.
  intros Hreach. apply reachable_occupancy in Hreach as (Huniq & _). exact Huniq.
Qed.

(** X2 (lines fill in index order).  In every state reached from a freshly
    constructed cache, the valid lines of a set are its first lines: below a
    valid line every line exists and is valid. *)
Theorem valid_lines_are_a_prefix (malloc_ok : nat → Z → bool) (st : state) :
  reachable malloc_ok st →
  ∀ si i j l,
    line_at st si j = Some l → valid l = true → (i < j)%nat →
    ∃ l', line_at st si i = Some l' ∧ valid l' = true.
Proof.
  intros Hreach. apply reachable_occupancy in Hreach as (_ & Hpre & _). exact Hpre.
Qed.

(** X3 (occupancy).  In every state reached from a freshly constructed
    cache, the number of valid lines of the whole cache is
    [miss_count - eviction_count]; it is at most [2^s * E], so the misses
    exceed the evictions by at most the number of lines of the cache. *)
Theorem occupancy_is_misses_less_evictions (malloc_ok : nat → Z → bool) (st : state) :
  reachable malloc_ok st →
  Z.of_nat (valid_total st) = miss_count st - eviction_count st ∧
  miss_count st - eviction_count st ≤ 2 ^ glob_s st * cache_E (cache st).
Proof.
  intros Hreach.
  pose proof (reachable_occupancy _ _ Hreach) as (_ & _ & _ & Htotal).
  apply reachable_invariant in Hreach as ([Hs _ HE Hsets Hlines] & _ & _).
  split; [exact Htotal|]. rewrite <- Htotal.
  assert (Hbound : (valid_total st ≤
            length (cache_sets (cache st)) * Z.to_nat (cache_E (cache st)))%nat).
  { apply sum_list_with_bound. intros set Hin.
    apply list_elem_of_lookup in Hin as [si Hset].
    rewrite <- (Hlines _ _ Hset). apply count_valid_le_length. }
  rewrite Hsets in Hbound.
  assert (0 < 2 ^ glob_s st) by (apply Z.pow_pos_nonneg; lia).
  apply Nat2Z.inj_le in Hbound. rewrite Nat2Z.inj_mul, !Z2Nat.id in Hbound by lia.
  exact Hbound.
Qed.

(** X4 (no hit without an earlier access).  In a state reached from a
    freshly constructed cache, a call of [access_data] that returns a hit was
    preceded by a completed call whose address has the same set index and the
    same tag. *)
Theorem hit_has_earlier_access (malloc_ok : nat → Z → bool)
    (st : state) (addr : Z) (st' : state) :
  reachable malloc_ok st →
  access_data st addr = Ok (st', 0) →
  ∃ addr0 r0,
    (addr0, r0) ∈ access_log st ∧
    decompose (glob_s st) (glob_b st) addr0 =
      decompose (glob_s st) (glob_b st) addr.
Proof.
  intros Hreach H%access_data_step.
  pose proof (reachable_occupancy _ _ Hreach) as (_ & _ & Hgen & _).
  apply reachable_invariant in Hreach as (Hwf & _ & _).
  apply access_step_detail in H
    as (si & t & set & k & l & l' & Hdec & Hset & Hl & _ & _ & _ & Hcases).
  destruct Hcases as [(_ & Hv & Ht & _)|[(? & _)|(? & _)]]; [|lia..].
  assert (Hs0 : 0 ≤ glob_s st) by (destruct Hwf; lia).
  pose proof (decompose_index_range _ _ _ _ _ Hs0 Hdec) as Hsi.
  destruct (Hgen (Z.to_nat si) k l) as (a0 & r0 & Hin & Ha0); auto.
  { rewrite (line_at_lines _ _ _ _ Hset). exact Hl. }
  exists a0, r0. split; [exact Hin|].
  rewrite Ha0, Hdec, Z2Nat.id, Ht by lia. reflexivity.
Qed.

(** X5 (evictions come from capacity).  In a state reached from a freshly
    constructed cache, a call of [access_data] that evicts finds the set of
    its address holding exactly [E] lines, all valid, with pairwise distinct
    tags, none of them the tag of the address, and each the tag of an address
    accessed before: [E + 1] different blocks of that set have been
    accessed. *)
Theorem eviction_needs_full_set (malloc_ok : nat → Z → bool)
    (st : state) (addr : Z) (st' : state) :
  reachable malloc_ok st →
  access_data st addr = Ok (st', 2) →
  ∃ si t set,
    decompose (glob_s st) (glob_b st) addr = Ok (si, t) ∧
    cache_sets (cache st) !! Z.to_nat si = Some set ∧
    Z.of_nat (length (lines set)) = cache_E (cache st) ∧
    NoDup (tag <$> lines set) ∧
    ∀ x, x ∈ lines set →
      valid x = true ∧ tag x ≠ t ∧ accessed_before st (Z.to_nat si) (tag x).
Proof.
  intros Hreach H%access_data_step.
  pose proof (reachable_occupancy _ _ Hreach) as (Huniq & _ & Hgen & _).
  apply reachable_invariant in Hreach as (Hwf & _ & _).
  apply access_step_detail in H
    as (si & t & set & k & l & l' & Hdec & Hset & Hl & _ & _ & _ & Hcases).
  destruct Hcases as [(? & _)|[(? & _)|(_ & _ & Hfull & _)]]; [lia..|].
  assert (Hall : ∀ j x, lines set !! j = Some x →
            valid x = true ∧ tag x ≠ t).
  { intros j x Hx.
    pose proof (well_formed_line_index _ _ _ _ _ Hwf Hset Hx) as Hj.
    destruct (Hfull j Hj) as (x' & Hx' & HP & Hv).
    assert (x' = x) as -> by congruence. split; [exact Hv|].
    unfold is_hit in HP. rewrite Hv in HP. apply Z.eqb_neq. exact HP. }
  exists si, t, set. split; [exact Hdec|]. split; [exact Hset|]. split; [|split].
  - destruct Hwf as [_ _ HE _ Hlines]. rewrite (Hlines _ _ Hset). lia.
  - apply NoDup_alt. intros j1 j2 y H1 H2.
    rewrite list_lookup_fmap in H1, H2.
    destruct (lines set !! j1) as [x1|] eqn:Hx1; [|discriminate].
    destruct (lines set !! j2) as [x2|] eqn:Hx2; [|discriminate].
    simpl in H1, H2. injection H1 as H1. injection H2 as H2.
    destruct (decide (j1 = j2)) as [|Hne]; [assumption|]. exfalso.
    apply (Huniq (Z.to_nat si) j1 j2 x1 x2); auto;
      rewrite ?(line_at_lines _ _ _ _ Hset); try assumption;
      try (eapply Hall; eassumption). congruence.
  - intros x Hin. apply list_elem_of_lookup in Hin as [j Hx].
    destruct (Hall _ _ Hx) as [Hv Ht]. repeat split; auto.
    apply (Hgen (Z.to_nat si) j x); auto.
    rewrite (line_at_lines _ _ _ _ Hset). exact Hx.
Qed.

(** ** Blocks *)

(** The decomposition looks at the address only through [addr >> b]. *)
Lemma decompose_same_block s b addr1 addr2 :
  0 ≤ s → Z.shiftr addr1 b = Z.shiftr addr2 b →
  decompose s b addr1 = decompose s b addr2.
Proof.
  intros Hs Hblock. unfold decompose, ull_shr, int_add.
  destruct (if 0 <? s then _ else _) as [mask| |]; simpl; try reflexivity.
  destruct (Z.leb_spec 0 b); simpl; [|reflexivity].
  destruct (b <? 64); simpl; [|reflexivity].
  rewrite Hblock.
  destruct ((INT_MIN <=? b + s) && (b + s <=? INT_MAX)); simpl; [|reflexivity].
  destruct ((0 <=? b + s) && (b + s <? 64)); simpl; [|reflexivity].
  rewrite <- !Z.shiftr_shiftr by lia. rewrite Hblock. reflexivity.
Qed.

(** The block number is the tag followed by the set index. *)
Lemma decompose_block_number s b addr si t :
  0 ≤ s → decompose s b addr = Ok (si, t) →
  Z.shiftr addr b = t * 2^s + si ∧ 0 ≤ si < 2^s.
Proof.
  intros Hs H. pose proof (decompose_shift_range _ _ _ _ _ H) as (Hb & Hbs & _).
  rewrite decompose_defined in H by lia. injection H as <- <-.
  split; [|apply land_mask_range; exact Hs].
  replace (2^s - 1) with (Z.ones s) by (rewrite Z.ones_equiv; lia).
  rewrite Z.land_ones by lia.
  rewrite <- Z.shiftr_shiftr by lia. rewrite (Z.shiftr_div_pow2 _ s) by lia.
  pose proof (Z.div_mod (Z.shiftr addr b) (2^s)) as Hdm.
  assert (2^s ≠ 0) by (pose proof (Z.pow_pos_nonneg 2 s); lia).
  specialize (Hdm ltac:(assumption)). lia.
Qed.

(** ** An address that was accessed is resident *)

Lemma scan_first_exists P ls n k x :
  (n ≤ length ls)%nat → (k < n)%nat → ls !! k = Some x → P x = true →
  ∃ i, scan_first P ls 0 n = Ok (Some i).
Proof.
  intros Hn Hk Hx HP.
  destruct (scan_first_defined P ls 0 n) as [[i|] Hscan]; [lia|eauto|].
  destruct (scan_first_None _ _ _ _ Hscan k) as (x' & Hx' & HP'); [lia|].
  congruence.
Qed.

(** A valid line with the tag of the address, in the set of the address:
    the call is a hit. *)
Lemma resident_then_hit st addr si t k x :
  well_formed st →
  decompose (glob_s st) (glob_b st) addr = Ok (si, t) →
  line_at st (Z.to_nat si) k = Some x → valid x = true → tag x = t →
  (hit_count st < INT_MAX → ∃ st', access_data st addr = Ok (st', 0)) ∧
  (∀ st' r, access_data st addr = Ok (st', r) → r = 0).
Proof.
  intros Hwf Hdec Hx Hv Ht. unfold line_at in Hx.
  destruct (cache_sets (cache st) !! Z.to_nat si) as [set|] eqn:Hset; [|discriminate].
  simpl in Hx.
  pose proof (well_formed_line_index _ _ _ _ _ Hwf Hset Hx) as Hk.
  destruct (scan_first_exists (is_hit t) (lines set) (Z.to_nat (cache_E (cache st))) k x)
    as [i Hscan]; auto.
  - destruct Hwf as [_ _ _ _ Hlines]. rewrite (Hlines _ _ Hset). lia.
  - unfold is_hit. rewrite Hv, Ht, Z.eqb_refl. reflexivity.
  - eapply access_data_on_hit; eauto.
Qed.

(** After any call that returns, the line of the address is in its set. *)
Lemma access_leaves_resident st addr st' r :
  1 ≤ cache_E (cache st) →
  access_step st addr st' r →
  ∃ si t set k l',
    decompose (glob_s st) (glob_b st) addr = Ok (si, t) ∧
    cache_sets (cache st) !! Z.to_nat si = Some set ∧
    (k < length (lines set))%nat ∧
    cache_sets (cache st') =
      <[Z.to_nat si := {| lines := <[k := l']> (lines set) |}]>
        (cache_sets (cache st)) ∧
    line_at st' (Z.to_nat si) k = Some l' ∧
    valid l' = true ∧ tag l' = t ∧ last_used l' = incr_ull (use_counter st).
Proof.
  intros HE Hstep.
  pose proof (access_step_frame _ _ _ _ Hstep)
    as (si & t & set & k & l & l' & Hdec & Hset & Hl & Hc & _ & _ & _ & Hlu & Hcases).
  assert (Hsets : cache_sets (cache st') =
            <[Z.to_nat si := {| lines := <[k := l']> (lines set) |}]>
              (cache_sets (cache st))) by (rewrite Hc; reflexivity).
  pose proof (lookup_lt_Some _ _ _ Hl) as Hk.
  destruct (line_at_after _ _ _ _ _ _ Hset Hk Hsets) as [Hnew _].
  exists si, t, set, k, l'.
  repeat (split; [assumption|]).
  destruct Hcases as [(_ & _ & _ & Hv & Ht & _)
                     |[(_ & _ & Hv & Ht & _)|(_ & Hv & Ht & Hfull & _)]];
    repeat split; auto.
  destruct (Hfull HE) as [Hvl _]. congruence.
Qed.

(** X6 (an access makes its block resident).  From a well-formed state,
    after any call of [access_data] that returns (hit, miss or eviction), a
    call for any address of the same block (the same [addr >> b]) on the
    state it leaves is a hit: it cannot return anything else, and it does
    return 0 unless [hit_count] is at [INT_MAX]. *)
Theorem access_then_same_block_hits
    (st : state) (addr : Z) (st1 : state) (r1 : Z) (addr' : Z) :
  well_formed st →
  access_data st addr = Ok (st1, r1) →
  Z.shiftr addr' (glob_b st) = Z.shiftr addr (glob_b st) →
  (∀ st2 r2, access_data st1 addr' = Ok (st2, r2) → r2 = 0) ∧
  (hit_count st1 < INT_MAX → ∃ st2, access_data st1 addr' = Ok (st2, 0)).
Proof.
  intros Hwf H1%access_data_step Hblock.
  pose proof (access_step_well_formed _ _ _ _ H1 Hwf) as Hwf1.
  pose proof (access_step_frame _ _ _ _ H1)
    as (_ & _ & _ & _ & _ & _ & _ & _ & _ & _ & (Hs & _ & Hb) & _).
  assert (HE : 1 ≤ cache_E (cache st)) by (destruct Hwf; assumption).
  destruct (access_leaves_resident _ _ _ _ HE H1)
    as (si & t & set & k & l' & Hdec & _ & _ & _ & Hline & Hv & Ht & _).
  assert (Hdec' : decompose (glob_s st1) (glob_b st1) addr' = Ok (si, t)).
  { rewrite Hs, Hb, <- Hdec. apply decompose_same_block; [destruct Hwf; lia|].
    exact Hblock. }
  destruct (resident_then_hit _ _ _ _ _ _ Hwf1 Hdec' Hline Hv Ht) as [Hdef Honly].
  split; assumption.
Qed.

(** X7 (the block number).  When the decomposition of an address is
    defined, with [s >= 0], the set index is below [2^s], the block number
    [addr >> b] is [tag * 2^s + set_index], and another address has the same
    set index and tag exactly when it lies in the same block. *)
Theorem decompose_identifies_block (s b addr si t : Z) :
  0 ≤ s →
  decompose s b addr = Ok (si, t) →
  0 ≤ si < 2^s ∧
  Z.shiftr addr b = t * 2^s + si ∧
  ∀ addr', decompose s b addr' = Ok (si, t) ↔ Z.shiftr addr' b = Z.shiftr addr b.
Proof.
  intros Hs H. destruct (decompose_block_number _ _ _ _ _ Hs H) as [Hnum Hsi].
  split; [exact Hsi|]. split; [exact Hnum|].
  intros addr'. split.
  - intros H'. destruct (decompose_block_number _ _ _ _ _ Hs H') as [Hnum' _]. lia.
  - intros Hblock. rewrite <- H. apply decompose_same_block; assumption.
Qed.

(** ** The most recently used line *)

Section RecencyProofs.

Variable malloc_ok : nat → Z → bool.

(** X8 (the most recently used block survives).  In a cache with [E >= 2]
    reached from a fresh one, one intervening call of [access_data], whatever
    its address and outcome, does not remove the block accessed just before
    it: a third call for the first address is a hit (it cannot return
    anything else, and returns 0 unless [hit_count] is at [INT_MAX]). *)
Theorem most_recent_block_survives
    (st : state) (addr : Z) (st1 : state) (r1 : Z)
    (addr2 : Z) (st2 : state) (r2 : Z) :
  reachable malloc_ok st →
  2 ≤ cache_E (cache st) →
  access_data st addr = Ok (st1, r1) →
  access_data st1 addr2 = Ok (st2, r2) →
  (∀ st3 r3, access_data st2 addr = Ok (st3, r3) → r3 = 0) ∧
  (hit_count st2 < INT_MAX → ∃ st3, access_data st2 addr = Ok (st3, 0)).
Proof.
  intros Hreach HE2 H1 H2.
  pose proof (reachable_access _ _ _ _ _ Hreach H1) as Hreach1.
  pose proof (reachable_access _ _ _ _ _ Hreach1 H2) as Hreach2.
  apply reachable_invariant in Hreach as (Hwf & Hcnt & _).
  apply reachable_invariant in Hreach1 as (Hwf1 & Hcnt1 & [Hrange1 Hdist1]).
  apply reachable_invariant in Hreach2 as (Hwf2 & _ & _).
  apply access_data_step in H1. apply access_data_step in H2.
  pose proof (access_step_frame _ _ _ _ H1)
    as (si0 & t0 & set0 & k0 & l0 & l0' & _ & _ & _ & Hc1 & (Hs1 & _ & Hb1) & Hu1 & _).
  pose proof (access_step_frame _ _ _ _ H2)
    as (_ & _ & _ & _ & _ & _ & _ & _ & _ & _ & (Hs2 & _ & Hb2) & _).
  assert (HE : 1 ≤ cache_E (cache st)) by lia.
  destruct (access_leaves_resident _ _ _ _ HE H1)
    as (si & t & set & k & l' & Hdec & _ & _ & _ & Hline1 & Hv & Ht & Hlu).
  assert (HE1 : cache_E (cache st1) = cache_E (cache st)) by (rewrite Hc1; reflexivity).
  apply access_step_detail in H2
    as (si2 & t2 & set2 & k2 & l2 & l2' & _ & Hset2 & Hl2 & Hsets2 & Htag2 & _ & Hcases2).
  pose proof (lookup_lt_Some _ _ _ Hl2) as Hk2.
  destruct (line_at_after _ _ _ _ _ _ Hset2 Hk2 Hsets2) as [Hnew2 Hother2].
  assert (Hres : ∃ x, line_at st2 (Z.to_nat si) k = Some x ∧
                      valid x = true ∧ tag x = t).
  { destruct (decide (Z.to_nat si = Z.to_nat si2 ∧ k = k2)) as [[Hsi ->]|Hne].
    - rewrite Hsi in *. rewrite (line_at_lines _ _ _ _ Hset2) in Hline1.
      assert (l2 = l') as -> by congruence.
      destruct Hcases2 as [(_ & _ & Ht2 & Hv2 & _)
                          |[(_ & Hinv & _)|(_ & _ & Hfull & Hscan)]].
      + exists l2'. split; [exact Hnew2|]. split; [exact Hv2|]. congruence.
      + congruence.
      + exfalso.
        set (n := Z.to_nat (cache_E (cache st1))) in *.
        assert (Hn : (2 ≤ n)%nat) by (unfold n; lia).
        assert (Hat : ∀ j x, lines set2 !! j = Some x →
                  line_at st1 (Z.to_nat si2) j = Some x).
        { intros j x Hx. rewrite (line_at_lines _ _ _ _ Hset2). exact Hx. }
        assert (Hmax : ∀ j x, (j < n)%nat → lines set2 !! j = Some x →
                  last_used x ≤ ULLONG_MAX).
        { intros j x Hj Hx. destruct (Hfull j Hj) as (x' & Hx' & _ & Hvx).
          assert (x' = x) as -> by congruence.
          pose proof (Hrange1 _ _ _ (Hat _ _ Hx) Hvx).
          destruct Hcnt1. unfold ULLONG_MAX, INT_MAX in *. lia. }
        assert (Hn1 : (1 ≤ n)%nat) by lia.
        pose proof (lru_scan_victim _ _ _ Hn1 Hmax Hscan)
          as (Hkn & lk & Hlk & Hleast).
        assert (lk = l') as -> by congruence.
        set (j := if decide (k2 = 0%nat) then 1%nat else 0%nat).
        assert (Hj : (j < n)%nat ∧ j ≠ k2) by (unfold j; case_decide; lia).
        destruct Hj as [Hjn Hjk].
        destruct (Hfull j Hjn) as (xj & Hxj & _ & Hvj).
        destruct (Hleast _ _ Hjn Hxj) as [Hle _].
        pose proof (Hrange1 _ _ _ (Hat _ _ Hxj) Hvj) as Hrj.
        pose proof (Hdist1 _ _ _ _ _ (Hat _ _ Hxj) (Hat _ _ Hlk) Hvj Hv Hjk) as Hneq.
        rewrite Hlu, <- Hu1 in *. lia.
    - exists l'. split; [|auto]. rewrite Hother2; [exact Hline1|].
      destruct (decide (Z.to_nat si = Z.to_nat si2)); [right|left];
        intuition congruence. }
  destruct Hres as (x & Hx & Hvx & Htx).
  assert (Hdec2 : decompose (glob_s st2) (glob_b st2) addr = Ok (si, t))
    by (rewrite Hs2, Hb2, Hs1, Hb1; exact Hdec).
  destruct (resident_then_hit _ _ _ _ _ _ Hwf2 Hdec2 Hx Hvx Htx) as [Hdef Honly].
  split; assumption.
Qed.

(** X9 (no out-of-bounds access).  In a state reached from a freshly
    constructed cache with [b + s < 64], a call of [access_data] has defined
    behaviour as long as [hit_count] and [miss_count] are below [INT_MAX]:
    every array access is within bounds, the call returns 0, 1 or 2, and the
    state it leaves is again such a state.  In no state at all does the call
    end the process. *)
Theorem access_data_is_safe (st : state) (addr : Z) :
  reachable malloc_ok st →
  glob_b st + glob_s st < 64 →
  hit_count st < INT_MAX → miss_count st < INT_MAX →
  (∃ st' r, access_data st addr = Ok (st', r) ∧ (r = 0 ∨ r = 1 ∨ r = 2) ∧
            reachable malloc_ok st' ∧ glob_b st' + glob_s st' < 64) ∧
  ∀ st0, access_data st0 addr ≠ Exit.
Proof.
  intros Hreach Hbs Hh Hm. split.
  - pose proof (reachable_invariant _ _ Hreach) as (Hwf & Hcnt & _).
    destruct (access_data_defined st addr Hwf Hbs Hh Hm) as (st' & r & H);
      [destruct Hcnt; lia|].
    exists st', r. split; [exact H|]. split; [|split].
    + apply access_data_step in H. destruct H; auto.
    + eapply reachable_access; eauto.
    + apply access_data_step, access_step_frame in H
        as (_ & _ & _ & _ & _ & _ & _ & _ & _ & _ & (-> & _ & ->) & _). exact Hbs.
  - intros st0.
    assert (Hscan : ∀ P ls i n, scan_first P ls i n ≠ Exit).
    { intros P ls i n. revert i. induction n as [|n IH]; intros i; simpl; [discriminate|].
      unfold index. destruct (ls !! i) as [l|]; simpl; [|discriminate].
      destruct (P l); [discriminate|apply IH]. }
    assert (Hlru : ∀ ls i n m k, lru_scan ls i n m k ≠ Exit).
    { intros ls i n. revert i. induction n as [|n IH]; intros i m k; simpl; [discriminate|].
      unfold index. destruct (ls !! i) as [l|]; simpl; [|discriminate].
      destruct (last_used l <? m); apply IH. }
    unfold access_data, decompose, ull_shl, ull_shr, int_add.
    destruct (0 <? glob_s st0);
      repeat (match goal with
              | |- context [if ?c then _ else _] => destruct c; simpl
              end); try discriminate;
      unfold access_set, index, incr_int;
      (destruct (cache_sets (cache st0) !! _) as [set|]; simpl; [|discriminate]);
      (destruct (scan_first (is_hit _) _ _ _) as [[i|]| |] eqn:Hhit; simpl;
         [| |exfalso; exact (Hscan _ _ _ _ Hhit)|discriminate]).
    all: repeat (match goal with
                 | |- context [if ?c then _ else _] => destruct c; simpl
                 end); try discriminate.
    all: try (destruct (lines set !! i); simpl; discriminate).
    all: destruct (scan_first is_free _ _ _) as [[i|]| |] eqn:Hfree; simpl;
           [discriminate| |exfalso; exact (Hscan _ _ _ _ Hfree)|discriminate].
    all: repeat (match goal with
                 | |- context [if ?c then _ else _] => destruct c; simpl
                 end); try discriminate.
    all: destruct (lru_scan _ _ _ _ _) as [k| |] eqn:Hk; simpl;
           [|exfalso; exact (Hlru _ _ _ _ _ Hk)|discriminate].
    all: destruct (lines set !! k); simpl; discriminate.
Qed.

End RecencyProofs.

(** ** Sets are independent *)

Lemma decompose_index_nonneg s b addr si t :
  decompose s b addr = Ok (si, t) → 0 ≤ si.
Proof.
  destruct (Z.le_gt_cases 0 s) as [Hs|Hs].
  - intros H. apply (decompose_index_range _ _ _ _ _ Hs) in H. lia.
  - unfold decompose. destruct (Z.ltb_spec 0 s) as [Hpos|_]; [lia|]. simpl.
    intros Hd. apply bind_Ok in Hd as (x & _ & Hd).
    apply bind_Ok in Hd as (bs & _ & Hd). apply bind_Ok in Hd as (t' & _ & Hd).
    injection Hd as <- _. rewrite Z.land_0_r. lia.
Qed.

(** The value returned depends on the state only through [s], [b], [E] and
    the lines of the set of the address. *)
Lemma access_result_determined stA stB addr si t set stA' rA stB' rB :
  glob_s stB = glob_s stA → glob_b stB = glob_b stA →
  cache_E (cache stB) = cache_E (cache stA) →
  decompose (glob_s stA) (glob_b stA) addr = Ok (si, t) →
  cache_sets (cache stA) !! Z.to_nat si = Some set →
  cache_sets (cache stB) !! Z.to_nat si = Some set →
  access_step stA addr stA' rA → access_step stB addr stB' rB → rA = rB.
Proof.
  intros Hs Hb HE Hdec HsetA HsetB HA HB.
  destruct HA as [siA tA setA iA lA HdecA HsA HhitA _ _
                 |siA tA setA iA HdecA HsA HhitA HfreeA _
                 |siA tA setA kA lA HdecA HsA HhitA HfreeA _ _ _ _];
    rewrite Hdec in HdecA; injection HdecA as <- <-;
    rewrite HsetA in HsA; injection HsA as <-;
    destruct HB as [siB tB setB iB lB HdecB HsB HhitB _ _
                   |siB tB setB iB HdecB HsB HhitB HfreeB _
                   |siB tB setB kB lB HdecB HsB HhitB HfreeB _ _ _ _];
    rewrite Hs, Hb, Hdec in HdecB; injection HdecB as <- <-;
    rewrite HsetB in HsB; injection HsB as <-;
    rewrite HE in *; congruence.
Qed.

(** X10 (sets do not interfere).  From any state, a call of [access_data]
    for an address of another set does not change what a call for [addr]
    returns: hit, miss or eviction is decided by the set of [addr] alone. *)
Theorem other_set_does_not_interfere
    (st : state) (addr addr2 si t si2 t2 : Z)
    (st1 : state) (r : Z) (st2 : state) (r2 : Z) (st3 : state) (r' : Z) :
  decompose (glob_s st) (glob_b st) addr = Ok (si, t) →
  decompose (glob_s st) (glob_b st) addr2 = Ok (si2, t2) →
  si ≠ si2 →
  access_data st addr = Ok (st1, r) →
  access_data st addr2 = Ok (st2, r2) →
  access_data st2 addr = Ok (st3, r') →
  r' = r.
Proof.
  intros Hdec Hdec2 Hne H1%access_data_step H2%access_data_step H3%access_data_step.
  pose proof (decompose_index_nonneg _ _ _ _ _ Hdec) as Hsi.
  pose proof (decompose_index_nonneg _ _ _ _ _ Hdec2) as Hsi2.
  pose proof (access_step_frame _ _ _ _ H2)
    as (si0 & t0 & set0 & k0 & l0 & l0' & Hdec0 & Hset0 & _ & Hc & (Hs & _ & Hb) & _).
  rewrite Hdec2 in Hdec0. injection Hdec0 as <- <-.
  pose proof (access_step_frame _ _ _ _ H1)
    as (si1 & t1 & set1 & k1 & l1 & l1' & Hdec1 & Hset1 & _).
  rewrite Hdec in Hdec1. injection Hdec1 as <- <-.
  symmetry.
  apply (access_result_determined st st2 addr si t set1 st1 r st3 r'); auto.
  - rewrite Hc. reflexivity.
  - rewrite Hc. simpl. rewrite list_lookup_insert_ne by lia. exact Hset1.
Qed.

(** ** The outcome of the construction *)

Section ConstructionOutcome.

Variable malloc_ok : nat → Z → bool.

Lemma init_sets_outcome bytes E i n :
  sizeof_set_t * (Z.of_nat i + Z.of_nat n) ≤ bytes →
  0 ≤ E ≤ INT_MAX →
  init_sets malloc_ok bytes E i n =
    if forallb (λ j, malloc_ok (S j) (sizeof_line_t * E)) (seq i n)
    then Ok (replicate n {| lines := replicate (Z.to_nat E) empty_line |})
    else Exit.
Proof.
  revert i. induction n as [|n IH]; intros i Hroom HE; simpl; [reflexivity|].
  unfold sizeof_set_t in *. unfold INT_MAX in HE.
  destruct (Z.leb_spec (8 * (Z.of_nat i + 1)) bytes); [|lia].
  rewrite (to_uint64_small E) by lia.
  assert (Hl : to_uint64 (sizeof_line_t * E) = sizeof_line_t * E)
    by (unfold sizeof_line_t; apply to_uint64_small; lia).
  rewrite Hl. destruct (malloc_ok (S i) (sizeof_line_t * E)); simpl; [|reflexivity].
  rewrite init_lines_defined by (unfold sizeof_line_t; lia). simpl.
  rewrite IH by (unfold INT_MAX; lia).
  destruct (forallb _ _); reflexivity.
Qed.

(** X11 (the construction fails cleanly).  For [0 <= s <= 60], an [int]
    [E > 0] and [b >= 0], the construction has no undefined behaviour whatever
    [malloc] does: it produces the cache of [2^s] sets of [E] invalid lines
    when the allocation of the array of sets and the [2^s] allocations of
    lines all succeed, and exits with a failure as soon as one of them
    fails. *)
Theorem construction_outcome (s E b : Z) :
  0 ≤ s ≤ 60 → 0 < E ≤ INT_MAX → 0 ≤ b →
  main_init malloc_ok s E b true =
    if malloc_ok 0%nat (sizeof_set_t * 2^s)
       && forallb (λ j, malloc_ok (S j) (sizeof_line_t * E))
            (seq 0 (Z.to_nat (2^s)))
    then Ok (fresh_state s E b)
    else Exit.
Proof.
  intros Hs HE Hb. unfold main_init.
  destruct (Z.ltb_spec s 0); [lia|].
  destruct (Z.leb_spec E 0); [lia|].
  destruct (Z.ltb_spec b 0); [lia|]. simpl.
  unfold init_cache, ull_shl. simpl.
  destruct (Z.leb_spec 64 s); [lia|].
  destruct (Z.leb_spec 0 s); [|lia]. destruct (Z.ltb_spec s 64); [|lia]. simpl.
  rewrite Z.shiftl_mul_pow2, Z.mul_1_l by lia.
  pose proof (pow2_lt_64 s ltac:(lia)) as Hpow.
  assert (2^s ≤ 2^60) as Hle by (apply Z.pow_le_mono_r; lia).
  rewrite (to_uint64_small (2^s)) by lia.
  rewrite (to_uint64_small (sizeof_set_t * 2^s)) by (unfold sizeof_set_t; lia).
  destruct (malloc_ok 0%nat (sizeof_set_t * 2^s)); simpl; [|reflexivity].
  rewrite init_sets_outcome by (unfold sizeof_set_t; lia).
  destruct (forallb _ _); reflexivity.
Qed.

End ConstructionOutcome.

(** ** The summary of a run *)

Section SummaryProofs.

Variable sscanf_line : string → Z * (ascii * Z * Z).
Variable malloc_ok : nat → Z → bool.

Lemma access_seq_reachable st addrs st' :
  reachable malloc_ok st → access_seq st addrs = Ok st' →
  reachable malloc_ok st' ∧
  glob_s st' = glob_s st ∧ cache_E (cache st') = cache_E (cache st).
Proof.
  revert st. induction addrs as [|a addrs IH]; intros st Hreach H; simpl in H.
  - injection H as <-. auto.
  - apply bind_Ok in H as ([st1 r] & H1 & H).
    destruct (IH st1) as (Hreach' & Hs & HE); [eapply reachable_access; eauto|exact H|].
    split; [exact Hreach'|].
    apply access_data_step, access_step_frame in H1
      as (si & t & set & k & l & l' & _ & _ & _ & Hc & (Hs1 & _) & _).
    rewrite Hs, HE, Hs1, Hc. auto.
Qed.

(** X12 (the summary).  When [main] completes, the triple it passes to
    [printSummary] satisfies: hits plus misses is the number of accesses of
    the trace (two for a Modify, one for a Load or a Store); no count is
    negative; the evictions are at most the misses, and at least the misses
    less the [2^s * E] lines of the cache. *)
Theorem main_summary (s E b : Z) (bufs : list string) (h m e : Z) :
  main sscanf_line malloc_ok s E b (Some (Some bufs)) = Ok (h, m, e) →
  h + m = Z.of_nat (length (trace_accesses sscanf_line bufs)) ∧
  0 ≤ h ∧ 0 ≤ e ≤ m ∧ m - 2^s * E ≤ e.
Proof.
  unfold main. intros H.
  apply bind_Ok in H as (st0 & H0 & H).
  apply bind_Ok in H as (st & Hrun & H). injection H as <- <- <-.
  assert (Hfresh : fresh malloc_ok st0).
  { exists s, E, b. destruct (bool_decide _) eqn:Hd; [exact H0|].
    apply main_init_Ok in H0 as (_ & _ & _ & [=] & _). }
  apply main_init_Ok in H0 as (_ & _ & _ & _ & Hst0).
  simpl in Hrun. rewrite replay_lines_accesses in Hrun.
  pose proof (access_seq_counts _ _ _ Hrun) as [_ Hsum].
  destruct (access_seq_reachable _ _ _ (reachable_fresh _ _ Hfresh) Hrun)
    as (Hreach & Hs & HE).
  pose proof (reachable_occupancy _ _ Hreach) as (_ & _ & _ & Hocc).
  assert (Hbound : Z.of_nat (valid_total st) ≤ 2 ^ glob_s st * cache_E (cache st)).
  { pose proof (reachable_invariant _ _ Hreach) as ([Hs' _ HE' Hsets Hlines] & _ & _).
    assert (Hb : (valid_total st ≤
              length (cache_sets (cache st)) * Z.to_nat (cache_E (cache st)))%nat).
    { apply sum_list_with_bound. intros set Hin.
      apply list_elem_of_lookup in Hin as [si Hset].
      rewrite <- (Hlines _ _ Hset). apply count_valid_le_length. }
    rewrite Hsets in Hb.
    assert (0 < 2 ^ glob_s st) by (apply Z.pow_pos_nonneg; lia).
    apply Nat2Z.inj_le in Hb. rewrite Nat2Z.inj_mul, !Z2Nat.id in Hb by lia.
    exact Hb. }
  apply reachable_invariant in Hreach as (_ & [Hh Hm He _ _] & _).
  rewrite Hs, HE, Hst0 in Hbound. rewrite Hst0 in Hsum. simpl in *.
  repeat split; lia.
Qed.

End SummaryProofs.

(** ** The verbose output *)

Section VerboseProofs.

Variable sscanf_line : string → Z * (ascii * Z * Z).
Variable printf_op : ascii → Z → Z → string.

(** Forgetting the output gives the replayer of the specification, for
    results and failures alike. *)
Lemma replay_line_verbose_state verbose st out buf :
  replay_line_verbose sscanf_line printf_op verbose st out buf ≫= (λ p, Ok p.1)
  = replay_line sscanf_line st buf.
Proof.
  unfold replay_line_verbose, replay_line.
  destruct (sscanf_line buf) as [n [[op addr] size]].
  destruct (n =? 3); simpl; [|reflexivity].
  destruct (Ascii.eqb op "I"); [reflexivity|].
  destruct (Ascii.eqb op "M"); simpl.
  { destruct (access_data st _) as [[st1 r1]| |]; simpl; [|reflexivity..].
    destruct (access_data st1 _) as [[st2 r2]| |]; reflexivity. }
  destruct (Ascii.eqb op "L" || Ascii.eqb op "S"); simpl; [|reflexivity].
  destruct (access_data st _) as [[st1 r1]| |]; reflexivity.
Qed.

Lemma replay_lines_verbose_state verbose st out bufs :
  replay_lines_verbose sscanf_line printf_op verbose st out bufs ≫= (λ p, Ok p.1)
  = replay_lines sscanf_line st bufs.
Proof.
  revert st out. induction bufs as [|buf bufs IH]; intros st out; [reflexivity|].
  simpl. rewrite <- (replay_line_verbose_state verbose st out buf).
  destruct (replay_line_verbose _ _ _ _ _ _) as [[st1 out1]| |]; simpl; auto.
Qed.

Lemma replay_line_quiet st out buf st' out' :
  replay_line_verbose sscanf_line printf_op false st out buf = Ok (st', out') →
  out' = out.
Proof.
  unfold replay_line_verbose.
  destruct (sscanf_line buf) as [n [[op addr] size]].
  destruct (n =? 3); simpl; [|intros [= _ <-]; reflexivity].
  destruct (Ascii.eqb op "I"); [intros [= _ <-]; reflexivity|].
  destruct (Ascii.eqb op "M"); simpl.
  { destruct (access_data st _) as [[st1 r1]| |]; simpl; [|discriminate..].
    destruct (access_data st1 _) as [[st2 r2]| |]; simpl; [|discriminate..].
    intros [= _ <-]; reflexivity. }
  destruct (Ascii.eqb op "L" || Ascii.eqb op "S"); simpl;
    [|intros [= _ <-]; reflexivity].
  destruct (access_data st _) as [[st1 r1]| |]; simpl; [|discriminate..].
  intros [= _ <-]; reflexivity.
Qed.

(** X14 (what [-v] prints for a line).  With [-v], a line that scans as
    three fields with an operation other than [I] prints its operation, then
    for each call of [access_data] that the line makes, in order, the text of
    the value the call returned ([" hit"], [" miss"] or [" miss eviction"]),
    then a newline; for an operation that is none of [L], [S], [M] that is
    the operation and the newline alone.  Any other line prints nothing. *)
Theorem verbose_line_output (st : state) (out : list string) (buf : string)
    (st' : state) (out' : list string) :
  replay_line_verbose sscanf_line printf_op true st out buf = Ok (st', out') →
  ∃ calls,
    access_log st' = access_log st ++ calls ∧
    calls.*1 = line_accesses sscanf_line buf ∧
    out' = out ++
      (if printed_line sscanf_line buf
       then (let '(_, (op, addr, size)) := sscanf_line buf in
             printf_op op addr size)
            :: (outcome_text <$> calls.*2) ++ [newline]
       else []).
Proof.
  unfold replay_line_verbose, line_accesses, printed_line.
  destruct (sscanf_line buf) as [n [[op addr] size]].
  destruct (n =? 3); simpl;
    [|intros [= <- <-]; exists []; rewrite !app_nil_r; auto].
  destruct (Ascii.eqb op "I") eqn:HI; simpl.
  { apply Ascii.eqb_eq in HI as ->. simpl.
    intros [= <- <-]; exists []; rewrite !app_nil_r; auto. }
  destruct (Ascii.eqb op "M"); simpl.
  { destruct (access_data st _) as [[st1 r1]| |] eqn:H1; simpl; [|discriminate..].
    destruct (access_data st1 _) as [[st2 r2]| |] eqn:H2; simpl; [|discriminate..].
    intros [= <- <-].
    apply access_data_counts in H1 as [Hlog1 _].
    apply access_data_counts in H2 as [Hlog2 _].
    exists [(to_uint64 addr, r1); (to_uint64 addr, r2)].
    rewrite Hlog2, Hlog1, <- !app_assoc. auto. }
  destruct (Ascii.eqb op "L" || Ascii.eqb op "S"); simpl.
  { destruct (access_data st _) as [[st1 r1]| |] eqn:H1; simpl; [|discriminate..].
    intros [= <- <-].
    apply access_data_counts in H1 as [Hlog1 _].
    exists [(to_uint64 addr, r1)]. rewrite Hlog1, <- !app_assoc. auto. }
  intros [= <- <-]. exists []. rewrite app_nil_r, <- !app_assoc. auto.
Qed.

Lemma replay_trace_verbose_state verbose st file :
  replay_trace_verbose sscanf_line printf_op verbose st file ≫= (λ p, Ok p.1)
  = replay_trace sscanf_line st file.
Proof.
  destruct file as [bufs|]; [|reflexivity]. apply replay_lines_verbose_state.
Qed.

(** X13 (the flag [-v] only prints).  Whether [verbose] is set or not,
    [replay_trace] leaves the same state, or fails in the same way: the
    counters do not depend on the flag.  Without the flag nothing is
    printed. *)
Theorem verbose_only_prints (verbose : bool) (st : state)
    (file : option (list string)) :
  replay_trace_verbose sscanf_line printf_op verbose st file ≫= (λ p, Ok p.1)
  = replay_trace sscanf_line st file ∧
  ∀ st' out,
    replay_trace_verbose sscanf_line printf_op false st file = Ok (st', out) →
    out = [].
Proof.
  split.
  - apply replay_trace_verbose_state.
  - destruct file as [bufs|]; [|discriminate]. simpl.
    generalize (@nil string). revert st.
    induction bufs as [|buf bufs IH]; intros st out0 st' out H; simpl in H.
    + injection H as _ <-. reflexivity.
    + apply bind_Ok in H as ([st1 out1] & H1 & H).
      apply replay_line_quiet in H1 as ->. eapply IH; eauto.
Qed.

End VerboseProofs.

(** ** [free_cache] *)

Lemma decompose_not_Exit s b addr : decompose s b addr ≠ Exit.
Proof.
  unfold decompose, ull_shl, ull_shr, int_add.
  destruct (0 <? s);
    repeat (match goal with
            | |- context [if ?c then _ else _] => destruct c; simpl
            end); discriminate.
Qed.

(** X15 ([free_cache]).  Whatever the state, [free_cache] leaves a cache
    without sets and does not touch the counters; thanks to its test of the
    null pointer a second call changes nothing; and every call of
    [access_data] on the freed cache is undefined. *)
Theorem free_cache_releases (st : state) :
  cache_sets (cache (free_cache st)) = [] ∧
  (hit_count (free_cache st), miss_count (free_cache st),
   eviction_count (free_cache st)) =
    (hit_count st, miss_count st, eviction_count st) ∧
  free_cache (free_cache st) = free_cache st ∧
  ∀ addr, access_data (free_cache st) addr = UB.
Proof.
  assert (Hnil : cache_sets (cache (free_cache st)) = []).
  { unfold free_cache. destruct (cache_sets (cache st)) eqn:Hs; [exact Hs|reflexivity]. }
  split; [exact Hnil|]. split; [|split].
  - unfold free_cache. destruct (cache_sets (cache st)); reflexivity.
  - unfold free_cache at 1. rewrite Hnil. reflexivity.
  - intros addr. unfold access_data.
    destruct (decompose _ _ addr) as [[si t]| |] eqn:Hdec; simpl.
    + unfold access_set, index. rewrite Hnil. reflexivity.
    + exfalso. exact (decompose_not_Exit _ _ _ Hdec).
    + reflexivity.
Qed.

(** ** The options of [main] *)

Section MainProofs.

Variable atoi : string → Z.
Variable strdup : string → option string.
Variable fopen : string → option (list string).
Variable sscanf_line : string → Z * (ascii * Z * Z).
Variable printf_op : ascii → Z → Z → string.
Variable malloc_ok : nat → Z → bool.

(** Takes the [switch] of [parse_options] apart on the option [opt]. *)
Ltac case_option opt :=
  unfold known_option;
  destruct (Ascii.eqb opt "s") eqn:?; simpl;
  [|destruct (Ascii.eqb opt "E") eqn:?; simpl;
    [|destruct (Ascii.eqb opt "b") eqn:?; simpl;
      [|destruct (Ascii.eqb opt "t") eqn:?; simpl;
        [|destruct (Ascii.eqb opt "v") eqn:?; simpl]]]].

Lemma parse_options_outcome o args :
  (Forall (λ p, known_option p.1 = true) args →
   ∃ o', parse_options atoi strdup o args = Ok o') ∧
  (Exists (λ p, known_option p.1 = false) args →
   parse_options atoi strdup o args = Exit).
Proof.
  revert o. induction args as [|[opt optarg] args IH]; intros o.
  - split; [eauto|]. intros H. inversion H.
  - split.
    + intros H. apply Forall_cons in H as [Hk H]. simpl in Hk. revert Hk.
      simpl parse_options. case_option opt; intros Hk;
        try (apply IH; exact H). discriminate.
    + intros H. simpl parse_options.
      case_option opt; try (apply IH; apply Exists_cons in H as [Hk|H];
                              [simpl in Hk; unfold known_option in Hk;
                               repeat match goal with
                                      | Heq : Ascii.eqb opt _ = _ |- _ =>
                                          rewrite Heq in Hk
                                      end; simpl in Hk; discriminate
                              |exact H]).
      reflexivity.
Qed.

(** An option that does not occur keeps its initial value. *)
Lemma parse_options_keeps o args o' :
  parse_options atoi strdup o args = Ok o' →
  (Forall (λ p, p.1 ≠ "t"%char) args → opt_tracefile o' = opt_tracefile o) ∧
  (Forall (λ p, p.1 ≠ "E"%char) args → opt_E o' = opt_E o) ∧
  (Forall (λ p, p.1 ≠ "s"%char) args → opt_s o' = opt_s o) ∧
  (Forall (λ p, p.1 ≠ "b"%char) args → opt_b o' = opt_b o).
Proof.
  revert o. induction args as [|[opt optarg] args IH]; intros o H.
  - injection H as <-. auto.
  - simpl in H. revert H.
    case_option opt; intros H; try discriminate;
      destruct (IH _ H) as (Ht & HE & Hs & Hb); simpl in Ht, HE, Hs, Hb;
      repeat split; intros Hall; apply Forall_cons in Hall as [Hopt Hall];
      simpl in Hopt;
      repeat match goal with
             | Heq : Ascii.eqb opt _ = true |- _ => apply Ascii.eqb_eq in Heq; subst opt
             end; try contradiction; auto.
Qed.

(** X16 (unknown options).  [main] exits with a failure, before it builds
    a cache or opens the trace, as soon as [getopt] has returned anything else
    than [s], [E], [b], [t] or [v] (as it does for [-h] and for an option it
    does not know), whatever the other options are; when every option is one
    of the five, the option loop completes. *)
Theorem unknown_option_exits (args : list (ascii * string)) :
  (Exists (λ p, known_option p.1 = false) args →
   main_argv atoi strdup fopen sscanf_line printf_op malloc_ok args = Exit) ∧
  (Forall (λ p, known_option p.1 = true) args →
   ∃ o, parse_options atoi strdup no_options args = Ok o).
Proof.
  destruct (parse_options_outcome no_options args) as [Hok Hexit].
  split; [|exact Hok].
  intros H. unfold main_argv. rewrite (Hexit H). reflexivity.
Qed.

(** X17 (required options).  Without an option [-t], or without an option
    [-E], [main] exits with a failure whatever the other options are.  The
    options [-s] and [-b] are not required in this sense: when the option loop
    completes without them, they are 0. *)
Theorem missing_option_exits (args : list (ascii * string)) :
  (Forall (λ p, p.1 ≠ "t"%char) args ∨ Forall (λ p, p.1 ≠ "E"%char) args →
   main_argv atoi strdup fopen sscanf_line printf_op malloc_ok args = Exit) ∧
  ∀ o, parse_options atoi strdup no_options args = Ok o →
    (Forall (λ p, p.1 ≠ "s"%char) args → opt_s o = 0) ∧
    (Forall (λ p, p.1 ≠ "b"%char) args → opt_b o = 0).
Proof.
  split.
  - intros Hmiss. unfold main_argv.
    destruct (parse_options atoi strdup no_options args) as [o| |] eqn:Hparse; simpl;
      [|reflexivity|].
    + destruct (parse_options_keeps _ _ _ Hparse) as (Ht & HE & _).
      unfold main_init. destruct Hmiss as [Hmiss|Hmiss].
      * rewrite (Ht Hmiss). simpl.
        destruct (opt_s o <? 0), (opt_E o <=? 0), (opt_b o <? 0); reflexivity.
      * rewrite (HE Hmiss). simpl. destruct (opt_s o <? 0); reflexivity.
    + exfalso. clear Hmiss. revert Hparse. generalize no_options.
      induction args as [|[opt optarg] args IH]; intros o; simpl; [discriminate|].
      case_option opt; try discriminate; apply IH.
  - intros o Hparse.
    destruct (parse_options_keeps _ _ _ Hparse) as (_ & _ & Hs & Hb). auto.
Qed.

(** X18 ([main] with its options).  Once the option loop has completed,
    the triple that the whole of [main] passes to [printSummary] is the one
    computed without the output and the final [free_cache], for the values of
    [-s], [-E], [-b] and the file of [-t], whether [-v] is given or not; and
    the state that [main] leaves has no sets. *)
Theorem main_argv_summary (args : list (ascii * string)) (o : options) :
  parse_options atoi strdup no_options args = Ok o →
  main_argv atoi strdup fopen sscanf_line printf_op malloc_ok args
    ≫= (λ res, Ok res.1.1)
  = main sscanf_line malloc_ok (opt_s o) (opt_E o) (opt_b o)
      (fopen <$> opt_tracefile o) ∧
  ∀ res, main_argv atoi strdup fopen sscanf_line printf_op malloc_ok args = Ok res →
    cache_sets (cache res.2) = [].
Proof.
  intros Hparse. unfold main_argv, main. rewrite Hparse. simpl.
  assert (Hflag : bool_decide (is_Some (fopen <$> opt_tracefile o)) =
                  bool_decide (is_Some (opt_tracefile o))).
  { destruct (opt_tracefile o); reflexivity. }
  assert (Hfile : (fopen <$> opt_tracefile o) ≫= id = opt_tracefile o ≫= fopen).
  { destruct (opt_tracefile o); reflexivity. }
  rewrite Hflag, Hfile. split.
  - destruct (main_init _ _ _ _ _) as [st0| |]; simpl; [|reflexivity..].
    rewrite <- (replay_trace_verbose_state sscanf_line printf_op (opt_verbose o) st0).
    destruct (replay_trace_verbose _ _ _ _ _) as [[st out]| |]; reflexivity.
  - intros res H.
    apply bind_Ok in H as (st0 & _ & H).
    apply bind_Ok in H as ([st out] & _ & H). injection H as <-. simpl.
    unfold free_cache. destruct (cache_sets (cache st)) eqn:Hs; [exact Hs|reflexivity].
Qed.

End MainProofs.

(** ** Reading the trace *)

Lemma fgets_take_spec room stream buf rest :
  fgets_take room stream = (buf, rest) →
  (buf ++ rest)%string = stream ∧ (String.length buf ≤ room)%nat ∧
  ((1 ≤ room)%nat → stream ≠ EmptyString → (1 ≤ String.length buf)%nat).
Proof.
  revert stream buf rest.
  induction room as [|room IH]; intros stream buf rest H; simpl in H.
  - injection H as <- <-. simpl. repeat split; intros; lia.
  - destruct stream as [|c stream].
    { injection H as <- <-. simpl. repeat split; intros; try lia. congruence. }
    destruct (Ascii.eqb c "010").
    + injection H as <- <-. simpl. repeat split; intros; lia.
    + destruct (fgets_take room stream) as [buf' rest'] eqn:Htake.
      injection H as <- <-. destruct (IH _ _ _ Htake) as (Happ & Hlen & _).
      simpl. rewrite Happ. repeat split; intros; lia.
Qed.

Lemma string_length_append (a b : string) :
  String.length (a ++ b) = (String.length a + String.length b)%nat.
Proof. induction a as [|c a IH]; simpl; [reflexivity|]. rewrite IH. reflexivity. Qed.

Lemma read_buffers_step fuel c stream :
  read_buffers (S fuel) (String c stream) =
    (fgets_take 255 (String c stream)).1
      :: read_buffers fuel (fgets_take 255 (String c stream)).2.
Proof.
  change (read_buffers (S fuel) (String c stream))
    with (let '(buf, rest) := fgets_take 255 (String c stream) in
          buf :: read_buffers fuel rest).
  destruct (fgets_take 255 (String c stream)). reflexivity.
Qed.

(** More calls than the stream has characters read nothing more. *)
Lemma read_buffers_fuel fuel1 fuel2 stream :
  (String.length stream ≤ fuel1)%nat → (String.length stream ≤ fuel2)%nat →
  read_buffers fuel1 stream = read_buffers fuel2 stream.
Proof.
  revert fuel2 stream. induction fuel1 as [|fuel1 IH]; intros fuel2 stream H1 H2.
  - destruct stream; [|simpl in H1; lia]. destruct fuel2; reflexivity.
  - destruct stream as [|c stream]; [destruct fuel2; reflexivity|].
    destruct fuel2 as [|fuel2]; [simpl in H2; lia|].
    rewrite !read_buffers_step.
    destruct (fgets_take 255 (String c stream)) as [buf rest] eqn:Htake.
    destruct (fgets_take_spec _ _ _ _ Htake) as (Happ & _ & Hpos).
    specialize (Hpos ltac:(lia) ltac:(discriminate)).
    assert (String.length rest < String.length (String c stream))%nat.
    { rewrite <- Happ, string_length_append. lia. }
    simpl fst. simpl snd. f_equal. apply IH; simpl in *; lia.
Qed.

Lemma file_buffers_cons content buf rest :
  content ≠ EmptyString →
  fgets_take 255 content = (buf, rest) →
  file_buffers content = buf :: file_buffers rest.
Proof.
  intros Hne Htake. unfold file_buffers.
  destruct content as [|c content]; [contradiction|].
  change (String.length (String c content)) with (S (String.length content)).
  rewrite read_buffers_step, Htake. simpl fst. simpl snd. f_equal.
  destruct (fgets_take_spec _ _ _ _ Htake) as (Happ & _ & Hpos).
  specialize (Hpos ltac:(lia) Hne).
  apply read_buffers_fuel; [|lia].
  assert (String.length (String c content) =
          (String.length buf + String.length rest)%nat)
    by (rewrite <- Happ; apply string_length_append).
  simpl in *. lia.
Qed.

Lemma fgets_take_line room line rest :
  no_newline line = true → (String.length line < room)%nat →
  fgets_take room (line ++ newline ++ rest) = ((line ++ newline)%string, rest).
Proof.
  revert room. induction line as [|c line IH]; intros room Hnl Hlen.
  - destruct room; [simpl in Hlen; lia|]. reflexivity.
  - destruct room; [simpl in Hlen; lia|]. simpl in *.
    apply andb_prop in Hnl as [Hc Hnl]. apply negb_true_iff in Hc. rewrite Hc.
    rewrite IH by (auto; lia). reflexivity.
Qed.

Lemma fgets_take_chunk chunk rest :
  no_newline chunk = true →
  fgets_take (String.length chunk) (chunk ++ rest) = (chunk, rest).
Proof.
  induction chunk as [|c chunk IH]; intros Hnl; [reflexivity|].
  simpl in *. apply andb_prop in Hnl as [Hc Hnl]. apply negb_true_iff in Hc.
  rewrite Hc, IH by exact Hnl. reflexivity.
Qed.

(** X19 (reading the trace).  The loop [while (fgets(buf, sizeof(buf),
    fp))] with its buffer of 256 characters loses nothing of the file: the
    buffers it sees, put end to end, are the file, and each holds between 1
    and 255 characters.  A line of at most 254 characters with its newline
    is seen whole, in one iteration; of a longer line the first 255
    characters are seen as a line of their own and the rest is read by the
    later iterations. *)
Theorem trace_is_read_in_buffers (content : string) :
  foldr String.append EmptyString (file_buffers content) = content ∧
  Forall (λ buf, 1 ≤ String.length buf ≤ 255)%nat (file_buffers content) ∧
  (∀ line rest,
     no_newline line = true → (String.length line ≤ 254)%nat →
     content = (line ++ newline ++ rest)%string →
     file_buffers content = (line ++ newline)%string :: file_buffers rest) ∧
  (∀ chunk rest,
     no_newline chunk = true → String.length chunk = 255%nat →
     content = (chunk ++ rest)%string →
     file_buffers content = chunk :: file_buffers rest).
Proof.
  assert (Hwhole : ∀ n content, (String.length content ≤ n)%nat →
            foldr String.append EmptyString (file_buffers content) = content ∧
            Forall (λ buf, 1 ≤ String.length buf ≤ 255)%nat (file_buffers content)).
  { induction n as [|n IH]; intros c Hlen.
    - destruct c; [|simpl in Hlen; lia]. split; [reflexivity|constructor].
    - destruct c as [|a c]; [split; [reflexivity|constructor]|].
      destruct (fgets_take 255 (String a c)) as [buf rest] eqn:Htake.
      destruct (fgets_take_spec _ _ _ _ Htake) as (Happ & Hmax & Hpos).
      specialize (Hpos ltac:(lia) ltac:(discriminate)).
      assert (Hne : String a c ≠ EmptyString) by discriminate.
      rewrite (file_buffers_cons _ _ _ Hne Htake).
      destruct (IH rest) as [Hcat Hall].
      { assert (String.length (String a c) =
                (String.length buf + String.length rest)%nat)
          by (rewrite <- Happ; apply string_length_append).
        simpl in *. lia. }
      split.
      + simpl. rewrite Hcat. exact Happ.
      + constructor; [lia|exact Hall]. }
  destruct (Hwhole (String.length content) content) as [Hcat Hall]; [lia|].
  split; [exact Hcat|]. split; [exact Hall|]. split.
  - intros line rest Hnl Hlen ->. apply file_buffers_cons.
    + destruct line; discriminate.
    + apply fgets_take_line; [exact Hnl|lia].
  - intros chunk rest Hnl Hlen ->. apply file_buffers_cons.
    + destruct chunk; [discriminate|discriminate].
    + rewrite <- Hlen. apply fgets_take_chunk. exact Hnl.
Qed.

(** ** Traces compose *)

Section CompositionProofs.

Variable sscanf_line : string → Z * (ascii * Z * Z).

(** X20 (a trace in two parts).  Replaying the first part of a trace and
    then, from the state reached, the second part is replaying the whole
    trace, for results and failures alike; when both complete, the hits and
    misses of the whole are those of the first part plus the accesses of the
    second. *)
Theorem replay_in_two_parts (st : state) (bufs1 bufs2 : list string) :
  replay_lines sscanf_line st (bufs1 ++ bufs2) =
    replay_lines sscanf_line st bufs1 ≫= (λ st1, replay_lines sscanf_line st1 bufs2) ∧
  ∀ st1 st2,
    replay_lines sscanf_line st bufs1 = Ok st1 →
    replay_lines sscanf_line st1 bufs2 = Ok st2 →
    replay_lines sscanf_line st (bufs1 ++ bufs2) = Ok st2 ∧
    hit_count st2 + miss_count st2 =
      hit_count st1 + miss_count st1
      + Z.of_nat (length (trace_accesses sscanf_line bufs2)).
Proof.
  assert (Happ : ∀ st, replay_lines sscanf_line st (bufs1 ++ bufs2) =
            replay_lines sscanf_line st bufs1
              ≫= (λ st1, replay_lines sscanf_line st1 bufs2)).
  { clear st. induction bufs1 as [|buf bufs1 IH]; intros st; [reflexivity|].
    simpl. destruct (replay_line sscanf_line st buf); simpl; auto. }
  split; [apply Happ|].
  intros st1 st2 H1 H2. split.
  - rewrite Happ, H1. exact H2.
  - rewrite replay_lines_accesses in H2.
    apply access_seq_counts in H2 as [_ Hsum]. exact Hsum.
Qed.

End CompositionProofs.


(** * The further properties on sample inputs *)

Lemma warm_state_reachable : reachable malloc_always warm_state.
Proof.
  apply (access_seq_reachable malloc_always (fresh_state 0 2 0) [7; 9]).
  - apply reachable_fresh. exists 0, 2, 0. reflexivity.
  - reflexivity.
Defined.

(** The address 1 misses in the cache that holds the blocks 7 and 9 and has
    no line left: the call returns 2, counts a miss and an eviction, and both
    lines of the set were valid; the address 9 hits and counts no eviction. *)
Lemma eviction_within_miss_witness :
  reachable malloc_always warm_state ∧
  eviction_count warm_state ≤ miss_count warm_state ∧
  (∃ st', access_data warm_state 1 = Ok (st', 2) ∧
     eviction_count st' = eviction_count warm_state + 1 ∧
     miss_count st' = miss_count warm_state + 1 ∧
     ∃ si t set,
       decompose (glob_s warm_state) (glob_b warm_state) 1 = Ok (si, t) ∧
       cache_sets (cache warm_state) !! Z.to_nat si = Some set ∧
       ∀ j, (j < Z.to_nat (cache_E (cache warm_state)))%nat →
         ∃ l, lines set !! j = Some l ∧ valid l = true) ∧
  (∃ st', access_data warm_state 9 = Ok (st', 0) ∧
     eviction_count st' = eviction_count warm_state).
Proof.
  destruct (eviction_within_miss malloc_always) as (Hle & Hevict & Hkeep).
  split; [exact warm_state_reachable|].
  split; [exact (Hle warm_state warm_state_reachable)|]. split.
  - eexists. split; [reflexivity|].
    exact (Hevict warm_state 1 _ eq_refl).
  - eexists. split; [reflexivity|].
    apply (Hkeep warm_state 9 _ 0 eq_refl). discriminate.
Defined.

(** In the same cache the two lines are valid with the stamps 1 and 2 of the
    two calls made; the call for the address 1 takes the counter from 2 to 3
    and evicts the line that is strictly older than the other. *)
Lemma time_stamps_distinct_witness :
  reachable malloc_always warm_state ∧
  (∃ l1 l2,
     line_at warm_state 0 0 = Some l1 ∧ line_at warm_state 0 1 = Some l2 ∧
     valid l1 = true ∧ valid l2 = true ∧
     1 ≤ last_used l1 ≤ use_counter warm_state ∧
     1 ≤ last_used l2 ≤ use_counter warm_state ∧
     last_used l1 ≠ last_used l2) ∧
  (∃ st', access_data warm_state 1 = Ok (st', 2) ∧
     use_counter st' = use_counter warm_state + 1 ∧
     ∃ si t set k lk,
       decompose (glob_s warm_state) (glob_b warm_state) 1 = Ok (si, t) ∧
       cache_sets (cache warm_state) !! Z.to_nat si = Some set ∧
       lines set !! k = Some lk ∧
       cache_sets (cache st') =
         <[Z.to_nat si :=
             {| lines := <[k := {| valid := true; tag := t;
                                   last_used := use_counter warm_state + 1 |}]>
                           (lines set) |}]> (cache_sets (cache warm_state)) ∧
       ∀ j l, j ≠ k → lines set !! j = Some l → last_used lk < last_used l).
Proof.
  destruct (time_stamps_distinct malloc_always warm_state warm_state_reachable)
    as (Hstep & Hrange & Hdist & Hevict).
  split; [exact warm_state_reachable|]. split.
  - exists {| valid := true; tag := 7; last_used := 1 |},
           {| valid := true; tag := 9; last_used := 2 |}.
    assert (H1 : line_at warm_state 0 0 =
                   Some {| valid := true; tag := 7; last_used := 1 |})
      by reflexivity.
    assert (H2 : line_at warm_state 0 1 =
                   Some {| valid := true; tag := 9; last_used := 2 |})
      by reflexivity.
    split; [exact H1|]. split; [exact H2|].
    split; [reflexivity|]. split; [reflexivity|].
    split; [exact (Hrange _ _ _ H1 eq_refl)|].
    split; [exact (Hrange _ _ _ H2 eq_refl)|].
    apply (Hdist 0%nat 0%nat 1%nat _ _ H1 H2 eq_refl eq_refl). discriminate.
  - eexists. split; [reflexivity|].
    split; [exact (Hstep 1 _ 2 eq_refl)|].
    exact (Hevict 1 _ eq_refl).
Defined.

Lemma resident_tags_distinct_witness :
  reachable malloc_always warm_state ∧
  tag {| valid := true; tag := 7; last_used := 1 |}
  ≠ tag {| valid := true; tag := 9; last_used := 2 |}.
Proof.
  split; [exact warm_state_reachable|].
  apply (resident_tags_distinct malloc_always warm_state warm_state_reachable
           0%nat 0%nat 1%nat); try reflexivity. lia.
Defined.

Lemma valid_lines_are_a_prefix_witness :
  ∃ l', line_at warm_state 0 0 = Some l' ∧ valid l' = true.
Proof.
  apply (valid_lines_are_a_prefix malloc_always warm_state warm_state_reachable
           0%nat 0%nat 1%nat {| valid := true; tag := 9; last_used := 2 |});
    [reflexivity|reflexivity|lia].
Defined.

Lemma occupancy_is_misses_less_evictions_witness :
  Z.of_nat (valid_total warm_state) = 2 - 0 ∧ 2 - 0 ≤ 2 ^ 0 * 2.
Proof.
  exact (occupancy_is_misses_less_evictions malloc_always warm_state
           warm_state_reachable).
Defined.

Lemma hit_has_earlier_access_witness :
  ∃ addr0 r0,
    (addr0, r0) ∈ access_log warm_state ∧
    decompose 0 0 addr0 = decompose 0 0 9.
Proof.
  exact (hit_has_earlier_access malloc_always warm_state 9 _
           warm_state_reachable eq_refl).
Defined.

Lemma eviction_needs_full_set_witness :
  ∃ si t set,
    decompose 0 0 1 = Ok (si, t) ∧
    cache_sets (cache warm_state) !! Z.to_nat si = Some set ∧
    Z.of_nat (length (lines set)) = 2 ∧
    NoDup (tag <$> lines set) ∧
    ∀ x, x ∈ lines set →
      valid x = true ∧ tag x ≠ t ∧ accessed_before warm_state (Z.to_nat si) (tag x).
Proof.
  exact (eviction_needs_full_set malloc_always warm_state 1 _
           warm_state_reachable eq_refl).
Defined.

Lemma access_then_same_block_hits_witness :
  well_formed (fresh_state 0 1 4) ∧
  Z.shiftr 17 4 = Z.shiftr 16 4 ∧
  ∃ st1, access_data (fresh_state 0 1 4) 16 = Ok (st1, 1) ∧
         ∃ st2, access_data st1 17 = Ok (st2, 0).
Proof.
  assert (Hwf : well_formed (fresh_state 0 1 4))
    by (apply fresh_well_formed; lia).
  split; [exact Hwf|]. split; [reflexivity|].
  eexists. split; [reflexivity|].
  apply (access_then_same_block_hits (fresh_state 0 1 4) 16 _ 1 17 Hwf eq_refl eq_refl).
  vm_compute. reflexivity.
Defined.

Lemma decompose_identifies_block_witness :
  0 ≤ 1 ∧ decompose 1 4 272 = Ok (1, 8) ∧ Z.shiftr 272 4 = 8 * 2^1 + 1.
Proof.
  assert (Hs : 0 ≤ 1) by lia.
  assert (Hdec : decompose 1 4 272 = Ok (1, 8)) by reflexivity.
  split; [exact Hs|]. split; [exact Hdec|].
  exact (proj1 (proj2 (decompose_identifies_block 1 4 272 1 8 Hs Hdec))).
Defined.

Lemma most_recent_block_survives_witness :
  2 ≤ cache_E (cache warm_state) ∧
  ∃ st1 st2,
    access_data warm_state 1 = Ok (st1, 2) ∧
    access_data st1 3 = Ok (st2, 2) ∧
    ∃ st3, access_data st2 1 = Ok (st3, 0).
Proof.
  assert (HE : 2 ≤ cache_E (cache warm_state)) by (simpl; lia).
  split; [exact HE|].
  eexists. eexists. split; [reflexivity|]. split; [reflexivity|].
  apply (most_recent_block_survives malloc_always warm_state 1 _ 2 3 _ 2
           warm_state_reachable HE eq_refl eq_refl).
  vm_compute. reflexivity.
Defined.

Lemma access_data_is_safe_witness :
  ∃ st' r, access_data warm_state 5 = Ok (st', r) ∧ (r = 0 ∨ r = 1 ∨ r = 2) ∧
           reachable malloc_always st' ∧ glob_b st' + glob_s st' < 64.
Proof.
  apply (access_data_is_safe malloc_always warm_state 5 warm_state_reachable);
    vm_compute; reflexivity.
Defined.

Lemma other_set_does_not_interfere_witness :
  decompose 1 0 0 = Ok (0, 0) ∧ decompose 1 0 1 = Ok (1, 0) ∧ 0 ≠ 1 ∧
  ∃ st1 st2 st3,
    access_data (fresh_state 1 1 0) 0 = Ok (st1, 1) ∧
    access_data (fresh_state 1 1 0) 1 = Ok (st2, 1) ∧
    access_data st2 0 = Ok (st3, 1).
Proof.
  assert (Hne : 0 ≠ 1) by lia.
  split; [reflexivity|]. split; [reflexivity|]. split; [exact Hne|].
  eexists. eexists. eexists. split; [reflexivity|]. split; [reflexivity|].
  pose proof (other_set_does_not_interfere (fresh_state 1 1 0) 0 1 0 0 1 0
                _ 1 _ 1 _ 1 eq_refl eq_refl Hne eq_refl eq_refl eq_refl) as Hsame.
  reflexivity.
Defined.

Lemma construction_outcome_witness :
  main_init malloc_twice 2 3 4 true = Exit ∧
  main_init malloc_always 2 3 4 true = Ok (fresh_state 2 3 4).
Proof.
  split.
  - apply (construction_outcome malloc_twice 2 3 4); unfold INT_MAX; lia.
  - apply (construction_outcome malloc_always 2 3 4); unfold INT_MAX; lia.
Defined.

Lemma main_summary_witness :
  main sscanf_trace malloc_always 1 2 4 (Some (Some sample_trace)) = Ok (3, 4, 1) ∧
  3 + 4 = Z.of_nat (length (trace_accesses sscanf_trace sample_trace)) ∧
  0 ≤ 3 ∧ 0 ≤ 1 ≤ 4 ∧ 4 - 2^1 * 2 ≤ 1.
Proof.
  assert (Hrun : main sscanf_trace malloc_always 1 2 4 (Some (Some sample_trace))
                 = Ok (3, 4, 1)) by reflexivity.
  split; [exact Hrun|].
  exact (main_summary sscanf_trace malloc_always 1 2 4 sample_trace 3 4 1 Hrun).
Defined.

Lemma verbose_only_prints_witness :
  replay_trace_verbose sscanf_trace printf_trace true (fresh_state 1 2 4)
    (Some sample_trace) ≫= (λ p, Ok p.1)
  = replay_trace sscanf_trace (fresh_state 1 2 4) (Some sample_trace).
Proof.
  exact (proj1 (verbose_only_prints sscanf_trace printf_trace true
                  (fresh_state 1 2 4) (Some sample_trace))).
Defined.

Lemma verbose_line_output_witness :
  ∃ st' out',
    replay_line_verbose sscanf_trace printf_trace true (fresh_state 1 2 4) []
      " M 20,1" = Ok (st', out') ∧
    ∃ calls,
      access_log st' = [] ++ calls ∧
      calls.*1 = [32; 32] ∧
      out' = [] ++ "M 20,1"%string :: (outcome_text <$> calls.*2) ++ [newline].
Proof.
  eexists. eexists. split; [reflexivity|].
  exact (verbose_line_output sscanf_trace printf_trace (fresh_state 1 2 4) []
           " M 20,1" _ _ eq_refl).
Defined.

Lemma unknown_option_exits_witness :
  main_argv atoi_model Some fopen_sample sscanf_trace printf_trace malloc_always
    (sample_args ++ [("h"%char, ""%string)]) = Exit.
Proof.
  apply (proj1 (unknown_option_exits atoi_model Some fopen_sample sscanf_trace
                  printf_trace malloc_always _)).
  apply Exists_app. right. constructor. reflexivity.
Defined.

Lemma missing_option_exits_witness :
  main_argv atoi_model Some fopen_sample sscanf_trace printf_trace malloc_always
    [("s"%char, "1"%string); ("b"%char, "4"%string); ("t"%char, "trace"%string)]
  = Exit.
Proof.
  apply (proj1 (missing_option_exits atoi_model Some fopen_sample sscanf_trace
                  printf_trace malloc_always _)). right.
  repeat constructor; simpl; discriminate.
Defined.

Lemma main_argv_summary_witness :
  main_argv atoi_model Some fopen_sample sscanf_trace printf_trace malloc_always
    sample_args ≫= (λ res, Ok res.1.1)
  = main sscanf_trace malloc_always 1 2 4 (Some (Some sample_trace)).
Proof.
  exact (proj1 (main_argv_summary atoi_model Some fopen_sample sscanf_trace
                  printf_trace malloc_always sample_args
                  {| opt_s := 1; opt_E := 2; opt_b := 4;
                     opt_tracefile := Some "trace"%string;
                     opt_verbose := true |} eq_refl)).
Defined.

(** The run of the whole program on the sample trace with [-v]. *)
Example main_argv_sample_run :
  main_argv atoi_model Some fopen_sample sscanf_trace printf_trace malloc_always
    sample_args ≫= (λ res, Ok (res.1, cache_sets (cache res.2)))
  = Ok (3, 4, 1,
        ["L 10,1"; " miss"; newline;
         "M 20,1"; " miss"; " hit"; newline;
         "S 18,1"; " hit"; newline;
         "L 110,1"; " miss"; newline;
         "M 210,1"; " miss eviction"; " hit"; newline]%string,
        []).
Proof. vm_compute. reflexivity. Qed.

(** A line of 255 characters and more reaches the replayer in pieces. *)
Example long_line_is_split :
  file_buffers (string_of_list_ascii (replicate 255 "X"%char) ++ " L 10,1" ++ newline)
  = [string_of_list_ascii (replicate 255 "X"%char); (" L 10,1" ++ newline)%string].
Proof. vm_compute. reflexivity. Qed.

(** * The simulator and the reference model of LRU *)

(** ** Lists of pairs in decreasing order *)

Lemma remove_pair_app t ps qs :
  remove_pair t (ps ++ qs) = remove_pair t ps ++ remove_pair t qs.
Proof.
  induction ps as [|p ps IH]; simpl; [reflexivity|].
  destruct (p.2 =? t); simpl; rewrite IH; reflexivity.
Qed.

Lemma remove_pair_id t ps :
  (∀ p, p ∈ ps → p.2 ≠ t) → remove_pair t ps = ps.
Proof.
  induction ps as [|p ps IH]; intros Hne; simpl; [reflexivity|].
  destruct (Z.eqb_spec p.2 t) as [Heq|_].
  - exfalso. apply (Hne p); [apply elem_of_cons; auto|exact Heq].
  - rewrite IH; [reflexivity|]. intros q Hq. apply Hne. apply elem_of_cons. auto.
Qed.

Lemma remove_pair_tags t ps : (remove_pair t ps).*2 = remove_tag t (ps.*2).
Proof.
  induction ps as [|p ps IH]; [reflexivity|].
  rewrite fmap_cons. simpl. destruct (p.2 =? t); [exact IH|].
  rewrite fmap_cons, IH. reflexivity.
Qed.

Lemma remove_pair_elem t ps q : q ∈ remove_pair t ps → q ∈ ps.
Proof.
  induction ps as [|p ps IH]; simpl; [auto|].
  destruct (p.2 =? t); intros Hq; apply elem_of_cons.
  - right. auto.
  - apply elem_of_cons in Hq as [->|Hq]; auto.
Qed.

Lemma remove_pair_sorted t ps : desc_sorted ps → desc_sorted (remove_pair t ps).
Proof.
  induction ps as [|p ps IH]; simpl; [auto|]. intros [Hp Hps].
  destruct (p.2 =? t); simpl; [auto|]. split; [|auto].
  intros q Hq. apply Hp. eapply remove_pair_elem; eauto.
Qed.

Lemma remove_pair_perm t ps qs :
  ps ≡ₚ qs → remove_pair t ps ≡ₚ remove_pair t qs.
Proof.
  induction 1 as [|p ps qs _ IH|p q ps|ps qs rs _ IH1 _ IH2]; simpl.
  - reflexivity.
  - destruct (p.2 =? t); [exact IH|]. constructor. exact IH.
  - destruct (p.2 =? t), (q.2 =? t); try reflexivity. constructor.
  - etransitivity; eauto.
Qed.

Lemma desc_sorted_app ps qs :
  desc_sorted (ps ++ qs) →
  desc_sorted ps ∧ ∀ p q, p ∈ ps → q ∈ qs → q.1 < p.1.
Proof.
  induction ps as [|x ps IH]; simpl.
  - intros _. split; [exact I|]. intros p q Hp. inversion Hp.
  - intros [Hx Hrest]. destruct (IH Hrest) as [Hps Hlt]. split.
    + split; [|exact Hps]. intros q Hq. apply Hx. apply elem_of_app. auto.
    + intros p q Hp Hq. apply elem_of_cons in Hp as [->|Hp].
      * apply Hx. apply elem_of_app. auto.
      * apply Hlt; assumption.
Qed.

(** In a list in decreasing order, an element that is least is the last. *)
Lemma desc_sorted_least_last ps x :
  desc_sorted ps → x ∈ ps → (∀ y, y ∈ ps → x.1 ≤ y.1) →
  ∃ ps0, ps = ps0 ++ [x].
Proof.
  induction ps as [|p ps IH]; intros Hsorted Hin Hleast; [inversion Hin|].
  destruct Hsorted as [Hp Hps].
  destruct ps as [|q ps'].
  - apply elem_of_cons in Hin as [->|Hin]; [exists []; reflexivity|inversion Hin].
  - assert (Hq : q ∈ q :: ps') by (apply elem_of_cons; auto).
    pose proof (Hp q Hq) as Hqp.
    pose proof (Hleast q ltac:(apply elem_of_cons; auto)) as Hxq.
    apply elem_of_cons in Hin as [->|Hin]; [lia|].
    destruct IH as [ps0 Hps0]; auto.
    { intros y Hy. apply Hleast. apply elem_of_cons. auto. }
    exists (p :: ps0). rewrite Hps0. reflexivity.
Qed.

Lemma existsb_tag t m : existsb (Z.eqb t) m = true ↔ t ∈ m.
Proof.
  induction m as [|x m IH]; simpl.
  - split; [discriminate|]. intros H. inversion H.
  - rewrite orb_true_iff, IH, elem_of_cons, Z.eqb_eq. reflexivity.
Qed.

(** ** The valid lines of a set *)

Lemma valid_pairs_elem ls p :
  p ∈ valid_pairs ls ↔
  ∃ j x, ls !! j = Some x ∧ valid x = true ∧ p = (last_used x, tag x).
Proof.
  unfold valid_pairs. rewrite list_elem_of_omap. split.
  - intros (x & Hx & Hp). apply list_elem_of_lookup in Hx as [j Hj].
    destruct (valid x) eqn:Hv; [|discriminate]. injection Hp as <-. eauto.
  - intros (j & x & Hj & Hv & ->). exists x. split.
    + apply list_elem_of_lookup. eauto.
    + rewrite Hv. reflexivity.
Qed.

Lemma valid_pairs_cons l ls :
  valid_pairs (l :: ls) =
    (if valid l then [(last_used l, tag l)] else []) ++ valid_pairs ls.
Proof. unfold valid_pairs. simpl. destruct (valid l); reflexivity. Qed.

Lemma valid_pairs_length ls : (length (valid_pairs ls) ≤ length ls)%nat.
Proof.
  induction ls as [|l ls IH]; [simpl; lia|].
  rewrite valid_pairs_cons, length_app. destruct (valid l); simpl; lia.
Qed.

Lemma valid_pairs_full ls :
  (∀ j x, ls !! j = Some x → valid x = true) →
  length (valid_pairs ls) = length ls.
Proof.
  induction ls as [|l ls IH]; intros Hall; [reflexivity|].
  rewrite valid_pairs_cons, length_app, (Hall 0%nat l eq_refl). simpl.
  rewrite IH; [reflexivity|]. intros j x Hx. apply (Hall (S j)). exact Hx.
Qed.

(** The valid pairs around the line [k], which the write of that line does
    not change. *)
Lemma valid_pairs_split ls k l :
  ls !! k = Some l →
  ∃ rest,
    valid_pairs ls ≡ₚ (if valid l then [(last_used l, tag l)] else []) ++ rest ∧
    (∀ l', valid_pairs (<[k := l']> ls)
           ≡ₚ (if valid l' then [(last_used l', tag l')] else []) ++ rest) ∧
    (length rest < length ls)%nat ∧
    ∀ p, p ∈ rest →
      ∃ j x, j ≠ k ∧ ls !! j = Some x ∧ valid x = true ∧
             p = (last_used x, tag x).
Proof.
  intros Hl. pose proof (lookup_lt_Some _ _ _ Hl) as Hk.
  exists (valid_pairs (take k ls) ++ valid_pairs (drop (S k) ls)).
  assert (Happ : ∀ xs ys, valid_pairs (xs ++ ys) = valid_pairs xs ++ valid_pairs ys).
  { intros xs ys. unfold valid_pairs. apply omap_app. }
  split; [|split; [|split]].
  - rewrite <- (take_drop_middle ls k l Hl) at 1.
    rewrite Happ, valid_pairs_cons.
    rewrite !app_assoc. apply Permutation_app_tail. apply Permutation_app_comm.
  - intros l'. rewrite insert_take_drop by exact Hk.
    rewrite Happ, valid_pairs_cons.
    rewrite !app_assoc. apply Permutation_app_tail. apply Permutation_app_comm.
  - rewrite length_app.
    pose proof (valid_pairs_length (take k ls)).
    pose proof (valid_pairs_length (drop (S k) ls)).
    rewrite length_take in *. rewrite length_drop in *. lia.
  - intros p Hp. apply elem_of_app in Hp as [Hp|Hp];
      apply valid_pairs_elem in Hp as (j & x & Hj & Hv & ->).
    + pose proof (lookup_lt_Some _ _ _ Hj) as Hjk. rewrite length_take in Hjk.
      rewrite lookup_take_lt in Hj by lia.
      exists j, x. repeat split; auto. lia.
    + rewrite lookup_drop in Hj. exists (S k + j)%nat, x. repeat split; auto. lia.
Qed.

(** ** One reference, in the set and in its model *)

Lemma represents_hit ls m k l l' t E :
  represents ls m →
  ls !! k = Some l → valid l = true → tag l = t →
  valid l' = true → tag l' = t →
  (∀ p, p ∈ valid_pairs ls → p.1 < last_used l') →
  (∀ j x, j ≠ k → ls !! j = Some x → valid x = true → tag x ≠ t) →
  lru_touch E m t = (t :: remove_tag t m, 0) ∧
  represents (<[k := l']> ls) (t :: remove_tag t m).
Proof.
  intros (ps & Hperm & Hsorted & ->) Hl Hv Ht Hv' Ht' Hnew Huniq.
  destruct (valid_pairs_split ls k l Hl) as (rest & Hold & Hins & _ & Hrest).
  rewrite Hv in Hold. specialize (Hins l'). rewrite Hv' in Hins. simpl in Hold, Hins.
  assert (Hin : t ∈ ps.*2).
  { apply list_elem_of_fmap. exists (last_used l, t). split; [reflexivity|].
    rewrite Hperm, Hold, Ht. apply elem_of_cons. auto. }
  split.
  - unfold lru_touch. apply existsb_tag in Hin. rewrite Hin. reflexivity.
  - exists ((last_used l', t) :: remove_pair t ps). split; [|split].
    + rewrite Hins, Ht'. constructor.
      rewrite (remove_pair_perm t _ _ Hperm), (remove_pair_perm t _ _ Hold).
      simpl. rewrite Ht, Z.eqb_refl. rewrite remove_pair_id; [reflexivity|].
      intros p Hp. destruct (Hrest p Hp) as (j & x & Hj & Hx & Hvx & ->). simpl.
      eapply Huniq; eauto.
    + split; [|apply remove_pair_sorted; exact Hsorted].
      intros q Hq. simpl. apply Hnew. rewrite <- Hperm.
      eapply remove_pair_elem; eauto.
    + rewrite fmap_cons, remove_pair_tags. reflexivity.
Qed.

Lemma represents_fill ls m k l l' t E :
  represents ls m →
  ls !! k = Some l → valid l = false →
  valid l' = true → tag l' = t →
  length ls = E →
  (∀ p, p ∈ valid_pairs ls → p.1 < last_used l') →
  (∀ j x, ls !! j = Some x → valid x = true → tag x ≠ t) →
  lru_touch E m t = (t :: m, 1) ∧
  represents (<[k := l']> ls) (t :: m).
Proof.
  intros (ps & Hperm & Hsorted & ->) Hl Hv Hv' Ht' HE Hnew Hnone.
  destruct (valid_pairs_split ls k l Hl) as (rest & Hold & Hins & Hlen & _).
  rewrite Hv in Hold. specialize (Hins l'). rewrite Hv' in Hins. simpl in Hold, Hins.
  split.
  - unfold lru_touch.
    destruct (existsb (Z.eqb t) ps.*2) eqn:Hex.
    + exfalso. apply existsb_tag, list_elem_of_fmap in Hex as (p & -> & Hp).
      rewrite Hperm in Hp. apply valid_pairs_elem in Hp as (j & x & Hj & Hvx & ->).
      exact (Hnone _ _ Hj Hvx eq_refl).
    + rewrite length_fmap, (Permutation_length Hperm), (Permutation_length Hold).
      destruct (Nat.ltb_spec (length rest) E); [reflexivity|lia].
  - exists ((last_used l', t) :: ps). split; [|split].
    + rewrite Hins, Ht', Hperm, Hold. reflexivity.
    + split; [|exact Hsorted]. intros q Hq. apply Hnew. rewrite <- Hperm. exact Hq.
    + reflexivity.
Qed.

Lemma represents_evict ls m k l l' t E :
  represents ls m →
  ls !! k = Some l →
  valid l' = true → tag l' = t →
  length ls = E →
  (∀ p, p ∈ valid_pairs ls → p.1 < last_used l') →
  (∀ j x, ls !! j = Some x → valid x = true ∧ tag x ≠ t) →
  (∀ j x, ls !! j = Some x → last_used l ≤ last_used x) →
  lru_touch E m t = (t :: removelast m, 2) ∧
  represents (<[k := l']> ls) (t :: removelast m).
Proof.
  intros (ps & Hperm & Hsorted & ->) Hl Hv' Ht' HE Hnew Hfull Hleast.
  destruct (Hfull _ _ Hl) as [Hv _].
  destruct (valid_pairs_split ls k l Hl) as (rest & Hold & Hins & _ & _).
  rewrite Hv in Hold. specialize (Hins l'). rewrite Hv' in Hins. simpl in Hold, Hins.
  destruct (desc_sorted_least_last ps (last_used l, tag l)) as [ps0 Hps0]; auto.
  { rewrite Hperm, Hold. apply elem_of_cons. auto. }
  { intros y Hy. rewrite Hperm in Hy.
    apply valid_pairs_elem in Hy as (j & x & Hj & _ & ->). simpl. eauto. }
  assert (Hrest : ps0 ≡ₚ rest).
  { apply (Permutation_cons_inv (a := (last_used l, tag l))).
    rewrite <- Hold, <- Hperm, Hps0. apply Permutation_cons_append. }
  assert (Hremove : removelast ps.*2 = ps0.*2).
  { rewrite Hps0, fmap_app. simpl. apply removelast_last. }
  rewrite Hremove. split.
  - unfold lru_touch.
    destruct (existsb (Z.eqb t) ps.*2) eqn:Hex.
    + exfalso. apply existsb_tag, list_elem_of_fmap in Hex as (p & -> & Hp).
      rewrite Hperm in Hp. apply valid_pairs_elem in Hp as (j & x & Hj & Hvx & ->).
      destruct (Hfull _ _ Hj) as [_ Hne]. exact (Hne eq_refl).
    + rewrite length_fmap, (Permutation_length Hperm).
      rewrite valid_pairs_full by (intros j x Hj; apply (Hfull _ _ Hj)).
      destruct (Nat.ltb_spec (length ls) E); [lia|]. rewrite Hremove. reflexivity.
  - exists ((last_used l', t) :: ps0). split; [|split].
    + rewrite Hins, Ht', Hrest. reflexivity.
    + rewrite Hps0 in Hsorted. apply desc_sorted_app in Hsorted as [Hsorted0 _].
      split; [|exact Hsorted0]. intros q Hq. apply Hnew.
      rewrite <- Hperm, Hps0. apply elem_of_app. auto.
    + reflexivity.
Qed.

(** ** The simulation *)

Lemma valid_pairs_empty n : valid_pairs (replicate n empty_line) = [].
Proof.
  induction n as [|n IH]; [reflexivity|].
  change (replicate (S n) empty_line) with (empty_line :: replicate n empty_line).
  rewrite valid_pairs_cons, IH. reflexivity.
Qed.

Lemma fresh_models s E b : models (fresh_state s E b) (model_fresh s).
Proof.
  unfold models, model_fresh. simpl. apply Forall2_replicate.
  exists []. simpl. rewrite valid_pairs_empty.
  split; [reflexivity|]. split; [exact I|reflexivity].
Qed.

Lemma access_step_models st addr st' r ms :
  well_formed st → counters_ok st → stamps_ok st → tags_unique st →
  models st ms →
  access_step st addr st' r →
  ∃ ms',
    model_access (glob_s st) (cache_E (cache st)) (glob_b st) ms addr = Ok (ms', r) ∧
    models st' ms'.
Proof.
  intros Hwf Hcnt [Hrange _] Huniq Hmodels Hstep.
  pose proof (counters_no_wrap _ Hcnt) as Hwrap.
  apply access_step_detail in Hstep
    as (si & t & set & k & l & l' & Hdec & Hset & Hl & Hsets & Htag & Hlu & Hcases).
  destruct (Forall2_lookup_l _ _ _ _ _ Hmodels Hset) as (m & Hm & Hrep).
  pose proof (wf_lines _ Hwf _ _ Hset) as Hlen.
  assert (Hat : ∀ j x, lines set !! j = Some x →
            line_at st (Z.to_nat si) j = Some x).
  { intros j x Hx. rewrite (line_at_lines _ _ _ _ Hset). exact Hx. }
  assert (Hnew : ∀ p, p ∈ valid_pairs (lines set) → p.1 < last_used l').
  { intros p Hp. apply valid_pairs_elem in Hp as (j & x & Hj & Hv & ->). simpl.
    pose proof (Hrange _ _ _ (Hat _ _ Hj) Hv). rewrite Hlu, Hwrap. lia. }
  assert (Htouch : ∃ m', lru_touch (Z.to_nat (cache_E (cache st))) m t = (m', r) ∧
                         represents (<[k := l']> (lines set)) m').
  { destruct Hcases as [(-> & Hv & Ht & Hv' & _)
                       |[(-> & Hv & Hv' & _ & Hnone & _)|(-> & Hv' & Hfull & Hscan)]].
    - eexists. eapply represents_hit; eauto.
      intros j x Hj Hx Hvx. rewrite <- Ht.
      apply (Huniq (Z.to_nat si) j k x l); auto.
    - eexists. eapply represents_fill; eauto.
      intros j x Hx Hvx.
      pose proof (well_formed_line_index _ _ _ _ _ Hwf Hset Hx) as Hj.
      destruct (Hnone j Hj) as (x' & Hx' & HP).
      assert (x' = x) as -> by congruence.
      unfold is_hit in HP. rewrite Hvx in HP. apply Z.eqb_neq. exact HP.
    - assert (Hall : ∀ j x, lines set !! j = Some x → valid x = true ∧ tag x ≠ t).
      { intros j x Hx.
        pose proof (well_formed_line_index _ _ _ _ _ Hwf Hset Hx) as Hj.
        destruct (Hfull j Hj) as (x' & Hx' & HP & Hvx).
        assert (x' = x) as -> by congruence. split; [exact Hvx|].
        unfold is_hit in HP. rewrite Hvx in HP. apply Z.eqb_neq. exact HP. }
      assert (Hmax : ∀ j x, (j < Z.to_nat (cache_E (cache st)))%nat →
                lines set !! j = Some x → last_used x ≤ ULLONG_MAX).
      { intros j x _ Hx. destruct (Hall _ _ Hx) as [Hvx _].
        pose proof (Hrange _ _ _ (Hat _ _ Hx) Hvx).
        destruct Hcnt. unfold ULLONG_MAX, INT_MAX in *. lia. }
      assert (Hn : (1 ≤ Z.to_nat (cache_E (cache st)))%nat)
        by (destruct Hwf; lia).
      pose proof (lru_scan_victim _ _ _ Hn Hmax Hscan) as (_ & lk & Hlk & Hleast).
      assert (lk = l) as -> by congruence.
      destruct (Hall _ _ Hl) as [Hv _].
      assert (Hvalid' : valid l' = true) by congruence.
      assert (Hleast' : ∀ j x, lines set !! j = Some x →
                last_used l ≤ last_used x).
      { intros j x Hx. apply (Hleast j x); [|exact Hx].
        eapply well_formed_line_index; eauto. }
      eexists.
      exact (represents_evict _ _ _ _ _ _ _ Hrep Hl Hvalid' Htag Hlen Hnew Hall Hleast'). }
  destruct Htouch as (m' & Htouch & Hrep').
  exists (<[Z.to_nat si := m']> ms). split.
  - unfold model_access. rewrite Hdec. simpl. unfold index. rewrite Hm. simpl.
    rewrite Htouch. reflexivity.
  - unfold models. rewrite Hsets. apply Forall2_insert; assumption.
Qed.

Lemma access_seq_refines st addrs st' ms :
  well_formed st → counters_ok st → stamps_ok st → tags_unique st →
  models st ms →
  access_seq st addrs = Ok st' →
  model_run (glob_s st) (cache_E (cache st)) (glob_b st) ms addrs
    = Ok (drop (length (access_log st)) (access_log st').*2).
Proof.
  revert st ms. induction addrs as [|a addrs IH];
    intros st ms Hwf Hcnt Hst Huniq Hmodels H; simpl in H.
  - injection H as <-. simpl. rewrite <- (length_fmap snd), drop_all. reflexivity.
  - apply bind_Ok in H as ([st1 r] & H1%access_data_step & H).
    destruct (access_step_models _ _ _ _ _ Hwf Hcnt Hst Huniq Hmodels H1)
      as (ms1 & Hmodel & Hmodels1).
    pose proof (access_step_frame _ _ _ _ H1)
      as (si & t & set & k & l & l' & _ & _ & _ & Hc & (Hs & _ & Hb) & _ & Hlog & _).
    specialize (IH st1 ms1 (access_step_well_formed _ _ _ _ H1 Hwf)
                  (access_step_counters_ok _ _ _ _ H1 Hcnt)
                  (access_step_stamps_ok _ _ _ _ H1 Hcnt Hst)
                  (access_step_tags_unique _ _ _ _ H1 Hwf Huniq) Hmodels1 H).
    simpl. rewrite Hmodel. simpl.
    rewrite Hs, Hb, Hc in IH. simpl in IH. rewrite IH. simpl. f_equal.
    pose proof (access_seq_counts _ _ _ H) as [Hlogs _].
    assert (Hsnd : ∃ rest, (access_log st').*2 = (access_log st).*2 ++ r :: rest ∧
              drop (length (access_log st1)) (access_log st').*2 = rest).
    { assert (Hgrow : ∀ addrs0 stA stB, access_seq stA addrs0 = Ok stB →
                ∃ tail, access_log stB = access_log stA ++ tail).
      { clear. induction addrs0 as [|a0 addrs0 IH0]; intros stA stB HAB; simpl in HAB.
        - injection HAB as <-. exists []. rewrite app_nil_r. reflexivity.
        - apply bind_Ok in HAB as ([stC rC] & HC & HAB).
          apply access_data_counts in HC as [HlogC _].
          destruct (IH0 _ _ HAB) as [tail Htail].
          exists ((a0, rC) :: tail). rewrite Htail, HlogC, <- app_assoc. reflexivity. }
      destruct (Hgrow _ _ _ H) as [tail Htail].
      exists (tail.*2). rewrite Htail, Hlog, !fmap_app. simpl.
      split; [rewrite <- app_assoc; reflexivity|].
      rewrite <- (length_fmap snd), fmap_app. simpl.
      rewrite drop_app_length. reflexivity. }
    destruct Hsnd as (rest & Hall & Hrest). rewrite Hrest, Hall.
    rewrite <- (length_fmap snd (access_log st)), drop_app_length. reflexivity.
Qed.

Lemma count_outcome_snoc r rs x :
  count_outcome r (rs ++ [x]) = count_outcome r rs + (if x =? r then 1 else 0).
Proof.
  unfold count_outcome. rewrite filter_app, length_app, Nat2Z.inj_add. f_equal.
  rewrite filter_cons, filter_nil.
  destruct (Z.eqb_spec x r); case_decide; try contradiction; reflexivity.
Qed.

Lemma count_outcome_log r (log : list (Z * Z)) addr x :
  count_outcome r (log ++ [(addr, x)]).*2 =
    count_outcome r log.*2 + (if x =? r then 1 else 0).
Proof. rewrite fmap_app. apply count_outcome_snoc. Qed.

(** The counters count the outcomes on record. *)
Lemma access_seq_outcomes st addrs st' :
  hit_count st = count_outcome 0 (access_log st).*2 →
  miss_count st = count_outcome 1 (access_log st).*2
                  + count_outcome 2 (access_log st).*2 →
  eviction_count st = count_outcome 2 (access_log st).*2 →
  access_seq st addrs = Ok st' →
  hit_count st' = count_outcome 0 (access_log st').*2 ∧
  miss_count st' = count_outcome 1 (access_log st').*2
                   + count_outcome 2 (access_log st').*2 ∧
  eviction_count st' = count_outcome 2 (access_log st').*2.
Proof.
  revert st. induction addrs as [|a addrs IH]; intros st Hh Hm He H; simpl in H.
  - injection H as <-. auto.
  - apply bind_Ok in H as ([st1 r] & H1%access_data_step & H).
    apply (IH st1); [| | |exact H];
      destruct H1; unfold commit;
      cbn [access_log hit_count miss_count eviction_count];
      rewrite !count_outcome_log; simpl; lia.
Qed.

Section RefinementProofs.

Variable sscanf_line : string → Z * (ascii * Z * Z).
Variable malloc_ok : nat → Z → bool.

(** X21 (the simulator is LRU).  The values that the calls of
    [access_data] return, for any sequence of addresses from a freshly
    constructed cache, are the outcomes of the reference model of LRU
    replacement, in which a set is the list of its tags in the order of their
    last use: a tag that is present is a hit and moves to the front, a new tag
    misses, and when the set holds [E] tags the one used longest ago is
    dropped. *)
Theorem simulator_refines_lru (s E b : Z) (st0 : state) (addrs : list Z) (st : state) :
  main_init malloc_ok s E b true = Ok st0 →
  access_seq st0 addrs = Ok st →
  model_run s E b (model_fresh s) addrs = Ok (access_log st).*2.
Proof.
  intros H0 Hrun. apply main_init_Ok in H0 as (Hs & HE & Hb & _ & ->).
  pose proof (access_seq_refines (fresh_state s E b) addrs st (model_fresh s)
                (fresh_well_formed s E b Hs HE Hb) (fresh_counters_ok s E b)
                (fresh_stamps_ok s E b)) as Href.
  simpl in Href. apply Href; [|apply fresh_models|exact Hrun].
  intros si j1 j2 l1 l2 H1 _ Hv. apply line_at_fresh in H1 as ->. discriminate.
Qed.

(** X22 (the summary is that of LRU).  When [main] completes, the triple
    it passes to [printSummary] counts the outcomes of the reference model of
    LRU on the accesses of the trace: the hits are its outcomes 0, the misses
    its outcomes 1 and 2, the evictions its outcomes 2. *)
Theorem main_computes_lru (s E b : Z) (bufs : list string) (h m e : Z) :
  main sscanf_line malloc_ok s E b (Some (Some bufs)) = Ok (h, m, e) →
  ∃ rs,
    model_run s E b (model_fresh s) (trace_accesses sscanf_line bufs) = Ok rs ∧
    h = count_outcome 0 rs ∧
    m = count_outcome 1 rs + count_outcome 2 rs ∧
    e = count_outcome 2 rs.
Proof.
  unfold main. intros H.
  apply bind_Ok in H as (st0 & H0 & H).
  apply bind_Ok in H as (st & Hrun & H). injection H as <- <- <-.
  assert (Htrue : bool_decide (is_Some (Some (Some bufs))) = true) by reflexivity.
  rewrite Htrue in H0.
  apply main_init_Ok in H0 as (Hs & HE & Hb & _ & ->).
  simpl in Hrun. rewrite replay_lines_accesses in Hrun.
  exists (access_log st).*2. split.
  - pose proof (access_seq_refines (fresh_state s E b)
                  (trace_accesses sscanf_line bufs) st (model_fresh s)
                  (fresh_well_formed s E b Hs HE Hb) (fresh_counters_ok s E b)
                  (fresh_stamps_ok s E b)) as Href.
    simpl in Href. apply Href; [|apply fresh_models|exact Hrun].
    intros si j1 j2 l1 l2 H1 _ Hv. apply line_at_fresh in H1 as ->. discriminate.
  - apply (access_seq_outcomes (fresh_state s E b)
             (trace_accesses sscanf_line bufs) st); auto.
Qed.

End RefinementProofs.

Lemma simulator_refines_lru_witness :
  main_init malloc_always 0 2 0 true = Ok (fresh_state 0 2 0) ∧
  access_seq (fresh_state 0 2 0) [7; 9; 7; 1; 9; 7] = Ok
    {| glob_s := 0; glob_E := 2; glob_b := 0;
       cache := {| cache_sets :=
                     [ {| lines := [ {| valid := true; tag := 9; last_used := 5 |};
                                     {| valid := true; tag := 7; last_used := 6 |} ] |} ];
                   cache_S := 1; cache_E := 2 |};
       hit_count := 1; miss_count := 5; eviction_count := 3;
       use_counter := 6;
       access_log := [(7, 1); (9, 1); (7, 0); (1, 2); (9, 2); (7, 2)] |} ∧
  model_run 0 2 0 (model_fresh 0) [7; 9; 7; 1; 9; 7] = Ok [1; 1; 0; 2; 2; 2].
Proof.
  assert (H0 : main_init malloc_always 0 2 0 true = Ok (fresh_state 0 2 0))
    by reflexivity.
  split; [exact H0|]. split; [reflexivity|].
  exact (simulator_refines_lru malloc_always 0 2 0 _ [7; 9; 7; 1; 9; 7] _ H0 eq_refl).
Defined.

Lemma main_computes_lru_witness :
  main sscanf_trace malloc_always 1 2 4 (Some (Some sample_trace)) = Ok (3, 4, 1) ∧
  ∃ rs,
    model_run 1 2 4 (model_fresh 1) (trace_accesses sscanf_trace sample_trace) = Ok rs ∧
    3 = count_outcome 0 rs ∧
    4 = count_outcome 1 rs + count_outcome 2 rs ∧
    1 = count_outcome 2 rs.
Proof.
  assert (Hrun : main sscanf_trace malloc_always 1 2 4 (Some (Some sample_trace))
                 = Ok (3, 4, 1)) by reflexivity.
  split; [exact Hrun|].
  exact (main_computes_lru sscanf_trace malloc_always 1 2 4 sample_trace 3 4 1 Hrun).
Defined.

Lemma init_cache_size_wraps_witness :
  61 ≤ 61 < 64 ∧ 0 < 1 ∧ 0 ≤ 0 ∧
  main_init malloc_always 61 1 0 true = UB ∧
  main_init malloc_twice 61 1 0 true = UB ∧
  main_init (λ _ n, 0 <? n) 61 1 0 true = Exit.
Proof.
  assert (Hs : 61 ≤ 61 < 64) by lia.
  assert (HE : 0 < 1) by lia.
  assert (Hb : 0 ≤ 0) by lia.
  split; [exact Hs|]. split; [exact HE|]. split; [exact Hb|].
  split; [|split].
  - exact (init_cache_size_wraps malloc_always 61 1 0 Hs HE Hb).
  - exact (init_cache_size_wraps malloc_twice 61 1 0 Hs HE Hb).
  - exact (init_cache_size_wraps (λ _ n, 0 <? n) 61 1 0 Hs HE Hb).
Defined.
